(** * dive/filetree: the layer tree, stacking, comparison and rendering

    A shallow embedding of [filetree/tree.go].  A [*FileNode] is modelled by
    its location, the list of child names leading to it from the root; the
    owning tree is threaded explicitly through every mutating operation.
    The node-level file of the package is not part of the sources at hand:
    every definition that stands for it is marked as modelled from the
    specification. *)

From Stdlib Require Import ZArith Lia Ascii String.
From stdpp Require Import gmap strings list fin_maps sorting.
From Equations Require Import Equations.

Local Open Scope string_scope.
Local Open Scope list_scope.

(** ** Go's [strings] helpers, at the one separator the package uses *)

Module Strs.

Definition slash : ascii := "/"%char.

(** [strings.Split(s, "/")]: the pieces between the separators; the empty
    string splits into one empty piece. *)
Fixpoint Split (s : string) : list string :=
  match s with
  | EmptyString => [EmptyString]
  | String c r =>
      if Ascii.eqb c slash then EmptyString :: Split r
      else match Split r with
           | h :: t => String c h :: t
           | [] => [String c EmptyString]
           end
  end.

(** [strings.TrimLeft(s, "/")] *)
Fixpoint TrimLeft (s : string) : string :=
  match s with
  | EmptyString => EmptyString
  | String c r => if Ascii.eqb c slash then TrimLeft r else s
  end.

(** [strings.TrimRight(s, "/")] *)
Fixpoint TrimRight (s : string) : string :=
  match s with
  | EmptyString => EmptyString
  | String c r =>
      match TrimRight r with
      | EmptyString => if Ascii.eqb c slash then EmptyString else String c EmptyString
      | r' => String c r'
      end
  end.

(** [strings.Trim(s, "/")] *)
Definition Trim (s : string) : string := TrimRight (TrimLeft s).

(** [strings.Join(names, "/")] *)
Fixpoint Join (names : list string) : string :=
  match names with
  | [] => EmptyString
  | [n] => n
  | n :: rest => n +:+ String slash (Join rest)
  end.

(** What is left of [s] once the prefix [p] is taken off, if [s] starts
    with [p]. *)
Fixpoint strip (p s : string) : option string :=
  match p with
  | EmptyString => Some s
  | String a p' =>
      match s with
      | EmptyString => None
      | String b s' => if Ascii.eqb a b then strip p' s' else None
      end
  end.

(** [strings.HasPrefix] *)
Definition HasPrefix (s p : string) : bool :=
  match strip p s with Some _ => true | None => false end.

(** [strings.TrimPrefix] *)
Definition TrimPrefix (s p : string) : string :=
  match strip p s with Some r => r | None => s end.

Definition nonempty (s : string) : bool := negb (String.eqb s EmptyString).

(** A name that can be a key of a children map reached by a path: it is
    not empty and holds no separator. *)
Fixpoint slash_free (s : string) : bool :=
  match s with
  | EmptyString => true
  | String c r => negb (Ascii.eqb c slash) && slash_free r
  end.

(** The names a path walks through: what the loops of [GetNode] and
    [AddPath] see once the empty pieces are skipped. *)
Definition segments (path : string) : list string :=
  List.filter nonempty (Split (Trim path)).

(** A name as [AddPath] creates them: not empty and without separator. *)
Definition valid_segment (s : string) : bool := nonempty s && slash_free s.

End Strs.

Example Split_ex : Strs.Split "a//b" = ["a"; ""; "b"].
Proof. reflexivity. Qed.
Example Trim_ex : Strs.Trim "//a/b/" = "a/b".
Proof. reflexivity. Qed.
Example TrimPrefix_ex : Strs.TrimPrefix ".wh.foo" ".wh." = "foo".
Proof. reflexivity. Qed.
Example segments_ex : Strs.segments "/a//b/" = ["a"; "b"].
Proof. reflexivity. Qed.
Example segments_blank : Strs.segments "  " = ["  "].
Proof. reflexivity. Qed.
Example Join_ex : Strs.Join ["a"; "b"; "c"] = "a/b/c".
Proof. reflexivity. Qed.

(** ** Data model *)

(** Modelled from the spec: the declaration of [FileInfo] is not in tree.go.
    The payload of a node carries a name, a size (uint64), a mode, a
    directory flag and a content-identity hint; [zero] is Go's [FileInfo{}]. *)
Module FileInfo.
Record t := mk { Name : string; Size : Z; Mode : Z; IsDir : bool; Hash : Z }.
Definition zero : t := mk "" 0 0 false 0.
#[global] Instance eq_dec : EqDecision t.
Proof. solve_decision. Defined.
End FileInfo.

(** Modelled from the spec: the enumeration of diff classifications is not
    in tree.go.  [Unset] is the sentinel a node carries before it is first
    classified. *)
Module DiffType.
Inductive t := Unset | Unmodified | Added | Modified | Removed.
#[global] Instance eq_dec : EqDecision t.
Proof. solve_decision. Defined.

(** Severity, for the escalation rule: Removed > Modified > Added >
    Unmodified, the sentinel below them all. *)
Definition severity (d : t) : nat :=
  match d with Unset => 0 | Unmodified => 1 | Added => 2 | Modified => 3 | Removed => 4 end.

Definition combine (a b : t) : t := if (severity a <? severity b)%nat then b else a.
End DiffType.

(** Modelled from the spec: the view state read by rendering. *)
Module ViewInfo.
Record t := mk { Collapsed : bool; Hidden : bool }.
Definition zero : t := mk false false.
End ViewInfo.

Record NodeData := mkData {
  FileInfo : FileInfo.t;
  DiffType : DiffType.t;
  ViewInfo : ViewInfo.t
}.

(** A node owns the map of its children.  Its [Name] is the key under which
    its parent holds it, and its [Parent] and [Tree] links are what the
    location of the node stands for. *)
#[warnings="-register-all"]
Inductive FileNode := mkNode { Data : NodeData; Children : gmap string FileNode }.

(** The [Id] of a tree is a fresh random UUID; no operation reads it and it
    is left out. *)
Record FileTree := mkTree {
  Root : FileNode;
  Size : Z;
  FileSize : Z;
  Name : string
}.

(** A [*FileNode] inside a tree; the root is the empty location, a nil
    pointer is [None]. *)
Definition NodeRef := list string.

Definition wrap_int (z : Z) : Z := ((z + 2 ^ 63) mod 2 ^ 64 - 2 ^ 63)%Z.
Definition wrap_uint64 (z : Z) : Z := (z mod 2 ^ 64)%Z.

Definition NewNode (data : FileInfo.t) : FileNode :=
  mkNode (mkData data DiffType.Unset ViewInfo.zero) ∅.

Definition NewFileTree : FileTree :=
  mkTree (NewNode FileInfo.zero) 0 0 "".

(** *** Reading and writing at a location *)

Fixpoint node_at (n : FileNode) (loc : NodeRef) : option FileNode :=
  match loc with
  | [] => Some n
  | k :: ks => match Children n !! k with
               | Some c => node_at c ks
               | None => None
               end
  end.

Fixpoint alter_at (f : FileNode -> FileNode) (loc : NodeRef) (n : FileNode) : FileNode :=
  match loc with
  | [] => f n
  | k :: ks => mkNode (Data n) (alter (alter_at f ks) k (Children n))
  end.

(** [node.Children[name]] for the node at [loc]. *)
Definition child_of (root : FileNode) (loc : NodeRef) (name : string) : option FileNode :=
  n ← node_at root loc; Children n !! name.

Definition set_children (f : gmap string FileNode -> gmap string FileNode) (n : FileNode) : FileNode :=
  mkNode (Data n) (f (Children n)).

Definition set_FileInfo (d : FileInfo.t) (n : FileNode) : FileNode :=
  mkNode (mkData d (DiffType (Data n)) (ViewInfo (Data n))) (Children n).

Definition set_DiffType (d : DiffType.t) (n : FileNode) : FileNode :=
  mkNode (mkData (FileInfo (Data n)) d (ViewInfo (Data n))) (Children n).

(** Number of nodes, and of payload bytes, of a subtree. *)
Fixpoint node_count (n : FileNode) : nat :=
  S (map_fold (fun _ c acc => node_count c + acc)%nat 0%nat (Children n)).

Fixpoint node_bytes (n : FileNode) : Z :=
  (FileInfo.Size (FileInfo (Data n))
   + map_fold (fun _ c acc => node_bytes c + acc) 0 (Children n))%Z.

Fixpoint split_last {A} (l : list A) : option (list A * A) :=
  match l with
  | [] => None
  | x :: r => match split_last r with
              | None => Some ([], x)
              | Some (i, y) => Some (x :: i, y)
              end
  end.

(** Name of the node at a location; the root has the empty name. *)
Definition name_of (loc : NodeRef) : string :=
  match split_last loc with Some (_, n) => n | None => "" end.

Inductive error :=
  | PathNotFound (path : string)
  | NodeCreationFailed (name : string)
  | RootRemovalDisallowed
  | CannotRemoveNode (path : string) (cause : error)
  | CannotAddNode (path : string) (cause : error)
  | CannotRemoveUpperNode (path : string) (cause : error)
  | CannotAddNewUpperNode (path : string) (cause : error).

Definition with_root (f : FileNode -> FileNode) (tree : FileTree) : FileTree :=
  mkTree (f (Root tree)) (Size tree) (FileSize tree) (Name tree).

(** ** Path operations *)

Section PathOps.

(** Modelled from the spec: [FileNode.AddChild] is not in tree.go.  It
    returns a null node when the name is one it refuses; which names those
    are is left open, so the test is a parameter. *)
Variable valid_name : string -> bool.

(** Modelled from the spec: [FileNode.AddChild] creates a child with the
    given name and payload under the receiver, registers it in [Children]
    and increments the bookkeeping of the owning tree; it returns the
    created node, or null. *)
Definition AddChild (tree : FileTree) (loc : NodeRef) (name : string) (data : FileInfo.t)
  : FileTree * option NodeRef :=
  if valid_name name then
    (mkTree (alter_at (set_children (insert name (NewNode data))) loc (Root tree))
            (wrap_int (Size tree + 1))
            (wrap_uint64 (FileSize tree + FileInfo.Size data))
            (Name tree),
     Some (loc ++ [name]))
  else (tree, None).

(** Modelled from the spec: [FileNode.Remove] is not in tree.go.  It fails
    on the root; otherwise it detaches the receiver from its parent's
    children map and takes the whole removed subtree out of the
    bookkeeping of the owning tree. *)
Definition Remove (tree : FileTree) (loc : NodeRef) : FileTree * option error :=
  match split_last loc with
  | None => (tree, Some RootRemovalDisallowed)
  | Some (parent, name) =>
      let sub := default (NewNode FileInfo.zero) (node_at (Root tree) loc) in
      (mkTree (alter_at (set_children (delete name)) parent (Root tree))
              (wrap_int (Size tree - Z.of_nat (node_count sub)))
              (wrap_uint64 (FileSize tree - node_bytes sub))
              (Name tree),
       None)
  end.

(** [GetNode]: the loop over the pieces of the path, [node] being the
    cursor. *)
Fixpoint GetNode_loop (root : FileNode) (path : string) (nodeNames : list string)
    (node : NodeRef) : option NodeRef * option error :=
  match nodeNames with
  | [] => (Some node, None)
  | name :: rest =>
      if String.eqb name "" then GetNode_loop root path rest node
      else match child_of root node name with
           | None => (None, Some (PathNotFound path))
           | Some _ => GetNode_loop root path rest (node ++ [name])
           end
  end.

Definition GetNode (tree : FileTree) (path : string) : option NodeRef * option error :=
  GetNode_loop (Root tree) path (Strs.Split (Strs.Trim path)) [].

(** [AddPath]: [idx] counts the pieces, [len] is [len(nodeNames)]. *)
Fixpoint AddPath_loop (nodeNames : list string) (idx len : Z) (data : FileInfo.t)
    (node : NodeRef) (tree : FileTree) : FileTree * (option NodeRef * option error) :=
  match nodeNames with
  | [] => (tree, (Some node, None))
  | name :: rest =>
      if String.eqb name "" then AddPath_loop rest (idx + 1) len data node tree
      else
        let attach (node' : NodeRef) (tree' : FileTree) :=
          let tree'' := if (idx =? len - 1)%Z
                        then with_root (alter_at (set_FileInfo data) node') tree'
                        else tree' in
          AddPath_loop rest (idx + 1) len data node' tree'' in
        match child_of (Root tree) node name with
        | Some _ => attach (node ++ [name]) tree
        | None =>
            match AddChild tree node name FileInfo.zero with
            | (tree', None) => (tree', (None, Some (NodeCreationFailed name)))
            | (tree', Some node') => attach node' tree'
            end
        end
  end.

Definition AddPath (tree : FileTree) (path : string) (data : FileInfo.t)
  : FileTree * (option NodeRef * option error) :=
  let nodeNames := Strs.Split (Strs.Trim path) in
  AddPath_loop nodeNames 0 (Z.of_nat (length nodeNames)) data [] tree.

Definition RemovePath (tree : FileTree) (path : string) : FileTree * option error :=
  match GetNode tree path with
  | (_, Some err) => (tree, Some err)
  | (None, None) => (tree, None)
  | (Some node, None) => Remove tree node
  end.

End PathOps.

(** ** Effects: the receiver tree as state, panics as a result *)

Inductive Res (A : Type) :=
  | Done (a : A) (tree : FileTree)
  | Panic.
Arguments Done {A} a tree.
Arguments Panic {A}.

Definition M (A : Type) : Type := FileTree -> Res A.

Definition ret {A} (a : A) : M A := fun tree => Done a tree.

Definition bind {A B} (c : M A) (k : A -> M B) : M B :=
  fun tree => match c tree with
              | Done a tree' => k a tree'
              | Panic => Panic
              end.

Notation "'let*' x ':=' c 'in' k" := (bind c (fun x => k))
  (at level 10, x pattern, c at level 100, k at level 200).

(** Lift an operation that returns the updated tree next to its results. *)
Definition lift {A} (op : FileTree -> FileTree * A) : M A :=
  fun tree => let '(tree', a) := op tree in Done a tree'.

(** A node handed to a visitor: its location in the visited tree and the
    node read there. *)
Definition Visited : Type := NodeRef * FileNode.

Definition Visitor : Type := Visited -> M (option error).
Definition VisitEvaluator : Type := Visited -> bool.

Definition whiteoutPrefix : string := ".wh.".
Definition doubleWhiteoutPrefix : string := ".wh..wh..".

(** Modelled from the spec: [FileNode.IsWhiteout] is not in tree.go; it
    holds iff the name of the node carries the whiteout prefix. *)
Definition IsWhiteout (node : NodeRef) : bool :=
  Strs.HasPrefix (name_of node) whiteoutPrefix.

(** Modelled from the spec: [FileNode.Path] is not in tree.go.  It joins
    with slashes the names from the root down to the node.  [Stack] hands
    the result for a whiteout straight to [RemovePath] and is to remove the
    path the whiteout shadows, so the whiteout prefix is taken off the
    node's own name here. *)
Definition Path (node : NodeRef) : string :=
  match split_last node with
  | None => "/"
  | Some (dirs, name) =>
      String Strs.slash (Strs.Join (dirs ++ [Strs.TrimPrefix name whiteoutPrefix]))
  end.

Fixpoint visit_each (f : string -> M (option error)) (names : list string) : M (option error) :=
  match names with
  | [] => ret None
  | name :: rest =>
      let* err := f name in
      match err with
      | Some e => ret (Some e)
      | None => visit_each f rest
      end
  end.

Definition keys {A} (m : gmap string A) : list string := (map_to_list m).*1.

(** [sort.Strings] over the keys of a children map. *)
Definition string_le (a b : string) : Prop := Is_true (String.leb a b).
#[global] Instance string_le_dec : RelDecision string_le.
Proof. intros a b. unfold string_le. apply _. Defined.

Definition sorted_keys {A} (m : gmap string A) : list string :=
  merge_sort string_le (keys m).

Section Layers.

Variable valid_name : string -> bool.

(** Modelled from the spec: the order in which a traversal takes the
    children of a node is not fixed; it is some enumeration of the keys. *)
Variable child_order : gmap string FileNode -> list string.

(** Modelled from the spec: [FileNode.VisitDepthChildFirst] is not in
    tree.go.  Post-order: the children are visited before the node; the
    first error stops the traversal and is returned; an evaluator that
    returns false for a node prunes the node and its whole subtree. *)
Fixpoint VisitDepthChildFirst_node (node : FileNode)
  : NodeRef -> Visitor -> option VisitEvaluator -> M (option error) :=
  fun loc visitor evaluator =>
    let below := VisitDepthChildFirst_node <$> Children node in
    let visit_child name :=
      match below !! name with
      | Some visit => visit (loc ++ [name]) visitor evaluator
      | None => ret None
      end in
    if match evaluator with Some ev => negb (ev (loc, node)) | None => false end
    then ret None
    else
      let* err := visit_each visit_child (child_order (Children node)) in
      match err with
      | Some e => ret (Some e)
      | None => visitor (loc, node)
      end.

(** [FileTree.VisitDepthChildFirst] of the tree [upper], run against the
    receiver held in the state. *)
Definition VisitDepthChildFirst (upper : FileTree) (visitor : Visitor)
    (evaluator : option VisitEvaluator) : M (option error) :=
  VisitDepthChildFirst_node (Root upper) [] visitor evaluator.

(** The closure [graft] of [Stack].  In the error branch of the addition
    the message is built from [newNode.Path()]: on a nil [newNode] the
    call panics. *)
Definition Stack_graft (node : Visited) : M (option error) :=
  fun tree =>
    if IsWhiteout node.1 then
      let '(tree', err) := RemovePath tree (Path node.1) in
      match err with
      | Some e => Done (Some (CannotRemoveNode (Path node.1) e)) tree'
      | None => Done None tree'
      end
    else
      let '(tree', (newNode, err)) :=
        AddPath valid_name tree (Path node.1) (FileInfo (Data node.2)) in
      match err with
      | Some e =>
          match newNode with
          | None => Panic
          | Some n => Done (Some (CannotAddNode (Path n) e)) tree'
          end
      | None => Done None tree'
      end.

Definition Stack (upper : FileTree) : M (option error) :=
  VisitDepthChildFirst upper Stack_graft None.

(** Modelled from the spec: [FileNode.AssignDiffType] is not in tree.go.
    A classification is only ever escalated. *)
Definition AssignDiffType (tree : FileTree) (node : NodeRef) (t : DiffType.t)
  : FileTree * option error :=
  (with_root (alter_at (fun n => set_DiffType (DiffType.combine (DiffType (Data n)) t) n) node) tree,
   None).

(** The least-unmodified classification found in a subtree. *)
Fixpoint worst (n : FileNode) : DiffType.t :=
  map_fold (fun _ c acc => DiffType.combine (worst c) acc) (DiffType (Data n)) (Children n).

(** Modelled from the spec: [FileNode.deriveDiffType] is not in tree.go.
    The classification of the pair is combined with the current one and
    with those of the descendants. *)
Definition deriveDiffType (tree : FileTree) (node : NodeRef) (t : DiffType.t)
  : FileTree * option error :=
  match node_at (Root tree) node with
  | None => (tree, None)
  | Some n => AssignDiffType tree node (DiffType.combine t (worst n))
  end.

(** Modelled from the spec: [FileNode.compare] is not in tree.go.
    Unmodified only when size, mode, type and content identity all
    match. *)
Definition compare (lower upper : FileNode) : DiffType.t :=
  let a := FileInfo (Data lower) in
  let b := FileInfo (Data upper) in
  if ((FileInfo.Size a =? FileInfo.Size b)%Z && (FileInfo.Mode a =? FileInfo.Mode b)%Z
      && Bool.eqb (FileInfo.IsDir a) (FileInfo.IsDir b) && (FileInfo.Hash a =? FileInfo.Hash b)%Z)%bool
  then DiffType.Unmodified else DiffType.Modified.

Definition markRemoved (tree : FileTree) (path : string) : FileTree * option error :=
  match GetNode tree path with
  | (_, Some err) => (tree, Some err)
  | (None, None) => (tree, None)
  | (Some node, None) => AssignDiffType tree node DiffType.Removed
  end.

(** The closure [graft] of [Compare]. *)
Definition Compare_graft (upperNode : Visited) : M (option error) :=
  fun tree =>
    if IsWhiteout upperNode.1 then
      let '(tree', err) := markRemoved tree (Path upperNode.1) in
      match err with
      | Some e => Done (Some (CannotRemoveUpperNode (Path upperNode.1) e)) tree'
      | None => Done None tree'
      end
    else
      match (GetNode tree (Path upperNode.1)).1 with
      | None =>
          let '(tree', (newNode, err)) :=
            AddPath valid_name tree (Path upperNode.1) (FileInfo (Data upperNode.2)) in
          match err with
          | Some e => Done (Some (CannotAddNewUpperNode (Path upperNode.1) e)) tree'
          | None =>
              match newNode with
              | None => Panic
              | Some n => Done None (AssignDiffType tree' n DiffType.Added).1
              end
          end
      | Some lowerNode =>
          match node_at (Root tree) lowerNode with
          | None => Panic
          | Some l =>
              let diffType := compare l upperNode.2 in
              let '(tree', err) := deriveDiffType tree lowerNode diffType in
              Done err tree'
          end
      end.

Definition Compare (upper : FileTree) : M (option error) :=
  VisitDepthChildFirst upper Compare_graft None.

(** Modelled from the spec: [FileNode.Copy] is not in tree.go; it clones
    the subtree of the receiver. *)
Fixpoint Copy_node (n : FileNode) : FileNode :=
  mkNode (Data n) (Copy_node <$> Children n).

(** [FileTree.Copy]: a new tree with the sizes and a clone of the nodes;
    the [Name] is not carried over. *)
Definition Copy (tree : FileTree) : FileTree :=
  mkTree (Copy_node (Root tree)) (Size tree) (FileSize tree) "".

(** [trees[idx]], which panics out of range. *)
Definition index (trees : list FileTree) (idx : Z) : option FileTree :=
  if (idx <? 0)%Z then None else trees !! Z.to_nat idx.

(** The loop of [StackRange], [n] iterations being left; the result is the
    list of the errors handed to the logger. *)
Fixpoint StackRange_loop (trees : list FileTree) (n : nat) (idx : Z) (logged : list error)
  : M (list error) :=
  match n with
  | O => ret logged
  | S n' =>
      match index trees idx with
      | None => fun _ => Panic
      | Some upper =>
          let* err := Stack upper in
          StackRange_loop trees n' (idx + 1)
            (match err with Some e => logged ++ [e] | None => logged end)
      end
  end.

Definition StackRange (trees : list FileTree) (start stop : Z) : Res (list error) :=
  match index trees 0 with
  | None => Panic
  | Some first =>
      StackRange_loop trees (Z.to_nat (stop - start + 1)) start [] (Copy first)
  end.

End Layers.

(** ** Rendering *)

Definition newLine : string := String (ascii_of_nat 10) EmptyString.
Definition noBranchSpace : string := "    ".
Definition branchSpace : string := "│   ".
Definition middleItem : string := "├─".
Definition lastItem : string := "└─".
Definition uncollapsedItem : string := "─ ".
Definition collapsedItem : string := "⊕ ".

Record renderParams := mkParams {
  node : Visited;
  spaces : list bool;
  childSpaces : list bool;
  showCollapsed : bool;
  isLast : bool
}.

Definition Collapsed (n : FileNode) : bool := ViewInfo.Collapsed (ViewInfo (Data n)).
Definition Hidden (n : FileNode) : bool := ViewInfo.Hidden (ViewInfo (Data n)).

(** Modelled from the spec: [FileNode.renderTreeLine] is not in tree.go.  A
    line is one indentation glyph per ancestor level (blank when that
    ancestor was the last of its siblings, a vertical bar otherwise), the
    branch glyph, the collapsed or expanded item glyph, the name of the node
    and a line break. *)
Definition renderTreeLine (n : Visited) (spaces : list bool) (last collapsed : bool) : string :=
  foldr (fun (space : bool) acc => (if space then noBranchSpace else branchSpace) +:+ acc) "" spaces
  +:+ (if last then lastItem else middleItem)
  +:+ (if collapsed then collapsedItem else uncollapsedItem)
  +:+ name_of n.1 +:+ newLine.

(** The inner loop of [renderStringTreeBetween] over the sorted keys of the
    current node; [idx] is the index of [name] among them. *)
Fixpoint childParams_loop (currentParams : renderParams) (idx : Z) (names : list string)
  : list renderParams :=
  match names with
  | [] => []
  | name :: rest =>
      match Children currentParams.(node).2 !! name with
      | None => childParams_loop currentParams (idx + 1) rest
      | Some child =>
          if Hidden child || Collapsed currentParams.(node).2
          then childParams_loop currentParams (idx + 1) rest
          else
            let isLast' := (idx =? Z.of_nat (size (Children currentParams.(node).2)) - 1)%Z in
            let showCollapsed' := Collapsed child && (0 <? size (Children child))%nat in
            let childSpaces' :=
              if (0 <? size (Children child))%nat && negb (Collapsed child)
              then currentParams.(childSpaces) ++ [isLast']
              else currentParams.(childSpaces) in
            mkParams (currentParams.(node).1 ++ [name], child)
                     currentParams.(childSpaces) childSpaces' showCollapsed' isLast'
            :: childParams_loop currentParams (idx + 1) rest
      end
  end.

Definition childParams_of (currentParams : renderParams) : list renderParams :=
  childParams_loop currentParams 0 (sorted_keys (Children currentParams.(node).2)).

(** Nodes still to be walked by the outer loop. *)
Definition weight (ps : list renderParams) : nat :=
  foldr (fun p acc => node_count p.(node).2 + acc)%nat 0%nat ps.

Definition children_count (m : gmap string FileNode) : nat :=
  map_fold (fun _ c acc => node_count c + acc)%nat 0%nat m.

Lemma node_count_eq n : node_count n = S (children_count (Children n)).
Proof. destruct n; reflexivity. Qed.

Lemma children_count_delete m k c :
  m !! k = Some c -> children_count m = (node_count c + children_count (delete k m))%nat.
Proof.
  intros H. unfold children_count.
  apply (map_fold_delete_L (fun _ c acc => node_count c + acc)%nat); [|done].
  intros; lia.
Qed.

Lemma node_count_child m k c : m !! k = Some c -> (node_count c <= children_count m)%nat.
Proof. intros H. rewrite (children_count_delete _ _ _ H). lia. Qed.

Lemma childParams_loop_weight cur idx names :
  NoDup names ->
  (weight (childParams_loop cur idx names) <= children_count (Children cur.(node).2))%nat.
Proof.
  assert (G : forall names idx (m : gmap string FileNode),
             NoDup names ->
             (forall k, k ∈ names -> Children cur.(node).2 !! k = m !! k) ->
             (weight (childParams_loop cur idx names) <= children_count m)%nat).
  { clear. induction names as [|k names IH]; intros idx m Hnd Hm; simpl; [lia|].
    apply NoDup_cons in Hnd as [Hk Hnd].
    assert (Hrest : forall m', (forall j, j ∈ names -> m !! j = m' !! j) ->
              (weight (childParams_loop cur (idx + 1) names) <= children_count m')%nat).
    { intros m' Hm'. apply IH; [done|]. intros j Hj.
      rewrite Hm by (right; done). auto. }
    destruct (Children (node cur).2 !! k) as [c|] eqn:E.
    - rewrite Hm in E by (left; done).
      rewrite (children_count_delete _ _ _ E).
      assert (weight (childParams_loop cur (idx + 1) names) <= children_count (delete k m))%nat.
      { apply Hrest. intros j Hj. rewrite lookup_delete_ne; [done|]. intros ->. done. }
      destruct (_ || _); simpl; lia.
    - apply Hrest. done. }
  intros Hnd. apply G; auto.
Qed.

Lemma sorted_keys_Permutation {A} (m : gmap string A) : sorted_keys m ≡ₚ keys m.
Proof. apply merge_sort_Permutation. Qed.

Lemma sorted_keys_NoDup {A} (m : gmap string A) : NoDup (sorted_keys m).
Proof. rewrite sorted_keys_Permutation. apply NoDup_fst_map_to_list. Qed.

Lemma childParams_of_weight cur :
  (weight (childParams_of cur) < node_count cur.(node).2)%nat.
Proof.
  rewrite node_count_eq. unfold childParams_of.
  pose proof (childParams_loop_weight cur 0 _ (sorted_keys_NoDup (Children cur.(node).2))).
  lia.
Qed.

Lemma weight_app a b : weight (a ++ b) = (weight a + weight b)%nat.
Proof. induction a; simpl; lia. Qed.

(** The outer loop of [renderStringTreeBetween].  The root is the node at
    the empty location; it takes no row. *)
Equations? render_loop (startRow stopRow : Z) (paramsToVisit : list renderParams)
    (currentRow : Z) (params : list renderParams) : list renderParams
    by wf (weight paramsToVisit) lt :=
  render_loop startRow stopRow [] currentRow params := params;
  render_loop startRow stopRow (currentParams :: rest) currentRow params :=
    if (currentRow <=? stopRow)%Z then
      if bool_decide (currentParams.(node).1 = [])
      then render_loop startRow stopRow (childParams_of currentParams ++ rest) currentRow params
      else render_loop startRow stopRow (childParams_of currentParams ++ rest) (currentRow + 1)
             (if (startRow <=? currentRow)%Z && (currentRow <=? stopRow)%Z
              then params ++ [currentParams] else params)
    else params.
Proof.
  all: rewrite weight_app; pose proof (childParams_of_weight currentParams); simpl; lia.
Qed.

Section Render.

(** Modelled from the spec: [FileNode.MetadataString] is not in tree.go;
    it renders the metadata of a node in a fixed format that is left
    open. *)
Variable MetadataString : Visited -> string.

Definition render_row (showAttributes : bool) (p : renderParams) : string :=
  (if showAttributes then MetadataString p.(node) +:+ " " else "")
  +:+ renderTreeLine p.(node) p.(spaces) p.(isLast) p.(showCollapsed).

Definition rows_between (tree : FileTree) (startRow stopRow : Z) : list renderParams :=
  render_loop startRow stopRow [mkParams ([], Root tree) [] [] false false] 0 [].

Definition renderStringTreeBetween (tree : FileTree) (startRow stopRow : Z)
    (showAttributes : bool) : string :=
  foldl (fun result p => result +:+ render_row showAttributes p) ""
        (rows_between tree startRow stopRow).

(** [FileTree.String]; the plain name is taken by the constructor of
    strings. *)
Definition FileTree_String (tree : FileTree) (showAttributes : bool) : string :=
  renderStringTreeBetween tree 0 (Size tree) showAttributes.

End Render.

(** ** Reasoning about locations *)

Lemma FileNode_children_ind (P : FileNode -> Prop) :
  (forall n, (forall k c, Children n !! k = Some c -> P c) -> P n) -> forall n, P n.
Proof.
  intros step n.
  remember (node_count n) as size eqn:Hsize.
  revert n Hsize. induction size as [size IH] using lt_wf_ind. intros n ->.
  apply step. intros k c Hc. apply (IH (node_count c)); [|done].
  rewrite (node_count_eq n). pose proof (node_count_child _ _ _ Hc). lia.
Qed.

Lemma node_at_app n l1 l2 :
  node_at n (l1 ++ l2) = n' ← node_at n l1; node_at n' l2.
Proof.
  revert n. induction l1 as [|k l1 IH]; intros n; simpl; [done|].
  destruct (Children n !! k); simpl; auto.
Qed.

Lemma child_of_node_at root loc name :
  child_of root loc name = node_at root (loc ++ [name]).
Proof.
  unfold child_of. rewrite node_at_app. destruct (node_at root loc) as [n|]; simpl; [|done].
  destruct (Children n !! name); done.
Qed.

Lemma node_at_prefix n l1 l2 : is_Some (node_at n (l1 ++ l2)) -> is_Some (node_at n l1).
Proof. rewrite node_at_app. destruct (node_at n l1); simpl; [eauto|intros [? ?]; done]. Qed.

Lemma split_last_snoc {A} (l : list A) x : split_last (l ++ [x]) = Some (l, x).
Proof. induction l as [|y l IH]; simpl; [done|]. by rewrite IH. Qed.

Lemma split_last_Some {A} (l i : list A) x : split_last l = Some (i, x) -> l = i ++ [x].
Proof.
  revert i. induction l as [|y l IH]; intros i; simpl; [done|].
  destruct (split_last l) as [[i' z]|] eqn:E.
  - intros [= <- <-]. by rewrite (IH i' eq_refl).
  - intros [= <- <-]. destruct l; [done|]. simpl in E. destruct (split_last l) as [[? ?]|]; done.
Qed.

Lemma split_last_None {A} (l : list A) : split_last l = None -> l = [].
Proof. destruct l as [|y l]; [done|]. simpl. destruct (split_last l) as [[? ?]|]; done. Qed.

Lemma name_of_snoc loc name : name_of (loc ++ [name]) = name.
Proof. unfold name_of. by rewrite split_last_snoc. Qed.

(** Altering the node at [loc], seen from a location below [loc]. *)
Lemma node_at_alter_at_below f loc rest root :
  node_at (alter_at f loc root) (loc ++ rest) = x ← node_at root loc; node_at (f x) rest.
Proof.
  revert root. induction loc as [|k loc IH]; intros root; simpl; [done|].
  rewrite lookup_alter_eq. destruct (Children root !! k) as [c|]; simpl; [apply IH|done].
Qed.

Lemma node_at_alter_at_eq f loc root :
  node_at (alter_at f loc root) loc = f <$> node_at root loc.
Proof.
  rewrite <- (app_nil_r loc) at 2. rewrite node_at_alter_at_below.
  destruct (node_at root loc); done.
Qed.

Lemma node_at_alter_at_above f target rest root :
  node_at (alter_at f (target ++ rest) root) target = alter_at f rest <$> node_at root target.
Proof.
  revert root. induction target as [|k target IH]; intros root; simpl; [done|].
  rewrite lookup_alter_eq. destruct (Children root !! k) as [c|]; simpl; [apply IH|done].
Qed.

Lemma node_at_alter_at_apart f loc target root :
  ¬ loc `prefix_of` target -> ¬ target `prefix_of` loc ->
  node_at (alter_at f loc root) target = node_at root target.
Proof.
  revert root target. induction loc as [|k loc IH]; intros root target H1 H2.
  { destruct H1. apply prefix_nil. }
  destruct target as [|k' target]; [destruct H2; apply prefix_nil|].
  simpl. destruct (decide (k = k')) as [<-|Hne].
  - rewrite lookup_alter_eq. destruct (Children root !! k) as [c|]; simpl; [|done].
    apply IH; intros Hp; [apply H1|apply H2]; by apply prefix_cons.
  - by rewrite lookup_alter_ne.
Qed.

(** The three ways a location can lie with respect to an altered one. *)
Lemma loc_cases (loc target : NodeRef) :
  (exists rest, target = loc ++ rest)
  \/ (exists rest, loc = target ++ rest)
  \/ (¬ loc `prefix_of` target /\ ¬ target `prefix_of` loc).
Proof.
  destruct (decide (loc `prefix_of` target)) as [[rest ->]|H1]; [left; eauto|].
  destruct (decide (target `prefix_of` loc)) as [[rest ->]|H2]; [right; left; eauto|].
  right; right; done.
Qed.

Definition has (root : FileNode) (loc : NodeRef) : Prop := is_Some (node_at root loc).

(** An alteration under which the altered node gains at most the locations
    in [Q] adds at most those to the tree. *)
Lemma has_alter_at_gain f (Q : NodeRef -> Prop) loc root target :
  (forall x rest, node_at root loc = Some x -> has (f x) rest -> has x rest \/ Q rest) ->
  has (alter_at f loc root) target ->
  has root target \/ exists rest, target = loc ++ rest /\ Q rest.
Proof.
  intros Hf. unfold has in *.
  destruct (loc_cases loc target) as [[rest ->]|[[rest ->]|[H1 H2]]].
  - rewrite node_at_alter_at_below. destruct (node_at root loc) as [x|] eqn:E; simpl; [|intros [? ?]; done].
    intros H. destruct (Hf x rest eq_refl H) as [H'|H']; [left|right; eauto].
    rewrite node_at_app, E. done.
  - rewrite node_at_alter_at_above. intros H. left.
    destruct (node_at root target); [eauto|destruct H; done].
  - rewrite node_at_alter_at_apart by done. auto.
Qed.

(** An alteration under which the altered node loses no location loses none
    of the tree. *)
Lemma has_alter_at_keep f loc root target :
  (forall x rest, node_at root loc = Some x -> has x rest -> has (f x) rest) ->
  has root target -> has (alter_at f loc root) target.
Proof.
  intros Hf. unfold has in *.
  destruct (loc_cases loc target) as [[rest ->]|[[rest ->]|[H1 H2]]].
  - rewrite node_at_alter_at_below, node_at_app.
    destruct (node_at root loc) as [x|] eqn:E; simpl; [|done]. by apply Hf.
  - rewrite node_at_alter_at_above. intros [x ->]. simpl. eauto.
  - rewrite node_at_alter_at_apart by done. auto.
Qed.

Lemma has_set_FileInfo d x rest : has (set_FileInfo d x) rest <-> has x rest.
Proof. unfold has. destruct rest; simpl; [split; eauto|done]. Qed.

Lemma has_set_DiffType d x rest : has (set_DiffType d x) rest <-> has x rest.
Proof. unfold has. destruct rest; simpl; [split; eauto|done]. Qed.

Lemma has_delete_child name x rest : has (set_children (delete name) x) rest -> has x rest.
Proof.
  unfold has. destruct rest as [|k rest]; simpl; [eauto|].
  destruct (decide (name = k)) as [->|Hne].
  - rewrite lookup_delete_eq. intros [? ?]; done.
  - by rewrite lookup_delete_ne.
Qed.

Lemma has_insert_child name d x rest :
  has (set_children (insert name (NewNode d)) x) rest -> has x rest \/ rest = [name].
Proof.
  unfold has. destruct rest as [|k rest]; simpl; [eauto|].
  destruct (decide (name = k)) as [->|Hne].
  - rewrite lookup_insert_eq. destruct rest as [|k' rest]; [auto|]. simpl.
    rewrite lookup_empty. intros [? ?]; done.
  - rewrite lookup_insert_ne by done. auto.
Qed.

Lemma has_insert_child_keep name c x rest :
  Children x !! name = None -> has x rest -> has (set_children (insert name c) x) rest.
Proof.
  unfold has. intros Hnone. destruct rest as [|k rest]; simpl; [eauto|].
  destruct (decide (name = k)) as [->|Hne].
  - rewrite Hnone. intros [? ?]; done.
  - by rewrite lookup_insert_ne.
Qed.

(** ** Reasoning about paths as strings *)

Module StrsFacts.
Import Strs.

Lemma Split_nonnil s : Split s <> [].
Proof.
  destruct s as [|c r]; simpl; [done|].
  destruct (Ascii.eqb c slash); [done|]. destruct (Split r); done.
Qed.

Lemma Split_slash_free s : slash_free s = true -> Split s = [s].
Proof.
  induction s as [|c r IH]; simpl; [done|].
  destruct (Ascii.eqb c slash); simpl; [done|]. intros H. by rewrite IH.
Qed.

Lemma Split_app_slash n t :
  slash_free n = true -> Split (n +:+ String slash t) = n :: Split t.
Proof.
  induction n as [|c r IH]; simpl.
  - done.
  - destruct (Ascii.eqb c slash); simpl; [done|]. intros H. by rewrite IH.
Qed.

Lemma Split_Join names :
  names <> [] -> forallb slash_free names = true -> Split (Join names) = names.
Proof.
  induction names as [|n rest IH]; [done|]. intros _ H.
  simpl in H. apply andb_prop in H as [Hn Hrest].
  destruct rest as [|m rest].
  - simpl. by apply Split_slash_free.
  - change (Join (n :: m :: rest)) with (n +:+ String slash (Join (m :: rest))).
    rewrite Split_app_slash by done. f_equal. by apply IH.
Qed.

Lemma filter_Split_TrimLeft s :
  List.filter nonempty (Split (TrimLeft s)) = List.filter nonempty (Split s).
Proof.
  induction s as [|c r IH]; simpl; [done|].
  destruct (Ascii.eqb c slash) eqn:E; simpl; [done|]. by rewrite E.
Qed.

Definition cons_head (c : ascii) (l : list string) : list string :=
  match l with
  | h :: t => String c h :: t
  | [] => [String c EmptyString]
  end.

Lemma Split_String c r :
  Split (String c r) = if Ascii.eqb c slash then EmptyString :: Split r else cons_head c (Split r).
Proof. reflexivity. Qed.

Lemma TrimRight_String c r :
  TrimRight (String c r) =
    match TrimRight r with
    | EmptyString => if Ascii.eqb c slash then EmptyString else String c EmptyString
    | r' => String c r'
    end.
Proof. reflexivity. Qed.

Lemma cons_head_app c l l' : l <> [] -> cons_head c (l ++ l') = cons_head c l ++ l'.
Proof. destruct l; done. Qed.

(** Trimming on the right only drops empty pieces at the end. *)
Lemma Split_TrimRight s :
  exists k, Split s = Split (TrimRight s) ++ replicate k EmptyString.
Proof.
  induction s as [|c r [k IH]]; [exists 0%nat; done|].
  rewrite TrimRight_String, Split_String.
  destruct (TrimRight r) as [|c' r'] eqn:E.
  - destruct (Ascii.eqb c slash) eqn:Ec.
    + exists (S k). rewrite IH. done.
    + exists k. rewrite IH. simpl. by rewrite Ec.
  - exists k. rewrite (Split_String c (String c' r')).
    destruct (Ascii.eqb c slash) eqn:Ec; rewrite IH; [done|].
    apply cons_head_app, Split_nonnil.
Qed.

Lemma filter_replicate_empty k : List.filter nonempty (replicate k EmptyString) = [].
Proof. induction k; simpl; auto. Qed.

Lemma filter_Split_TrimRight s :
  List.filter nonempty (Split (TrimRight s)) = List.filter nonempty (Split s).
Proof.
  destruct (Split_TrimRight s) as [k ->].
  by rewrite List.filter_app, filter_replicate_empty, app_nil_r.
Qed.

(** A trimmed string is empty or its last piece is not. *)
Lemma Split_TrimRight_last s :
  TrimRight s = EmptyString
  \/ exists init l, Split (TrimRight s) = init ++ [l] /\ nonempty l = true.
Proof.
  induction s as [|c r IH]; [left; done|].
  rewrite TrimRight_String.
  destruct (TrimRight r) as [|c' r'] eqn:E.
  - destruct (Ascii.eqb c slash) eqn:Ec; [left; done|right].
    exists [], (String c EmptyString). simpl. by rewrite Ec.
  - right. destruct IH as [IH|(init & l & IH & Hl)]; [done|].
    rewrite (Split_String c (String c' r')), IH.
    destruct (Ascii.eqb c slash).
    + exists (EmptyString :: init), l. done.
    + destruct init as [|h t]; simpl.
      * exists [], (String c l). done.
      * exists (String c h :: t), l. done.
Qed.

Lemma Split_Trim_last s :
  Split (Trim s) = [EmptyString]
  \/ exists init l, Split (Trim s) = init ++ [l] /\ nonempty l = true.
Proof.
  unfold Trim. destruct (Split_TrimRight_last (TrimLeft s)) as [->|H]; [left; done|right; done].
Qed.

Lemma segments_Split s : segments s = List.filter nonempty (Split s).
Proof. unfold segments, Trim. by rewrite filter_Split_TrimRight, filter_Split_TrimLeft. Qed.

Lemma strip_app p r : strip p (p +:+ r) = Some r.
Proof. induction p as [|a p IH]; simpl; [done|]. by rewrite Ascii.eqb_refl. Qed.

Lemma strip_Some p s r : strip p s = Some r -> s = p +:+ r.
Proof.
  revert s. induction p as [|a p IH]; intros s; simpl; [by intros [= ->]|].
  destruct s as [|b s]; [done|]. destruct (Ascii.eqb_spec a b) as [->|]; [|done].
  intros H. by rewrite (IH _ H).
Qed.

Lemma slash_free_app a b : slash_free (a +:+ b) = slash_free a && slash_free b.
Proof. induction a as [|c a IH]; simpl; [done|]. rewrite IH. by rewrite andb_assoc. Qed.

Lemma slash_free_TrimPrefix s p : slash_free s = true -> slash_free (TrimPrefix s p) = true.
Proof.
  unfold TrimPrefix. destruct (strip p s) as [r|] eqn:E; [|done].
  apply strip_Some in E as ->. rewrite slash_free_app. intros H.
  by apply andb_prop in H as [_ ?].
Qed.

Lemma TrimPrefix_app p r : TrimPrefix (p +:+ r) p = r.
Proof. unfold TrimPrefix. by rewrite strip_app. Qed.

Lemma TrimPrefix_no_prefix s p : HasPrefix s p = false -> TrimPrefix s p = s.
Proof. unfold HasPrefix, TrimPrefix. destruct (strip p s); done. Qed.

Lemma HasPrefix_app p r : HasPrefix (p +:+ r) p = true.
Proof. unfold HasPrefix. by rewrite strip_app. Qed.

Lemma filter_nonempty_id names :
  forallb nonempty names = true -> List.filter nonempty names = names.
Proof.
  induction names as [|n names IH]; simpl; [done|].
  intros H. apply andb_prop in H as [-> H]. by rewrite IH.
Qed.

Lemma forallb_valid_segment names :
  forallb valid_segment names = true ->
  forallb nonempty names = true /\ forallb slash_free names = true.
Proof.
  induction names as [|n names IH]; simpl; [done|].
  intros H. apply andb_prop in H as [Hn H]. apply andb_prop in Hn as [-> ->].
  destruct (IH H) as [-> ->]. done.
Qed.

(** The names walked by a path that was joined from slash-free names. *)
Lemma segments_Join names :
  forallb slash_free names = true ->
  segments (String slash (Join names)) = List.filter nonempty names.
Proof.
  intros H. rewrite segments_Split, Split_String. simpl.
  destruct names as [|n names]; [done|]. by rewrite Split_Join.
Qed.

End StrsFacts.

(** ** The path operations, in terms of locations *)

Section PathFacts.

Variable valid_name : string -> bool.
Import Strs StrsFacts.

Lemma segments_nonempty path : forallb nonempty (segments path) = true.
Proof.
  unfold segments. induction (Split (Trim path)) as [|n l IH]; simpl; [done|].
  destruct (nonempty n) eqn:E; simpl; [by rewrite E|done].
Qed.

Lemma segments_Path_root : segments (Path []) = [].
Proof. reflexivity. Qed.

Lemma segments_Path_plain loc :
  forallb valid_segment loc = true -> IsWhiteout loc = false -> segments (Path loc) = loc.
Proof.
  intros Hv Hw. destruct (forallb_valid_segment _ Hv) as [Hne Hsf].
  unfold Path, IsWhiteout, name_of in *.
  destruct (split_last loc) as [[dirs name]|] eqn:E.
  - apply split_last_Some in E as ->.
    rewrite (TrimPrefix_no_prefix _ _ Hw).
    rewrite segments_Join by done. by apply filter_nonempty_id.
  - by apply split_last_None in E as ->.
Qed.

Lemma segments_Path_whiteout dirs shadowed :
  forallb valid_segment (dirs ++ [shadowed]) = true ->
  segments (Path (dirs ++ [whiteoutPrefix +:+ shadowed])) = dirs ++ [shadowed].
Proof.
  intros Hv. destruct (forallb_valid_segment _ Hv) as [Hne Hsf].
  unfold Path. rewrite split_last_snoc, TrimPrefix_app.
  rewrite segments_Join by done. by apply filter_nonempty_id.
Qed.

Lemma GetNode_loop_filter root path names node :
  GetNode_loop root path names node
  = GetNode_loop root path (List.filter nonempty names) node.
Proof.
  revert node. induction names as [|n names IH]; intros node; simpl; [done|].
  unfold nonempty at 1. destruct (String.eqb n "") eqn:E; simpl; [apply IH|].
  rewrite E. destruct (child_of root node n); [apply IH|done].
Qed.

Lemma nonempty_eqb n : nonempty n = true -> String.eqb n "" = false.
Proof. unfold nonempty. by destruct (String.eqb n ""). Qed.

Lemma GetNode_loop_walk root path names node :
  forallb nonempty names = true -> has root node ->
  GetNode_loop root path names node
  = match node_at root (node ++ names) with
    | Some _ => (Some (node ++ names), None)
    | None => (None, Some (PathNotFound path))
    end.
Proof.
  revert node. induction names as [|n names IH]; intros node; simpl.
  - intros _ [x Hx]. rewrite app_nil_r, Hx. done.
  - intros H Hnode. apply andb_prop in H as [Hn H].
    rewrite (nonempty_eqb _ Hn), child_of_node_at.
    replace (node ++ n :: names) with ((node ++ [n]) ++ names) by (by rewrite <- app_assoc).
    destruct (node_at root (node ++ [n])) as [c|] eqn:E.
    + apply IH; [done|]. unfold has. rewrite E. eauto.
    + rewrite node_at_app, E. done.
Qed.

(** [GetNode] succeeds exactly when the names of the path lead to a
    node, and then returns that node. *)
Lemma GetNode_spec tree path :
  GetNode tree path
  = match node_at (Root tree) (segments path) with
    | Some _ => (Some (segments path), None)
    | None => (None, Some (PathNotFound path))
    end.
Proof.
  unfold GetNode. rewrite GetNode_loop_filter.
  rewrite GetNode_loop_walk; [done|apply segments_nonempty|]. unfold has. simpl. eauto.
Qed.

Lemma RemovePath_spec tree path :
  RemovePath tree path
  = match node_at (Root tree) (segments path) with
    | Some _ => Remove tree (segments path)
    | None => (tree, Some (PathNotFound path))
    end.
Proof. unfold RemovePath. rewrite GetNode_spec. by destruct (node_at _ _). Qed.

Lemma Remove_shrinks tree loc tree' err target :
  Remove tree loc = (tree', err) -> has (Root tree') target -> has (Root tree) target.
Proof.
  unfold Remove. destruct (split_last loc) as [[parent name]|]; intros [= <- <-]; [|done].
  simpl. intros H.
  apply (has_alter_at_gain _ (fun _ => False)) in H as [H|(? & _ & [])]; [done|].
  intros x rest _ Hx. left. by eapply has_delete_child.
Qed.

Lemma Remove_gone tree loc tree' rest :
  Remove tree loc = (tree', None) -> ¬ has (Root tree') (loc ++ rest).
Proof.
  unfold Remove. destruct (split_last loc) as [[parent name]|] eqn:E; intros [= <-]; simpl.
  apply split_last_Some in E as ->. rewrite <- app_assoc. unfold has.
  rewrite node_at_alter_at_below. destruct (node_at (Root tree) parent) as [x|]; simpl.
  - rewrite lookup_delete_eq. intros [? ?]; done.
  - intros [? ?]; done.
Qed.

Lemma RemovePath_shrinks tree path tree' err target :
  RemovePath tree path = (tree', err) -> has (Root tree') target -> has (Root tree) target.
Proof.
  rewrite RemovePath_spec. destruct (node_at _ _).
  - apply Remove_shrinks.
  - by intros [= <- <-].
Qed.

Lemma RemovePath_gone tree path tree' rest :
  RemovePath tree path = (tree', None) -> ¬ has (Root tree') (segments path ++ rest).
Proof.
  rewrite RemovePath_spec. destruct (node_at _ _); [apply Remove_gone|done].
Qed.

Lemma RemovePath_error_unchanged tree path tree' e :
  RemovePath tree path = (tree', Some e) -> tree' = tree.
Proof.
  rewrite RemovePath_spec. destruct (node_at _ _); [|by intros [= <- _]].
  unfold Remove. destruct (split_last _) as [[? ?]|]; [done|by intros [= <- _]].
Qed.

(** The body of the loop of [AddPath] for one name that is not empty:
    find or create the child, then attach the payload if the name is the
    last piece. *)
Definition AddPath_step (name : string) (last : bool) (data : FileInfo.t)
    (node : NodeRef) (tree : FileTree) : FileTree * option NodeRef :=
  let attach (node' : NodeRef) (tree' : FileTree) :=
    if last then with_root (alter_at (set_FileInfo data) node') tree' else tree' in
  match child_of (Root tree) node name with
  | Some _ => (attach (node ++ [name]) tree, Some (node ++ [name]))
  | None =>
      match AddChild valid_name tree node name FileInfo.zero with
      | (tree', None) => (tree', None)
      | (tree', Some node') => (attach node' tree', Some node')
      end
  end.

Lemma AddPath_loop_cons name rest idx len data node tree :
  nonempty name = true ->
  AddPath_loop valid_name (name :: rest) idx len data node tree
  = match AddPath_step name (idx =? len - 1)%Z data node tree with
    | (tree', None) => (tree', (None, Some (NodeCreationFailed name)))
    | (tree', Some node') => AddPath_loop valid_name rest (idx + 1) len data node' tree'
    end.
Proof.
  intros Hn. simpl. rewrite (nonempty_eqb _ Hn). unfold AddPath_step.
  destruct (child_of (Root tree) node name); [done|].
  destruct (AddChild valid_name tree node name FileInfo.zero) as [tree' [node'|]]; done.
Qed.

Lemma has_attach data node' tree target :
  has (alter_at (set_FileInfo data) node' (Root tree)) target <-> has (Root tree) target.
Proof.
  split; intros H.
  - apply (has_alter_at_gain _ (fun _ => False)) in H as [H|(? & _ & [])]; [done|].
    intros x rest _ Hx. left. by apply has_set_FileInfo in Hx.
  - apply has_alter_at_keep; [|done]. intros x rest _ Hx. by apply has_set_FileInfo.
Qed.

Definition payload_at (root : FileNode) (loc : NodeRef) : option FileInfo.t :=
  n ← node_at root loc; Some (FileInfo (Data n)).

Section Step.
Context (name : string) (last : bool) (data : FileInfo.t) (node : NodeRef)
        (tree tree' : FileTree) (r : option NodeRef).
Hypothesis cursor : has (Root tree) node.
Hypothesis run : AddPath_step name last data node tree = (tree', r).

Lemma AddPath_step_cases :
  (r = None /\ tree' = tree /\ valid_name name = false
   /\ node_at (Root tree) (node ++ [name]) = None)
  \/ (r = Some (node ++ [name])
      /\ exists mid,
           (forall target, has (Root mid) target
                           <-> has (Root tree) target \/ target = node ++ [name])
           /\ tree' = (if last then with_root (alter_at (set_FileInfo data) (node ++ [name])) mid
                       else mid)).
Proof.
  unfold AddPath_step in run. rewrite child_of_node_at in run.
  destruct (node_at (Root tree) (node ++ [name])) as [c|] eqn:E.
  - injection run as <- <-. right. split; [done|]. exists tree. split; [|done].
    intros target. split; [auto|]. intros [H| ->]; [done|]. unfold has. rewrite E. eauto.
  - unfold AddChild in run. destruct (valid_name name) eqn:V.
    + injection run as <- <-. right. split; [done|]. eexists. split; [|reflexivity].
      simpl. intros target. split.
      * intros H. apply (has_alter_at_gain _ (fun rest => rest = [name])) in H.
        { destruct H as [H|(rest & -> & ->)]; auto. }
        intros x rest _ Hx. by apply has_insert_child in Hx.
      * destruct cursor as [x Hx]. intros [H| ->].
        { apply has_alter_at_keep; [|done]. intros y rest Hy Hr.
          apply has_insert_child_keep; [|done].
          rewrite node_at_app, Hy in E. simpl in E.
          destruct (Children y !! name); done. }
        unfold has. rewrite node_at_alter_at_below, Hx. simpl.
        rewrite lookup_insert_eq. eauto.
    + injection run as <- <-. left. done.
Qed.

Lemma AddPath_step_keep target : has (Root tree) target -> has (Root tree') target.
Proof.
  destruct AddPath_step_cases as [(_ & -> & _)|(_ & mid & Hmid & ->)]; [done|].
  intros H. assert (has (Root mid) target) by (apply Hmid; auto).
  destruct last; [|done]. by apply has_attach.
Qed.

Lemma AddPath_step_gain target :
  has (Root tree') target -> has (Root tree) target \/ target = node ++ [name].
Proof.
  destruct AddPath_step_cases as [(_ & -> & _)|(_ & mid & Hmid & ->)]; [auto|].
  intros H. apply Hmid. destruct last; [|done]. by apply has_attach in H.
Qed.

Lemma AddPath_step_cursor node' :
  r = Some node' ->
  node' = node ++ [name] /\ has (Root tree') node'
  /\ (last = true -> payload_at (Root tree') node' = Some data).
Proof.
  destruct AddPath_step_cases as [(-> & _)|(-> & mid & Hmid & ->)]; [done|].
  intros [= <-]. split; [done|].
  assert (Hm : has (Root mid) (node ++ [name])) by (apply Hmid; auto).
  destruct last; simpl.
  - split; [by apply has_attach|]. intros _. unfold payload_at.
    rewrite node_at_alter_at_eq. destruct Hm as [x ->]. done.
  - split; [done|]. done.
Qed.

Lemma AddPath_step_refused :
  r = None -> tree' = tree /\ valid_name name = false.
Proof.
  destruct AddPath_step_cases as [(_ & -> & -> & _)|(-> & _)]; done.
Qed.

Lemma AddPath_step_valid : valid_name name = true -> is_Some r.
Proof.
  destruct AddPath_step_cases as [(_ & _ & -> & _)|(-> & _)]; [done|eauto].
Qed.
End Step.

(** What the trimmed and split path looks like: nothing but empty pieces,
    or a last piece that is not empty. *)
Definition ends_well (names : list string) : Prop :=
  List.filter nonempty names = []
  \/ exists init l, names = init ++ [l] /\ nonempty l = true.

Lemma ends_well_tail n names : ends_well (n :: names) -> names = [] \/ ends_well names.
Proof.
  intros [H|(init & l & H & Hl)].
  - right. left. simpl in H. destruct (nonempty n); [done|done].
  - destruct init as [|i init]; simplify_eq/=; [by left|].
    right. right. eauto.
Qed.

Lemma ends_well_filter_nil n names :
  nonempty n = true -> ends_well (n :: names) -> List.filter nonempty names = [] -> names = [].
Proof.
  intros Hn [H|(init & l & H & Hl)] Hf.
  - simpl in H. by rewrite Hn in H.
  - destruct init as [|i init]; simplify_eq/=; [done|].
    rewrite List.filter_app in Hf. simpl in Hf. rewrite Hl in Hf.
    by destruct (List.filter nonempty init).
Qed.

(** The loop of [AddPath] sees only the names that are not empty; the
    payload goes to the last of them. *)
Lemma AddPath_loop_filter names data : forall idx len idx' node tree,
  ends_well names -> len = (idx + Z.of_nat (length names))%Z ->
  AddPath_loop valid_name names idx len data node tree
  = AddPath_loop valid_name (List.filter nonempty names) idx'
      (idx' + Z.of_nat (length (List.filter nonempty names)))%Z data node tree.
Proof.
  induction names as [|n names IH]; intros idx len idx' node tree Hw Hlen; [done|].
  destruct (nonempty n) eqn:Hn.
  - simpl List.filter. rewrite Hn. rewrite !AddPath_loop_cons by done.
    assert (Htest : (idx =? len - 1)%Z
                    = (idx' =? idx' + Z.of_nat (length (n :: List.filter nonempty names)) - 1)%Z).
    { destruct names as [|m names].
      - simpl. subst len. simpl. rewrite !(proj2 (Z.eqb_eq _ _)) by lia. done.
      - assert (List.filter nonempty (m :: names) <> []) as Hne.
        { intros Hf. by apply (ends_well_filter_nil n) in Hf. }
        destruct (List.filter nonempty (m :: names)) as [|x l] eqn:E; [done|].
        subst len. simpl length.
        rewrite !(proj2 (Z.eqb_neq _ _)) by lia. done. }
    rewrite <- Htest.
    destruct (AddPath_step n (idx =? len - 1)%Z data node tree) as [tree' [node'|]]; [|done].
    destruct (ends_well_tail _ _ Hw) as [->|Hw']; [done|].
    rewrite (IH (idx + 1)%Z len (idx' + 1)%Z) by (done || (subst len; simpl length; lia)).
    f_equal. simpl length. lia.
  - simpl List.filter. rewrite Hn. simpl.
    unfold nonempty in Hn. destruct (String.eqb n "") eqn:E; [|done].
    destruct (ends_well_tail _ _ Hw) as [->|Hw']; [done|].
    apply IH; [done|]. subst len. simpl length. lia.
Qed.

Lemma Split_Trim_ends_well path : ends_well (Split (Trim path)).
Proof.
  destruct (Split_Trim_last path) as [->|H]; [by left|by right].
Qed.

Lemma AddPath_segments tree path data :
  AddPath valid_name tree path data
  = AddPath_loop valid_name (segments path) 0 (Z.of_nat (length (segments path))) data [] tree.
Proof.
  unfold AddPath. rewrite (AddPath_loop_filter _ _ 0 _ 0); [done| |lia].
  apply Split_Trim_ends_well.
Qed.

(** The loop of [AddPath] over names none of which is empty. *)
Lemma AddPath_loop_facts names data : forall idx len node tree tree' r err,
  forallb nonempty names = true -> len = (idx + Z.of_nat (length names))%Z ->
  has (Root tree) node ->
  AddPath_loop valid_name names idx len data node tree = (tree', (r, err)) ->
  (forall target, has (Root tree) target -> has (Root tree') target)
  /\ (forall target, has (Root tree') target ->
        has (Root tree) target
        \/ exists p, p <> [] /\ p `prefix_of` names /\ target = node ++ p)
  /\ (err = None ->
        r = Some (node ++ names) /\ has (Root tree') (node ++ names)
        /\ (names <> [] -> payload_at (Root tree') (node ++ names) = Some data))
  /\ (forall e, err = Some e ->
        r = None /\ exists name, name ∈ names /\ valid_name name = false
                                 /\ e = NodeCreationFailed name)
  /\ (forallb valid_name names = true -> err = None).
Proof.
  induction names as [|n names IH]; intros idx len node tree tree' r err Hne Hlen Hnode Hrun.
  - simpl in Hrun. injection Hrun as <- <- <-. rewrite app_nil_r.
    split; [done|]. split; [auto|]. split; [done|]. split; done.
  - simpl in Hne. apply andb_prop in Hne as [Hn Hne].
    rewrite AddPath_loop_cons in Hrun by done.
    destruct (AddPath_step n (idx =? len - 1)%Z data node tree) as [mid [node'|]] eqn:Hstep.
    + destruct (AddPath_step_cursor _ _ _ _ _ _ _ Hnode Hstep node' eq_refl) as (-> & Hcur & Hpay).
      pose proof (AddPath_step_keep _ _ _ _ _ _ _ Hnode Hstep) as Hkeep1.
      pose proof (AddPath_step_gain _ _ _ _ _ _ _ Hnode Hstep) as Hgain1.
      specialize (IH (idx + 1)%Z len (node ++ [n]) mid tree' r err Hne).
      destruct IH as (Hkeep & Hgain & Hok & Herr & Hval); [subst len; simpl length; lia|done|done|].
      split; [auto|]. split.
      { intros target Ht. destruct (Hgain target Ht) as [H|(p & Hp & Hpre & ->)].
        - destruct (Hgain1 target H) as [H'| ->]; [auto|]. right.
          exists [n]. split; [done|]. split; [|done]. by exists names.
        - right. exists (n :: p). split; [done|]. split; [by apply prefix_cons|].
          by rewrite <- app_assoc. }
      split.
      { intros He. destruct (Hok He) as (-> & Hhas & Hp). rewrite <- !app_assoc in *. simpl in *.
        split; [done|]. split; [done|]. intros _.
        destruct names as [|m names]; [|apply Hp; done].
        simpl in Hrun. injection Hrun as <- _.
        apply Hpay. subst len. simpl length. apply Z.eqb_eq. lia. }
      split.
      { intros e He. destruct (Herr e He) as (-> & name & Hin & Hv & ->).
        split; [done|]. exists name. split; [by right|done]. }
      intros Hv. simpl in Hv. apply andb_prop in Hv as [_ Hv]. auto.
    + injection Hrun as <- <- <-.
      destruct (AddPath_step_refused _ _ _ _ _ _ _ Hnode Hstep eq_refl) as (-> & Hv).
      split; [done|]. split; [auto|]. split; [done|]. split.
      { intros e [= <-]. split; [done|]. exists n. split; [by left|done]. }
      intros Hv'. simpl in Hv'. by rewrite Hv in Hv'.
Qed.

Lemma AddPath_facts tree path data tree' r err :
  AddPath valid_name tree path data = (tree', (r, err)) ->
  (forall target, has (Root tree) target -> has (Root tree') target)
  /\ (forall target, has (Root tree') target ->
        has (Root tree) target
        \/ (target <> [] /\ target `prefix_of` segments path))
  /\ (err = None ->
        r = Some (segments path) /\ has (Root tree') (segments path)
        /\ (segments path <> [] -> payload_at (Root tree') (segments path) = Some data))
  /\ (forall e, err = Some e ->
        r = None /\ exists name, name ∈ segments path /\ valid_name name = false
                                 /\ e = NodeCreationFailed name)
  /\ (forallb valid_name (segments path) = true -> err = None).
Proof.
  rewrite AddPath_segments. intros Hrun.
  apply AddPath_loop_facts in Hrun; [|apply segments_nonempty|lia|by eexists].
  destruct Hrun as (Hkeep & Hgain & Hok & Herr & Hval).
  split; [done|]. split; [|done].
  intros target Ht. destruct (Hgain target Ht) as [?|(p & ? & ? & ->)]; auto.
Qed.

End PathFacts.

(** ** Traversals as lists of visits *)

Section Traversal.

Variable child_order : gmap string FileNode -> list string.

(** The nodes of a subtree in the order [VisitDepthChildFirst] hands them
    to the visitor. *)
Fixpoint postorder (node : FileNode) : NodeRef -> list Visited :=
  fun loc =>
    let below := postorder <$> Children node in
    flat_map (fun name => match below !! name with
                          | Some visit => visit (loc ++ [name])
                          | None => []
                          end)
             (child_order (Children node))
    ++ [(loc, node)].

(** The visitor run over a list of nodes, up to its first error. *)
Fixpoint run_visits (visitor : Visitor) (l : list Visited) : M (option error) :=
  match l with
  | [] => ret None
  | v :: rest =>
      let* err := visitor v in
      match err with
      | Some e => ret (Some e)
      | None => run_visits visitor rest
      end
  end.

Lemma postorder_unfold node loc :
  postorder node loc
  = flat_map (fun name => match Children node !! name with
                          | Some c => postorder c (loc ++ [name])
                          | None => []
                          end)
             (child_order (Children node))
    ++ [(loc, node)].
Proof.
  destruct node as [d ch]. simpl. f_equal. apply flat_map_ext. intros name.
  rewrite lookup_fmap. by destruct (ch !! name).
Qed.

Lemma visit_each_ext f g names tree :
  (forall name t, f name t = g name t) ->
  visit_each f names tree = visit_each g names tree.
Proof.
  intros Hfg. revert tree. induction names as [|n names IH]; intros tree; simpl; [done|].
  unfold bind. rewrite Hfg. destruct (g n tree) as [[e|] t|]; auto.
Qed.

Lemma VisitDepthChildFirst_node_unfold node loc visitor tree :
  VisitDepthChildFirst_node child_order node loc visitor None tree
  = (let* err := visit_each
                   (fun name => match Children node !! name with
                                | Some c => VisitDepthChildFirst_node child_order c
                                              (loc ++ [name]) visitor None
                                | None => ret None
                                end)
                   (child_order (Children node)) in
     match err with
     | Some e => ret (Some e)
     | None => visitor (loc, node)
     end) tree.
Proof.
  destruct node as [d ch]. simpl. unfold bind. erewrite visit_each_ext; [reflexivity|].
  intros name t. simpl. rewrite lookup_fmap. by destruct (ch !! name).
Qed.

Lemma run_visits_app visitor l1 l2 tree :
  run_visits visitor (l1 ++ l2) tree
  = match run_visits visitor l1 tree with
    | Done None tree1 => run_visits visitor l2 tree1
    | r => r
    end.
Proof.
  revert tree. induction l1 as [|v l1 IH]; intros tree; simpl; [done|].
  unfold bind. destruct (visitor v tree) as [[e|] t|]; simpl; auto.
Qed.

(** The traversal runs the visitor over the post-order list of the
    nodes and stops at the first error. *)
Lemma VisitDepthChildFirst_node_run visitor : forall node loc tree,
  VisitDepthChildFirst_node child_order node loc visitor None tree
  = run_visits visitor (postorder node loc) tree.
Proof.
  intros node; pattern node; apply FileNode_children_ind; clear node; intros node IH. intros loc tree.
  rewrite VisitDepthChildFirst_node_unfold, postorder_unfold, run_visits_app.
  unfold bind.
  assert (G : forall names t,
    visit_each (fun name => match Children node !! name with
                            | Some c => VisitDepthChildFirst_node child_order c
                                          (loc ++ [name]) visitor None
                            | None => ret None
                            end) names t
    = run_visits visitor
        (flat_map (fun name => match Children node !! name with
                               | Some c => postorder c (loc ++ [name])
                               | None => []
                               end) names) t).
  { induction names as [|n names IHn]; intros t; simpl; [done|].
    rewrite run_visits_app. unfold bind.
    destruct (Children node !! n) as [c|] eqn:E.
    - rewrite (IH _ _ E). destruct (run_visits visitor _ t) as [[e|] t'|]; auto.
    - simpl. apply IHn. }
  rewrite G. destruct (run_visits visitor _ tree) as [[e|] t'|]; simpl; [done| |done].
  unfold bind. by destruct (visitor (loc, node) t') as [[e|] t''|].
Qed.

(** Every visited node is a node of the tree, at the location it is
    visited under. *)
Lemma postorder_sound : forall node loc v,
  v ∈ postorder node loc -> exists rest, v.1 = loc ++ rest /\ node_at node rest = Some v.2.
Proof.
  intros node; pattern node; apply FileNode_children_ind; clear node; intros node IH. intros loc v.
  rewrite postorder_unfold, elem_of_app. intros [H|H].
  - apply list_elem_of_In, in_flat_map in H as (name & _ & H). apply list_elem_of_In in H.
    destruct (Children node !! name) as [c|] eqn:E; [|by apply elem_of_nil in H].
    destruct (IH _ _ E _ _ H) as (rest & Hv & Hrest).
    exists (name :: rest). rewrite Hv, <- app_assoc. split; [done|]. simpl. by rewrite E.
  - apply list_elem_of_singleton in H as ->. exists []. by rewrite app_nil_r.
Qed.

Hypothesis child_order_keys : forall m, child_order m ≡ₚ keys m.

Lemma child_order_complete (m : gmap string FileNode) k c :
  m !! k = Some c -> k ∈ child_order m.
Proof.
  intros H. rewrite child_order_keys. unfold keys.
  apply list_elem_of_fmap. exists (k, c). split; [done|]. by apply elem_of_map_to_list.
Qed.

(** Every node of the tree is visited. *)
Lemma postorder_complete : forall rest node loc x,
  node_at node rest = Some x -> (loc ++ rest, x) ∈ postorder node loc.
Proof.
  induction rest as [|k rest IH]; intros node loc x; rewrite postorder_unfold, elem_of_app.
  - simpl. intros [= ->]. right. rewrite app_nil_r. by apply list_elem_of_singleton.
  - simpl. destruct (Children node !! k) as [c|] eqn:E; [|done]. intros H. left.
    apply list_elem_of_In, in_flat_map. exists k. split.
    + apply list_elem_of_In. by eapply child_order_complete.
    + rewrite E. apply list_elem_of_In.
      replace (loc ++ k :: rest) with ((loc ++ [k]) ++ rest) by (by rewrite <- app_assoc).
      by apply IH.
Qed.

End Traversal.

(** ** Stacking and comparing, as runs over the visited nodes *)

Section LayerFacts.

Variable valid_name : string -> bool.
Variable child_order : gmap string FileNode -> list string.

Lemma Stack_run upper tree :
  Stack valid_name child_order upper tree
  = run_visits (Stack_graft valid_name) (postorder child_order (Root upper) []) tree.
Proof. apply VisitDepthChildFirst_node_run. Qed.

Lemma Compare_run upper tree :
  Compare valid_name child_order upper tree
  = run_visits (Compare_graft valid_name) (postorder child_order (Root upper) []) tree.
Proof. apply VisitDepthChildFirst_node_run. Qed.

Lemma run_visits_stops visitor before node after tree reached r :
  run_visits visitor before tree = Done None reached ->
  visitor node reached = r ->
  (forall tree', r <> Done None tree') ->
  run_visits visitor (before ++ node :: after) tree = r.
Proof.
  intros Hbefore Hnode Hr. rewrite run_visits_app, Hbefore. simpl. unfold bind.
  rewrite Hnode. destruct r as [[e|] t|]; [done| |done]. by destruct (Hr t).
Qed.

Lemma run_visits_split visitor before after tree result :
  run_visits visitor (before ++ after) tree = Done None result ->
  exists reached, run_visits visitor before tree = Done None reached
                  /\ run_visits visitor after reached = Done None result.
Proof.
  rewrite run_visits_app. destruct (run_visits visitor before tree) as [[e|] t|]; [done| |done].
  eauto.
Qed.

(** An invariant of the receiver that every successful visit keeps holds
    after a successful run. *)
Lemma run_visits_invariant visitor (I : FileTree -> Prop) l : forall tree result,
  (forall v t t', v ∈ l -> visitor v t = Done None t' -> I t -> I t') ->
  run_visits visitor l tree = Done None result -> I tree -> I result.
Proof.
  induction l as [|v l IH]; intros tree result Hstep; simpl.
  - by intros [= <-].
  - unfold bind. destruct (visitor v tree) as [[e|] t|] eqn:E; [done| |done].
    intros Hrun Htree. eapply IH; [|done|].
    + intros v' t1 t2 Hin. apply Hstep. by right.
    + eapply Hstep; [by left|done|done].
Qed.

Lemma run_visits_total visitor l :
  (forall v t, v ∈ l -> exists err t', visitor v t = Done err t') ->
  forall tree, exists err tree', run_visits visitor l tree = Done err tree'.
Proof.
  induction l as [|v l IH]; intros Hv tree; simpl; [by eexists _, _|].
  unfold bind. destruct (Hv v tree) as ([e|] & t & ->); [by left| |].
  - by eexists _, _.
  - apply IH. intros v' t' Hin. apply Hv. by right.
Qed.

End LayerFacts.

(** The names of every node of a subtree satisfy [P]. *)
Fixpoint all_names (P : string -> bool) (n : FileNode) : bool :=
  map_fold (fun k c acc => P k && all_names P c && acc) true (Children n).

Lemma all_names_child P n k c :
  all_names P n = true -> Children n !! k = Some c -> P k = true /\ all_names P c = true.
Proof.
  destruct n as [d ch]. simpl. intros H Hk.
  rewrite (map_fold_delete_L _ _ k c ch) in H; [|intros j1 j2 z1 z2 y _ _ _|done].
  2: { by destruct (P j1), (all_names P z1), (P j2), (all_names P z2), y. }
  apply andb_prop in H as [H _]. by apply andb_prop in H.
Qed.

Lemma all_names_at P : forall loc n x,
  all_names P n = true -> node_at n loc = Some x -> forallb P loc = true.
Proof.
  induction loc as [|k loc IH]; intros n x Hn; simpl; [done|].
  destruct (Children n !! k) as [c|] eqn:E; [|done].
  destruct (all_names_child _ _ _ _ Hn E) as [-> Hc]. simpl. by apply IH.
Qed.

Definition any_name : string -> bool := fun _ => true.
Definition fi (size : Z) : FileInfo.t := FileInfo.mk "" size 0 false 0.

(** An [AddChild] that refuses the names carrying the opaque-directory
    prefix. *)
Definition refuse_opaque (name : string) : bool :=
  negb (Strs.HasPrefix name doubleWhiteoutPrefix).

Lemma sorted_keys_keys (m : gmap string FileNode) : sorted_keys m ≡ₚ keys m.
Proof. apply sorted_keys_Permutation. Qed.

Definition leaf (data : FileInfo.t) : FileNode := NewNode data.

Definition dir (children : list (string * FileNode)) : FileNode :=
  mkNode (mkData FileInfo.zero DiffType.Unset ViewInfo.zero) (list_to_map children).

Definition tree_of (root : FileNode) : FileTree :=
  mkTree root (Z.of_nat (node_count root) - 1) (node_bytes root) "".

(** ** The panic in the error branch of [Stack] *)

(** A layer holding [x] under a directory whose name [refuse_opaque]
    refuses. *)
Definition upper_refused : FileTree :=
  tree_of (dir [(".wh..wh..d", dir [("x", leaf (fi 1))])]).

(** C10: in [Stack], when the visitor reaches an upper node that is not a
    whiteout and [AddPath] into the lower tree returns an error, the node it
    returns is nil, the error branch calls [Path] on it, and [Stack] panics
    instead of returning the error. *)
Theorem Stack_add_error_panics valid_name child_order lower upper before node after
    reached tree' newNode e :
  postorder child_order (Root upper) [] = before ++ node :: after ->
  run_visits (Stack_graft valid_name) before lower = Done None reached ->
  IsWhiteout node.1 = false ->
  AddPath valid_name reached (Path node.1) (FileInfo (Data node.2)) = (tree', (newNode, Some e)) ->
  newNode = None /\ Stack valid_name child_order upper lower = Panic.
Proof.
  intros Horder Hbefore Hplain Hadd.
  destruct (AddPath_facts _ _ _ _ _ _ _ Hadd) as (_ & _ & _ & Herr & _).
  destruct (Herr e eq_refl) as [-> _]. split; [done|].
  rewrite Stack_run, Horder.
  eapply run_visits_stops; [done| |done].
  unfold Stack_graft. by rewrite Hplain, Hadd.
Qed.

Lemma Stack_add_error_panics_witness :
  Stack refuse_opaque sorted_keys upper_refused NewFileTree = Panic.
Proof.
  refine (proj2 (Stack_add_error_panics refuse_opaque sorted_keys NewFileTree upper_refused
            [] ([".wh..wh..d"; "x"], leaf (fi 1))
            [([".wh..wh..d"], dir [("x", leaf (fi 1))]); ([], Root upper_refused)]
            NewFileTree NewFileTree None (NodeCreationFailed ".wh..wh..d") _ _ _ _));
    vm_compute; reflexivity.
Defined.

(** ** Errors: fail fast within a layer, best effort across layers *)

(** Names under which [Stack] can add every node of a layer: they are the
    names of a path and [AddChild] accepts them. *)
Definition addable (valid_name : string -> bool) (name : string) : bool :=
  Strs.valid_segment name && valid_name name.

Lemma forallb_addable valid_name loc :
  forallb (addable valid_name) loc = true ->
  forallb Strs.valid_segment loc = true /\ forallb valid_name loc = true.
Proof.
  induction loc as [|k loc IH]; simpl; [done|]. unfold addable at 1.
  intros H. apply andb_prop in H as [Hk H]. apply andb_prop in Hk as [-> ->].
  destruct (IH H) as [-> ->]. done.
Qed.




Lemma index_in_range trees idx :
  (0 <= idx < Z.of_nat (length trees))%Z -> exists upper, index trees idx = Some upper /\ upper ∈ trees.
Proof.
  intros H. unfold index. destruct (idx <? 0)%Z eqn:E; [lia|].
  destruct (lookup_lt_is_Some_2 trees (Z.to_nat idx)) as [u Hu]; [lia|].
  exists u. split; [done|]. by eapply list_elem_of_lookup_2.
Qed.


(** The loop of [StackRange] splits where the number of its turns does. *)
Lemma StackRange_loop_turns valid_name child_order trees : forall a b idx logged tree,
  StackRange_loop valid_name child_order trees (a + b) idx logged tree
  = match StackRange_loop valid_name child_order trees a idx logged tree with
    | Done logged' tree' =>
        StackRange_loop valid_name child_order trees b (idx + Z.of_nat a) logged' tree'
    | Panic => Panic
    end.
Proof.
  induction a as [|a IH]; intros b idx logged tree.
  - simpl. by rewrite Z.add_0_r.
  - simpl. destruct (index trees idx) as [upper|]; [|done]. unfold bind.
    destruct (Stack valid_name child_order upper tree) as [err tree'|]; [|done].
    rewrite IH. replace (idx + 1 + Z.of_nat a)%Z with (idx + Z.pos (Pos.of_succ_nat a))%Z by lia.
    done.
Qed.

(** A lower layer holding [/foo], and an upper layer with a whiteout for a
    path the lower layer does not have, next to a whiteout for [/foo]. *)
Definition layer_foo : FileTree := tree_of (dir [("foo", leaf (fi 1))]).

Definition layer_dangling : FileTree :=
  tree_of (dir [(".wh.bar", leaf (fi 0)); (".wh.foo", leaf (fi 0))]).

(** A layer with [/a], stacked after the two above. *)
Definition layer_after : FileTree := tree_of (dir [("a", leaf (fi 1))]).





(** What the range above gives: the error of the dangling whiteout is
    logged and the layer after it is merged. *)
Example StackRange_goes_on :
  exists tree,
    StackRange any_name sorted_keys [layer_foo; layer_dangling; layer_after] 1 2
    = Done [CannotRemoveNode "/bar" (PathNotFound "/bar")] tree
    /\ is_Some (node_at (Root tree) ["foo"]) /\ is_Some (node_at (Root tree) ["a"]).
Proof. eexists. split; [vm_compute; reflexivity|]. split; vm_compute; eauto. Qed.

(** ** [StackRange] over adjacent ranges *)

Definition layer_wh_foo : FileTree := tree_of (dir [(".wh.foo", leaf (fi 0))]).

Definition layer_a1 : FileTree := tree_of (dir [("a", leaf (fi 1))]).
Definition layer_a2 : FileTree := tree_of (dir [("a", leaf (fi 2))]).

(** A layer whose one entry has a name with a slash in it, which no path
    names, and a layer with [/a/b]. *)
Definition layer_slash : FileTree := tree_of (dir [("a/b", leaf (fi 1))]).
Definition layer_a_b2 : FileTree := tree_of (dir [("a", dir [("b", leaf (fi 2))])]).

(** C5 fails as stated.  With [trees = [{/a (size 1)}; {/a (size 2)}; {}]],
    [n = 2] and [k = 1], [StackRange(trees, 0, 2)] has [/a] with size 2,
    while [StackRange(trees, 2, 2)], which starts from a copy of [trees[0]],
    brings size 1 back when stacked onto [StackRange(trees, 0, 1)].  With
    [trees = [{/foo}; {/.wh.foo}; {}]] it brings [/foo] back, which
    [StackRange(trees, 0, 2)] does not have.  With a name that [AddChild]
    refuses [StackRange(trees, 0, 2)] is no tree at all.  With the entry
    [a/b (size 1)] directly under the root of [trees[0]], and [/a/b (size 2)]
    in [trees[2]], it brings size 1 back to [/a/b]. *)
Lemma StackRange_not_associative :
  (exists la ta lb tb lc tc e tr,
    StackRange any_name sorted_keys [layer_a1; layer_a2; NewFileTree] 0 2 = Done la ta
    /\ StackRange any_name sorted_keys [layer_a1; layer_a2; NewFileTree] 0 1 = Done lb tb
    /\ StackRange any_name sorted_keys [layer_a1; layer_a2; NewFileTree] 2 2 = Done lc tc
    /\ Stack any_name sorted_keys tc tb = Done e tr
    /\ payload_at (Root ta) ["a"] = Some (fi 2)
    /\ payload_at (Root tr) ["a"] = Some (fi 1))
  /\ (exists ta tb tc tr,
        StackRange any_name sorted_keys [layer_foo; layer_wh_foo; NewFileTree] 0 2 = Done [] ta
        /\ StackRange any_name sorted_keys [layer_foo; layer_wh_foo; NewFileTree] 0 1 = Done [] tb
        /\ StackRange any_name sorted_keys [layer_foo; layer_wh_foo; NewFileTree] 2 2 = Done [] tc
        /\ Stack any_name sorted_keys tc tb = Done None tr
        /\ node_at (Root ta) ["foo"] = None
        /\ is_Some (node_at (Root tr) ["foo"]))
  /\ StackRange refuse_opaque sorted_keys [NewFileTree; upper_refused; NewFileTree] 0 2 = Panic
  /\ (exists ta tb tc tr,
        StackRange any_name sorted_keys [layer_slash; NewFileTree; layer_a_b2] 0 2 = Done [] ta
        /\ StackRange any_name sorted_keys [layer_slash; NewFileTree; layer_a_b2] 0 1 = Done [] tb
        /\ StackRange any_name sorted_keys [layer_slash; NewFileTree; layer_a_b2] 2 2 = Done [] tc
        /\ Stack any_name sorted_keys tc tb = Done None tr
        /\ payload_at (Root ta) ["a"; "b"] = Some (fi 2)
        /\ payload_at (Root tr) ["a"; "b"] = Some (fi 1)).
Proof.
  split; [|split; [|split]].
  - do 8 eexists.
    split; [vm_compute; reflexivity|]. split; [vm_compute; reflexivity|].
    split; [vm_compute; reflexivity|]. split; [vm_compute; reflexivity|].
    split; vm_compute; reflexivity.
  - do 4 eexists.
    split; [vm_compute; reflexivity|]. split; [vm_compute; reflexivity|].
    split; [vm_compute; reflexivity|]. split; [vm_compute; reflexivity|].
    split; [vm_compute; reflexivity|]. vm_compute. eauto.
  - vm_compute. reflexivity.
  - do 4 eexists.
    split; [vm_compute; reflexivity|]. split; [vm_compute; reflexivity|].
    split; [vm_compute; reflexivity|]. split; [vm_compute; reflexivity|].
    split; vm_compute; reflexivity.
Qed.

(** ** [Compare] on the two-layer example *)

Definition add (tree : FileTree) (path : string) (data : FileInfo.t) : FileTree :=
  (AddPath any_name tree path data).1.

(** Lower [{ /a/b (size 10), /a/c }] and upper [{ /a/b (size 20), /a/d }]. *)
Definition compare_lower : FileTree := add (add NewFileTree "/a/b" (fi 10)) "/a/c" (fi 0).
Definition compare_upper : FileTree := add (add NewFileTree "/a/b" (fi 20)) "/a/d" (fi 0).

Definition diff_at (tree : FileTree) (loc : NodeRef) : option DiffType.t :=
  n ← node_at (Root tree) loc; Some (DiffType (Data n)).

(** C3 fails as stated: [Compare] visits the nodes of [upper] only, and
    [upper] has neither [/a/c] nor a whiteout for it, so [/a/c] is not
    classified [Removed]. *)
Lemma Compare_lower_only_not_Removed :
  exists tree,
    Compare any_name sorted_keys compare_upper compare_lower = Done None tree
    /\ diff_at tree ["a"; "c"] <> Some DiffType.Removed.
Proof. eexists. split; [vm_compute; reflexivity|]. vm_compute. discriminate. Qed.

(** C3, as amended: [Compare(upper)] classifies [/a] and [/a/b] as
    Modified and [/a/d], which it creates in the lower tree, as Added;
    [/a/c] keeps the classification it had. *)
Theorem Compare_example :
  exists tree,
    Compare any_name sorted_keys compare_upper compare_lower = Done None tree
    /\ diff_at tree ["a"] = Some DiffType.Modified
    /\ diff_at tree ["a"; "b"] = Some DiffType.Modified
    /\ diff_at compare_lower ["a"; "d"] = None
    /\ diff_at tree ["a"; "d"] = Some DiffType.Added
    /\ diff_at tree ["a"; "c"] = diff_at compare_lower ["a"; "c"].
Proof. eexists. split; [vm_compute; reflexivity|]. repeat split; vm_compute; reflexivity. Qed.

(** ** [String] on the three-node example *)

(** The tree with exactly the nodes [/a], [/a/b] and [/x]. *)
Definition render_tree : FileTree :=
  add (add (add NewFileTree "/a" (fi 0)) "/a/b" (fi 0)) "/x" (fi 0).

(** C7: [String(false)] renders one row per node in the order [a], [a/b],
    [x]; [a] is a middle sibling, [b], one level down under a vertical bar,
    and [x] are last siblings. *)
Theorem String_example MetadataString :
  Size render_tree = 3%Z
  /\ map (fun p => (p.(node).1, p.(spaces), p.(isLast), p.(showCollapsed)))
         (rows_between render_tree 0 (Size render_tree))
     = [(["a"], [], false, false); (["a"; "b"], [false], true, false); (["x"], [], true, false)]
  /\ FileTree_String MetadataString render_tree false
     = middleItem +:+ uncollapsedItem +:+ "a" +:+ newLine
       +:+ branchSpace +:+ lastItem +:+ uncollapsedItem +:+ "b" +:+ newLine
       +:+ lastItem +:+ uncollapsedItem +:+ "x" +:+ newLine.
Proof. repeat split; vm_compute; reflexivity. Qed.

(** ** [AddPath] followed by [GetNode] *)

(** C4 fails as stated: on a path without a name, such as ["/"], [AddPath]
    returns the root and attaches nothing, so [GetNode] answers with a node
    whose payload is not the one given. *)
Lemma AddPath_root_keeps_payload :
  exists tree' node n,
    AddPath any_name NewFileTree "/" (fi 10) = (tree', (Some node, None))
    /\ GetNode tree' "/" = (Some node, None)
    /\ node_at (Root tree') node = Some n
    /\ FileInfo (Data n) <> fi 10.
Proof.
  do 3 eexists. split; [vm_compute; reflexivity|]. split; [vm_compute; reflexivity|].
  split; [vm_compute; reflexivity|]. vm_compute. discriminate.
Qed.

(** C4, as amended: for every path with at least one name, when
    [AddPath(p, d)] returns no error, [GetNode(p)] on the same tree succeeds
    and returns the node [AddPath] returned, whose payload is [d]. *)
Theorem AddPath_then_GetNode valid_name tree path data tree' newNode :
  Strs.segments path <> [] ->
  AddPath valid_name tree path data = (tree', (newNode, None)) ->
  exists node n,
    GetNode tree' path = (Some node, None)
    /\ newNode = Some node
    /\ node_at (Root tree') node = Some n
    /\ FileInfo (Data n) = data.
Proof.
  intros Hnames Hadd.
  destruct (AddPath_facts _ _ _ _ _ _ _ Hadd) as (_ & _ & Hok & _).
  destruct (Hok eq_refl) as (-> & [n Hn] & Hpay). specialize (Hpay Hnames).
  exists (Strs.segments path), n. rewrite GetNode_spec, Hn.
  unfold payload_at in Hpay. rewrite Hn in Hpay. simpl in Hpay. by injection Hpay as ->.
Qed.

Lemma AddPath_then_GetNode_witness :
  exists node n,
    GetNode (add NewFileTree "/a/b" (fi 10)) "/a/b" = (Some node, None)
    /\ Some ["a"; "b"] = Some node
    /\ node_at (Root (add NewFileTree "/a/b" (fi 10))) node = Some n
    /\ FileInfo (Data n) = fi 10.
Proof.
  apply (AddPath_then_GetNode any_name NewFileTree "/a/b" (fi 10)
           (add NewFileTree "/a/b" (fi 10)) (Some ["a"; "b"]));
    [vm_compute; discriminate|vm_compute; reflexivity].
Defined.

(** ** Paths are normalized, not validated *)

(** C9: [GetNode], [AddPath] and [RemovePath] see of a path only its names,
    the pieces between slashes that are not empty: trimming drops empty
    pieces only, the empty path has no name and leads to the root, and a
    string without slash, blank or not, is one name.  They fail only when a
    name leads nowhere ([GetNode], [RemovePath]), when [AddChild] refuses a
    name ([AddPath]) or when the root is to be removed; none of them can
    panic. *)
Theorem paths_are_normalized valid_name tree path data :
  Strs.segments path = List.filter Strs.nonempty (Strs.Split path)
  /\ Strs.segments "" = []
  /\ (forall s, Strs.valid_segment s = true -> Strs.segments s = [s])
  /\ GetNode tree path
     = match node_at (Root tree) (Strs.segments path) with
       | Some _ => (Some (Strs.segments path), None)
       | None => (None, Some (PathNotFound path))
       end
  /\ AddPath valid_name tree path data
     = AddPath_loop valid_name (Strs.segments path) 0
         (Z.of_nat (length (Strs.segments path))) data [] tree
  /\ (forall e, (AddPath valid_name tree path data).2.2 = Some e ->
        exists name, name ∈ Strs.segments path /\ valid_name name = false
                     /\ e = NodeCreationFailed name)
  /\ RemovePath tree path
     = match node_at (Root tree) (Strs.segments path) with
       | Some _ => Remove tree (Strs.segments path)
       | None => (tree, Some (PathNotFound path))
       end
  /\ (exists r, lift (fun t => (t, GetNode t path)) tree = Done r tree)
  /\ (exists r tree', lift (fun t => AddPath valid_name t path data) tree = Done r tree')
  /\ (exists r tree', lift (fun t => RemovePath t path) tree = Done r tree').
Proof.
  split; [apply StrsFacts.segments_Split|]. split; [done|]. split.
  { intros s Hs. apply andb_prop in Hs as [Hne Hsf].
    rewrite StrsFacts.segments_Split, (StrsFacts.Split_slash_free _ Hsf). simpl. by rewrite Hne. }
  split; [apply GetNode_spec|]. split; [apply AddPath_segments|]. split.
  { intros e He. destruct (AddPath valid_name tree path data) as [tree' [r err]] eqn:Hadd.
    simpl in He. subst err.
    destruct (AddPath_facts _ _ _ _ _ _ _ Hadd) as (_ & _ & _ & Herr & _).
    by destruct (Herr e eq_refl) as [_ H]. }
  split; [apply RemovePath_spec|]. unfold lift. split; [by eexists|]. split.
  - destruct (AddPath valid_name tree path data) as [tree' r]. by eexists _, _.
  - destruct (RemovePath tree path) as [tree' r]. by eexists _, _.
Qed.

Lemma paths_are_normalized_witness :
  Strs.segments "   " = ["   "]
  /\ exists name, name ∈ Strs.segments "/.wh..wh..opq" /\ refuse_opaque name = false
                  /\ NodeCreationFailed ".wh..wh..opq" = NodeCreationFailed name.
Proof.
  destruct (paths_are_normalized refuse_opaque NewFileTree "/.wh..wh..opq" (fi 1))
    as (_ & _ & Hname & _ & _ & Herr & _).
  split; [apply Hname; vm_compute; reflexivity|].
  apply Herr. vm_compute. reflexivity.
Defined.

(** ** Whiteouts in [Stack] *)

Lemma Stack_graft_whiteout valid_name loc x tree :
  IsWhiteout loc = true ->
  Stack_graft valid_name (loc, x) tree
  = match RemovePath tree (Path loc) with
    | (tree', Some e) => Done (Some (CannotRemoveNode (Path loc) e)) tree'
    | (tree', None) => Done None tree'
    end.
Proof. intros Hw. unfold Stack_graft. simpl. by rewrite Hw. Qed.

Lemma IsWhiteout_prefixed dirs shadowed : IsWhiteout (dirs ++ [whiteoutPrefix +:+ shadowed]) = true.
Proof. unfold IsWhiteout. rewrite name_of_snoc. apply StrsFacts.HasPrefix_app. Qed.

(** A successful visit of [Stack] adds to the receiver at most the
    locations leading to the visited node. *)
Lemma Stack_graft_gain valid_name loc x tree tree' target :
  forallb Strs.valid_segment loc = true ->
  Stack_graft valid_name (loc, x) tree = Done None tree' ->
  has (Root tree') target -> has (Root tree) target \/ target `prefix_of` loc.
Proof.
  intros Hnames. unfold Stack_graft. simpl. destruct (IsWhiteout loc) eqn:Hw.
  - destruct (RemovePath tree (Path loc)) as [t [e|]] eqn:Hrm; [done|].
    intros [= <-] Ht. left. by eapply RemovePath_shrinks.
  - destruct (AddPath valid_name tree (Path loc) (FileInfo (Data x))) as [t [r [e|]]] eqn:Hadd.
    { by destruct r. }
    intros [= <-] Ht.
    destruct (AddPath_facts _ _ _ _ _ _ _ Hadd) as (_ & Hgain & _).
    rewrite segments_Path_plain in Hgain by done.
    destruct (Hgain _ Ht) as [?|[_ ?]]; auto.
Qed.

(** C1 fails as stated: an upper layer with a whiteout for a path the
    lower layer does not have, visited before the whiteout [.wh.foo], makes
    [Stack] return an error at once, and [/foo] is still there. *)
Lemma Stack_aborts_before_whiteout :
  is_Some (node_at (Root layer_foo) ["foo"])
  /\ is_Some (node_at (Root layer_dangling) [".wh.foo"])
  /\ exists err merged,
       Stack any_name sorted_keys layer_dangling layer_foo = Done (Some err) merged
       /\ is_Some (node_at (Root merged) ["foo"]).
Proof.
  split; [vm_compute; eauto|]. split; [vm_compute; eauto|].
  do 2 eexists. split; [vm_compute; reflexivity|]. vm_compute. eauto.
Qed.

(** C1, as amended: when an upper layer has a whiteout entry [.wh.foo] in a
    directory and no entry [foo] of its own there, and [Stack(upper)]
    returns no error, the merged tree has no [foo] at that place: the
    whiteout prefix was stripped and the path removed. *)
Theorem Stack_whiteout_removes valid_name child_order lower upper dirs foo merged :
  (forall m, child_order m ≡ₚ keys m) ->
  all_names Strs.valid_segment (Root upper) = true ->
  Strs.valid_segment foo = true ->
  is_Some (node_at (Root upper) (dirs ++ [whiteoutPrefix +:+ foo])) ->
  node_at (Root upper) (dirs ++ [foo]) = None ->
  Stack valid_name child_order upper lower = Done None merged ->
  node_at (Root merged) (dirs ++ [foo]) = None.
Proof.
  intros Horder Hnames Hfoo [x Hwh] Habsent Hstack.
  assert (Hshadowed : forallb Strs.valid_segment (dirs ++ [foo]) = true).
  { pose proof (all_names_at _ _ _ _ Hnames Hwh) as H.
    rewrite forallb_app in H. apply andb_prop in H as [Hd _].
    rewrite forallb_app, Hd. simpl. by rewrite Hfoo. }
  rewrite Stack_run in Hstack.
  pose proof (postorder_complete child_order Horder _ _ [] _ Hwh) as Hin. simpl in Hin.
  apply list_elem_of_split in Hin as (before & after & Hsplit). rewrite Hsplit in Hstack.
  apply run_visits_split in Hstack as (reached & _ & Hrest).
  simpl in Hrest. unfold bind in Hrest.
  rewrite Stack_graft_whiteout in Hrest by apply IsWhiteout_prefixed.
  destruct (RemovePath reached _) as [removed [e|]] eqn:Hrm; [done|].
  apply (RemovePath_gone _ _ _ []) in Hrm.
  rewrite segments_Path_whiteout, app_nil_r in Hrm by done.
  assert (Hgone : ¬ has (Root merged) (dirs ++ [foo])).
  { eapply (run_visits_invariant _ (fun t => ¬ has (Root t) (dirs ++ [foo]))); [|exact Hrest|done].
    intros [loc y] t t' Hv Hgraft Ht Ht'.
    assert (Hpost : (loc, y) ∈ postorder child_order (Root upper) []).
    { rewrite Hsplit. apply elem_of_app. right. by right. }
    destruct (postorder_sound _ _ _ _ Hpost) as (rest & Hloc & Hrest'). simpl in Hloc, Hrest'.
    subst rest.
    destruct (Stack_graft_gain _ _ _ _ _ _ (all_names_at _ _ _ _ Hnames Hrest') Hgraft Ht')
      as [?|[more ->]]; [done|].
    assert (is_Some (node_at (Root upper) (dirs ++ [foo]))) as [? ?]; [|congruence].
    eapply node_at_prefix. rewrite Hrest'. eauto. }
  unfold has in Hgone. destruct (node_at (Root merged) (dirs ++ [foo])); [|done].
  destruct Hgone. eauto.
Qed.

(** An upper layer whose only entry is the whiteout [.wh.foo], in [/d]. *)
Definition layer_d_foo : FileTree := tree_of (dir [("d", dir [("foo", leaf (fi 1)); ("kept", leaf (fi 2))])]).
Definition layer_d_wh_foo : FileTree := tree_of (dir [("d", dir [(".wh.foo", leaf (fi 0))])]).

Definition merged_or (fallback : FileTree) (r : Res (option error)) : FileTree :=
  match r with Done _ tree => tree | Panic => fallback end.

Definition stacked_d_foo : FileTree :=
  merged_or layer_d_foo (Stack any_name sorted_keys layer_d_wh_foo layer_d_foo).

Lemma Stack_whiteout_removes_witness :
  is_Some (node_at (Root layer_d_foo) ["d"; "foo"])
  /\ node_at (Root stacked_d_foo) ["d"; "foo"] = None.
Proof.
  split; [vm_compute; eauto|].
  apply (Stack_whiteout_removes any_name sorted_keys layer_d_foo layer_d_wh_foo ["d"] "foo").
  - apply sorted_keys_keys.
  - vm_compute; reflexivity.
  - vm_compute; reflexivity.
  - vm_compute; eauto.
  - vm_compute; reflexivity.
  - vm_compute; reflexivity.
Defined.

(** ** The opaque-directory marker in [Stack] *)

(** Removing a node leaves every location that is not under it. *)
Lemma Remove_elsewhere tree loc tree' target :
  Remove tree loc = (tree', None) -> ¬ loc `prefix_of` target ->
  has (Root tree') target <-> has (Root tree) target.
Proof.
  intros Hrm Hout. split; [by eapply Remove_shrinks|].
  unfold Remove in Hrm. destruct (split_last loc) as [[parent name]|] eqn:E; [|done].
  injection Hrm as <-. apply split_last_Some in E as ->. simpl. unfold has.
  destruct (loc_cases parent target) as [[rest ->]|[[rest ->]|[H1 H2]]].
  - rewrite node_at_alter_at_below, node_at_app.
    destruct (node_at (Root tree) parent) as [x|]; simpl; [|done].
    destruct rest as [|k rest]; [eauto|]. simpl.
    destruct (decide (name = k)) as [->|Hne].
    + destruct Hout. exists rest. by rewrite <- app_assoc.
    + by rewrite lookup_delete_ne.
  - rewrite node_at_alter_at_above. intros [x ->]. simpl. eauto.
  - by rewrite node_at_alter_at_apart.
Qed.

(** A lower layer with an entry in [/d], and an upper layer with the
    opaque-directory marker in [/d]. *)
Definition layer_d_old : FileTree := tree_of (dir [("d", dir [("old", leaf (fi 1))])]).
Definition layer_d_opaque : FileTree := tree_of (dir [("d", dir [(".wh..wh..", leaf (fi 0))])]).

(** C2 fails as stated: [Stack] has no case for the opaque-directory
    marker.  The marker is a whiteout for the entry [.wh..] of [/d]; the
    lower layer has none, [Stack] returns an error and what [/d] held is
    still there. *)
Lemma Stack_opaque_marker_keeps_contents :
  exists err merged,
    Stack any_name sorted_keys layer_d_opaque layer_d_old = Done (Some err) merged
    /\ is_Some (node_at (Root merged) ["d"; "old"]).
Proof. do 2 eexists. split; [vm_compute; reflexivity|]. vm_compute. eauto. Qed.

(** C2, as amended: [Stack] treats the opaque-directory marker
    [.wh..wh..] under a directory [d] as any whiteout, for the entry of [d]
    whose name is the marker less one whiteout prefix.  The visit of the
    marker leaves every other entry of [d] in the lower tree; when [d] has no
    entry of that name the visit fails, and [Stack] returns that error with
    the lower tree as the earlier visits left it. *)
Theorem Stack_opaque_marker_is_a_whiteout valid_name child_order dirs suffix x :
  forallb Strs.valid_segment dirs = true ->
  Strs.slash_free suffix = true ->
  let marker : Visited := (dirs ++ [doubleWhiteoutPrefix +:+ suffix], x) in
  let shadowed : NodeRef := dirs ++ [".wh.." +:+ suffix] in
  (forall tree err tree' target,
      Stack_graft valid_name marker tree = Done err tree' ->
      ¬ shadowed `prefix_of` target ->
      has (Root tree') target <-> has (Root tree) target)
  /\ (forall lower upper before after reached,
      postorder child_order (Root upper) [] = before ++ marker :: after ->
      run_visits (Stack_graft valid_name) before lower = Done None reached ->
      node_at (Root reached) shadowed = None ->
      Stack valid_name child_order upper lower
      = Done (Some (CannotRemoveNode (Path marker.1) (PathNotFound (Path marker.1)))) reached).
Proof.
  intros Hdirs Hsuffix marker shadowed.
  assert (Hw : IsWhiteout marker.1 = true).
  { apply (IsWhiteout_prefixed dirs (".wh.." +:+ suffix)). }
  assert (Hseg : Strs.segments (Path marker.1) = shadowed).
  { apply (segments_Path_whiteout dirs (".wh.." +:+ suffix)).
    rewrite forallb_app, Hdirs. simpl. unfold Strs.valid_segment. simpl.
    change (Strs.slash_free suffix && true = true). by rewrite Hsuffix. }
  unfold marker in *. cbn [fst] in *. split.
  - intros tree err tree' target Hgraft Hout.
    rewrite Stack_graft_whiteout in Hgraft by done.
    rewrite RemovePath_spec, Hseg in Hgraft.
    destruct (node_at (Root tree) shadowed).
    + destruct (Remove tree shadowed) as [t [e|]] eqn:Hrm.
      * unfold Remove in Hrm. destruct (split_last shadowed) as [[? ?]|]; [done|].
        injection Hrm as <- _. by injection Hgraft as _ <-.
      * injection Hgraft as _ <-. by eapply Remove_elsewhere.
    + by injection Hgraft as _ <-.
  - intros lower upper before after reached Horder Hbefore Habsent.
    rewrite Stack_run, Horder. eapply run_visits_stops; [done| |done].
    rewrite Stack_graft_whiteout by done.
    by rewrite RemovePath_spec, Hseg, Habsent.
Qed.

Lemma Stack_opaque_marker_is_a_whiteout_witness :
  (has (Root layer_d_old) ["d"; "old"] <-> has (Root layer_d_old) ["d"; "old"])
  /\ Stack any_name sorted_keys layer_d_opaque layer_d_old
     = Done (Some (CannotRemoveNode "/d/.wh.." (PathNotFound "/d/.wh.."))) layer_d_old.
Proof.
  destruct (Stack_opaque_marker_is_a_whiteout any_name sorted_keys ["d"] "" (leaf (fi 0)))
    as [Hkeep Hstop]; [vm_compute; reflexivity|vm_compute; reflexivity|].
  split.
  - apply (Hkeep layer_d_old
             (Some (CannotRemoveNode "/d/.wh.." (PathNotFound "/d/.wh.."))) layer_d_old).
    + vm_compute; reflexivity.
    + intros [rest Hrest]. discriminate Hrest.
  - apply (Hstop layer_d_old layer_d_opaque []
             [(["d"], dir [(".wh..wh..", leaf (fi 0))]); ([], Root layer_d_opaque)] layer_d_old);
      vm_compute; reflexivity.
Defined.

(** ** Rendering, row by row *)

Definition loc_of (p : renderParams) : NodeRef := p.(node).1.
Definition val_of (p : renderParams) : FileNode := p.(node).2.

(** The rows the walk of [renderStringTreeBetween] comes by, in order,
    before any window is applied: each node in front of what it lets
    through of its children, the root taking no row. *)
Equations? preorder_rows (paramsToVisit : list renderParams) : list renderParams
  by wf (weight paramsToVisit) lt :=
preorder_rows [] := [];
preorder_rows (p :: rest) :=
  (if bool_decide (loc_of p = []) then [] else [p])
  ++ preorder_rows (childParams_of p ++ rest).
Proof.
  rewrite weight_app. pose proof (childParams_of_weight p). simpl. lia.
Qed.

(** The rows numbered from [row] on that fall in the window. *)
Fixpoint window (startRow stopRow row : Z) (l : list renderParams) : list renderParams :=
  match l with
  | [] => []
  | p :: rest =>
      if (row <=? stopRow)%Z
      then (if (startRow <=? row)%Z then [p] else []) ++ window startRow stopRow (row + 1) rest
      else []
  end.

Lemma weight_ind (P : list renderParams -> Prop) :
  (forall W, (forall W', (weight W' < weight W)%nat -> P W') -> P W) -> forall W, P W.
Proof.
  intros step W. remember (weight W) as w eqn:Hw. revert W Hw.
  induction w as [w IH] using lt_wf_ind. intros W ->. apply step.
  intros W' Hlt. by eapply IH.
Qed.

Lemma weight_step p rest : (weight (childParams_of p ++ rest) < weight (p :: rest))%nat.
Proof. rewrite weight_app. pose proof (childParams_of_weight p). simpl. lia. Qed.

Lemma render_loop_window startRow stopRow : forall W row params,
  render_loop startRow stopRow W row params
  = params ++ window startRow stopRow row (preorder_rows W).
Proof.
  intros W. pattern W. apply weight_ind. clear W. intros [|p rest] IH row params.
  - simp render_loop preorder_rows. simpl. by rewrite app_nil_r.
  - simp render_loop preorder_rows. pose proof (weight_step p rest) as Hlt.
    unfold loc_of. destruct (row <=? stopRow)%Z eqn:Hrow.
    + destruct (bool_decide ((node p).1 = [])) eqn:Hroot; simpl.
      * by apply IH.
      * rewrite Hrow, (IH _ Hlt).
        destruct (startRow <=? row)%Z; simpl; [|done]. by rewrite <- app_assoc.
    + destruct (bool_decide ((node p).1 = [])); simpl.
      * destruct (preorder_rows _); simpl; [by rewrite app_nil_r|]. by rewrite Hrow, app_nil_r.
      * by rewrite Hrow, app_nil_r.
Qed.

Lemma window_all startRow stopRow : forall l row,
  (startRow <= row)%Z -> (row + Z.of_nat (length l) <= stopRow + 1)%Z ->
  window startRow stopRow row l = l.
Proof.
  induction l as [|p l IH]; intros row Hstart Hstop; simpl; [done|]. simpl in Hstop.
  rewrite (proj2 (Z.leb_le _ _)) by lia. rewrite (proj2 (Z.leb_le _ _)) by lia.
  simpl. f_equal. apply IH; lia.
Qed.

Lemma preorder_rows_length : forall W, (length (preorder_rows W) <= weight W)%nat.
Proof.
  intros W. pattern W. apply weight_ind. clear W. intros [|p rest] IH.
  - simp preorder_rows. simpl. lia.
  - simp preorder_rows. rewrite length_app.
    pose proof (IH _ (weight_step p rest)) as H. rewrite weight_app in H.
    pose proof (childParams_of_weight p). simpl.
    destruct (bool_decide _); simpl; lia.
Qed.

Definition root_params (tree : FileTree) : renderParams :=
  mkParams ([], Root tree) [] [] false false.

(** With a [Size] that is at least the number of nodes below the root,
    the window of [String] lets every row through. *)
Lemma rows_between_all tree :
  (Z.of_nat (node_count (Root tree)) - 1 <= Size tree)%Z ->
  rows_between tree 0 (Size tree) = preorder_rows [root_params tree].
Proof.
  intros Hsize. unfold rows_between. rewrite render_loop_window. simpl.
  apply window_all; [lia|].
  change (preorder_rows [mkParams ([], Root tree) [] [] false false])
    with (preorder_rows [root_params tree]).
  simp preorder_rows. simpl. rewrite app_nil_r.
  pose proof (preorder_rows_length (childParams_of (root_params tree))).
  pose proof (childParams_of_weight (root_params tree)). simpl in *. lia.
Qed.

(** Whether the walk reaches the location [rest] below a node: no node on
    the way but the last is collapsed, and none below the first is hidden. *)
Fixpoint shown_from (n : FileNode) (rest : NodeRef) : bool :=
  match rest with
  | [] => true
  | k :: rest' =>
      negb (Collapsed n)
      && match Children n !! k with
         | Some c => negb (Hidden c) && shown_from c rest'
         | None => false
         end
  end.

Lemma childParams_loop_sound p : forall names idx q,
  q ∈ childParams_loop p idx names ->
  exists k c, k ∈ names /\ Children (val_of p) !! k = Some c
              /\ Hidden c = false /\ Collapsed (val_of p) = false
              /\ q.(node) = (loc_of p ++ [k], c)
              /\ q.(showCollapsed) = Collapsed c && (0 <? size (Children c))%nat.
Proof.
  induction names as [|k names IH]; intros idx q; simpl; [by intros ?%elem_of_nil|].
  fold (val_of p). destruct (Children (val_of p) !! k) as [c|] eqn:E.
  - destruct (Hidden c) eqn:Hh; simpl.
    { intros H. destruct (IH _ _ H) as (k' & c' & ? & ?). exists k', c'. split; [by right|done]. }
    destruct (Collapsed (val_of p)) eqn:Hc; simpl.
    { intros H. destruct (IH _ _ H) as (k' & c' & ? & ?). exists k', c'. split; [by right|done]. }
    intros [->|H]%elem_of_cons.
    + exists k, c. simpl. repeat split; try done. by left.
    + destruct (IH _ _ H) as (k' & c' & ? & ?). exists k', c'. split; [by right|done].
  - intros H. destruct (IH _ _ H) as (k' & c' & ? & ?). exists k', c'. split; [by right|done].
Qed.

Lemma childParams_loop_complete p k c : forall names idx,
  k ∈ names -> Children (val_of p) !! k = Some c ->
  Hidden c = false -> Collapsed (val_of p) = false ->
  exists q, q ∈ childParams_loop p idx names /\ q.(node) = (loc_of p ++ [k], c).
Proof.
  intros names idx Hin Hk Hh Hc. revert idx.
  induction names as [|k' names IH]; intros idx; [by apply elem_of_nil in Hin|].
  simpl. fold (val_of p).
  destruct (decide (k' = k)) as [->|Hne].
  - rewrite Hk, Hh, Hc. simpl. eexists. split; [by left|done].
  - apply elem_of_cons in Hin as [->|Hin]; [done|].
    destruct (IH Hin (idx + 1)%Z) as (q & Hq & Hnode).
    exists q. split; [|done].
    destruct (Children (val_of p) !! k') as [c'|]; [|done].
    destruct (Hidden c' || Collapsed (val_of p)); [done|by right].
Qed.

(** The locations of the children let through are distinct. *)
Lemma childParams_loop_NoDup p : forall names idx,
  NoDup names -> NoDup (loc_of <$> childParams_loop p idx names).
Proof.
  induction names as [|k names IH]; intros idx Hnd; simpl; [constructor|].
  apply NoDup_cons in Hnd as [Hk Hnd]. fold (val_of p).
  destruct (Children (val_of p) !! k) as [c|]; [|by apply IH].
  destruct (Hidden c || Collapsed (val_of p)); [by apply IH|].
  simpl. apply NoDup_cons. split; [|by apply IH].
  intros (q & Hloc & Hq)%list_elem_of_fmap.
  destruct (childParams_loop_sound _ _ _ _ Hq) as (k' & c' & Hin & _ & _ & _ & Hnode & _).
  unfold loc_of in Hloc at 2. rewrite Hnode in Hloc. simpl in Hloc. unfold loc_of in Hloc.
  simpl in Hloc. apply app_inv_head in Hloc. by injection Hloc as ->.
Qed.

Lemma childParams_of_sound p q :
  q ∈ childParams_of p ->
  exists k c, Children (val_of p) !! k = Some c
              /\ Hidden c = false /\ Collapsed (val_of p) = false
              /\ q.(node) = (loc_of p ++ [k], c)
              /\ q.(showCollapsed) = Collapsed c && (0 <? size (Children c))%nat.
Proof.
  intros H. destruct (childParams_loop_sound _ _ _ _ H) as (k & c & _ & ?). eauto.
Qed.

Lemma childParams_of_complete p k c :
  Children (val_of p) !! k = Some c -> Hidden c = false -> Collapsed (val_of p) = false ->
  exists q, q ∈ childParams_of p /\ q.(node) = (loc_of p ++ [k], c).
Proof.
  intros Hk. apply childParams_loop_complete; [|done].
  rewrite sorted_keys_Permutation. unfold keys. apply list_elem_of_fmap.
  exists (k, c). split; [done|]. by apply elem_of_map_to_list.
Qed.

Lemma childParams_of_NoDup p : NoDup (loc_of <$> childParams_of p).
Proof. apply childParams_loop_NoDup, sorted_keys_NoDup. Qed.

Lemma node_eq q l c : q.(node) = (l, c) -> loc_of q = l /\ val_of q = c.
Proof. unfold loc_of, val_of. by intros ->. Qed.

(** A property of the visited nodes that passes from a node to the
    children it lets through holds of every row. *)
Lemma preorder_rows_invariant (P : renderParams -> Prop) :
  (forall p q, P p -> q ∈ childParams_of p -> P q) ->
  forall W, (forall q, q ∈ W -> P q) -> forall p, p ∈ preorder_rows W -> P p.
Proof.
  intros Hstep W. pattern W. apply weight_ind. clear W. intros [|p rest] IH HW r.
  - rewrite ?preorder_rows_equation_1, ?preorder_rows_equation_2. by intros ?%elem_of_nil.
  - rewrite ?preorder_rows_equation_1, ?preorder_rows_equation_2. rewrite elem_of_app. intros [H|H].
    + destruct (bool_decide _); [by apply elem_of_nil in H|].
      apply list_elem_of_singleton in H as ->. apply HW. by left.
    + eapply (IH _ (weight_step p rest)); [|done].
      intros q [Hq|Hq]%elem_of_app; [|apply HW; by right].
      eapply Hstep; [|done]. apply HW. by left.
Qed.

(** The rows are the locations the walk reaches from the nodes it
    starts with, the root excepted. *)
Lemma preorder_rows_locs : forall W loc,
  loc ∈ loc_of <$> preorder_rows W
  <-> loc <> [] /\ exists q rest, q ∈ W /\ loc = loc_of q ++ rest
                                  /\ shown_from (val_of q) rest = true.
Proof.
  intros W. pattern W. apply weight_ind. clear W. intros [|p W] IH loc.
  - rewrite ?preorder_rows_equation_1, ?preorder_rows_equation_2. simpl. split; [by intros ?%elem_of_nil|].
    by intros (_ & q & rest & ?%elem_of_nil & _).
  - rewrite ?preorder_rows_equation_1, ?preorder_rows_equation_2. rewrite fmap_app, elem_of_app, (IH _ (weight_step p W)). split.
    + intros [H|(Hloc & q & rest & Hq & -> & Hshown)].
      * destruct (bool_decide (loc_of p = [])) eqn:Hroot; [by apply elem_of_nil in H|].
        apply list_elem_of_singleton in H as ->.
        apply bool_decide_eq_false in Hroot. split; [done|].
        exists p, []. rewrite app_nil_r. split; [by left|done].
      * split; [done|]. apply elem_of_app in Hq as [Hq|Hq].
        -- destruct (childParams_of_sound _ _ Hq) as (k & c & Hk & Hh & Hc & Hnode & _).
           exists p, (k :: rest). split; [by left|].
           destruct (node_eq _ _ _ Hnode) as [Hl Hv]. rewrite Hl, Hv in *.
           rewrite <- app_assoc. split; [done|].
           simpl. by rewrite Hc, Hk, Hh.
        -- exists q, rest. split; [by right|done].
    + intros (Hloc & q & rest & Hq & -> & Hshown).
      apply elem_of_cons in Hq as [->|Hq].
      * destruct rest as [|k rest].
        -- left. rewrite app_nil_r in *. rewrite bool_decide_eq_false_2 by done.
           by apply list_elem_of_singleton.
        -- right. split; [done|]. simpl in Hshown.
           apply andb_prop in Hshown as [Hc Hshown].
           destruct (Children (val_of p) !! k) as [c|] eqn:Hk; [|done].
           apply andb_prop in Hshown as [Hh Hshown].
           apply negb_true_iff in Hc, Hh.
           destruct (childParams_of_complete _ _ _ Hk Hh Hc) as (q & Hq & Hnode).
           exists q, rest. split; [apply elem_of_app; by left|].
           destruct (node_eq _ _ _ Hnode) as [-> ->]. by rewrite <- app_assoc.
      * right. split; [done|]. exists q, rest. split; [apply elem_of_app; by right|done].
Qed.

(** Locations neither of which leads to the other. *)
Definition apart (a b : NodeRef) : Prop := ¬ a `prefix_of` b /\ ¬ b `prefix_of` a.

Fixpoint antichain (l : list NodeRef) : Prop :=
  match l with
  | [] => True
  | a :: rest => Forall (apart a) rest /\ antichain rest
  end.

Lemma antichain_app l1 l2 :
  antichain l1 -> antichain l2 -> (forall a b, a ∈ l1 -> b ∈ l2 -> apart a b) ->
  antichain (l1 ++ l2).
Proof.
  induction l1 as [|a l1 IH]; intros H1 H2 H12; simpl; [done|].
  destruct H1 as [Ha H1]. split.
  - apply Forall_app. split; [done|]. apply Forall_forall. intros b Hb. apply H12; [by left|done].
  - apply IH; [done|done|]. intros x y Hx Hy. apply H12; [by right|done].
Qed.

Lemma antichain_children p : antichain (loc_of <$> childParams_of p).
Proof.
  pose proof (childParams_of_NoDup p) as Hnd.
  assert (Hall : forall l, l ∈ loc_of <$> childParams_of p -> exists k, l = loc_of p ++ [k]).
  { intros l (q & -> & Hq)%list_elem_of_fmap.
    destruct (childParams_of_sound _ _ Hq) as (k & c & _ & _ & _ & Hnode & _).
    exists k. by destruct (node_eq _ _ _ Hnode). }
  induction (loc_of <$> childParams_of p) as [|a l IH]; simpl; [done|].
  apply NoDup_cons in Hnd as [Ha Hnd]. split.
  - apply Forall_forall. intros b Hb.
    destruct (Hall a) as [ka ->]; [by left|]. destruct (Hall b) as [kb ->]; [by right|].
    assert (ka <> kb) by (intros ->; done).
    split; intros [more Hmore]; rewrite <- app_assoc in Hmore;
      apply app_inv_head in Hmore; simpl in Hmore; congruence.
  - apply IH; [done|]. intros x Hx. apply Hall. by right.
Qed.

Lemma preorder_rows_NoDup : forall W,
  antichain (loc_of <$> W) -> NoDup (loc_of <$> preorder_rows W).
Proof.
  intros W. pattern W. apply weight_ind. clear W. intros [|p W] IH Hanti.
  - rewrite ?preorder_rows_equation_1, ?preorder_rows_equation_2. constructor.
  - rewrite ?preorder_rows_equation_1, ?preorder_rows_equation_2. simpl in Hanti. destruct Hanti as [Hp Hanti].
    rewrite Forall_forall in Hp.
    assert (Hchild : forall q, q ∈ childParams_of p -> exists k, loc_of q = loc_of p ++ [k]).
    { intros q Hq. destruct (childParams_of_sound _ _ Hq) as (k & c & _ & _ & _ & Hnode & _).
      exists k. by destruct (node_eq _ _ _ Hnode). }
    rewrite fmap_app. apply NoDup_app. split; [|split].
    + destruct (bool_decide _); simpl; [constructor|]. apply NoDup_singleton.
    + intros loc Hloc. destruct (bool_decide (loc_of p = [])); [by apply elem_of_nil in Hloc|].
      simpl in Hloc. apply list_elem_of_singleton in Hloc as ->.
      rewrite preorder_rows_locs. intros (_ & q & rest & Hq & Heq & _).
      apply elem_of_app in Hq as [Hq|Hq].
      * destruct (Hchild _ Hq) as [k Hk]. rewrite Hk, <- app_assoc in Heq.
        rewrite <- (app_nil_r (loc_of p)) in Heq at 1. by apply app_inv_head in Heq.
      * destruct (Hp (loc_of q)) as [_ Hno]; [by apply list_elem_of_fmap_2|].
        apply Hno. by exists rest.
    + apply (IH _ (weight_step p W)). rewrite fmap_app.
      apply antichain_app; [apply antichain_children|done|].
      intros a b (q & -> & Hq)%list_elem_of_fmap Hb.
      destruct (Hchild _ Hq) as [k ->]. destruct (Hp b Hb) as [Hpb Hbp].
      split.
      * intros [more ->]. apply Hpb. exists ([k] ++ more). by rewrite app_assoc.
      * intros [more Hmore]. destruct (decide (more = [])) as [->|Hne].
        -- rewrite app_nil_r in Hmore. apply Hpb. exists [k]. by rewrite Hmore.
        -- destruct (exists_last Hne) as (init & z & ->).
           rewrite app_assoc in Hmore. apply app_inj_tail in Hmore as [Hmore _].
           apply Hbp. by exists init.
Qed.

Lemma shown_from_app : forall l1 n m l2,
  node_at n l1 = Some m -> shown_from n (l1 ++ l2) = shown_from n l1 && shown_from m l2.
Proof.
  induction l1 as [|k l1 IH]; intros n m l2; simpl.
  - by intros [= ->].
  - destruct (Children n !! k) as [c|]; [|done]. intros H. rewrite (IH _ _ _ H).
    by rewrite !andb_assoc.
Qed.

Lemma shown_from_collapsed loc root n rest :
  node_at root loc = Some n -> Collapsed n = true -> rest <> [] ->
  shown_from root (loc ++ rest) = false.
Proof.
  intros Hn Hc Hrest. rewrite (shown_from_app _ _ _ _ Hn).
  destruct rest as [|k rest]; [done|]. simpl. rewrite Hc. simpl. apply andb_false_r.
Qed.

Lemma shown_from_hidden : forall loc root n rest,
  loc <> [] -> node_at root loc = Some n -> Hidden n = true ->
  shown_from root (loc ++ rest) = false.
Proof.
  induction loc as [|k loc IH]; intros root n rest Hloc; [done|]. simpl.
  destruct (Children root !! k) as [c|]; [|done].
  destruct loc as [|k' loc].
  - simpl. intros [= ->] ->. simpl. apply andb_false_r.
  - intros Hn Hh. rewrite (IH c n rest) by done. by rewrite !andb_false_r.
Qed.

Lemma shown_from_clear : forall rest n,
  (forall r x, node_at n r = Some x -> Hidden x = false /\ Collapsed x = false) ->
  is_Some (node_at n rest) -> shown_from n rest = true.
Proof.
  induction rest as [|k rest IH]; intros n Hclear; simpl; [done|].
  destruct (Children n !! k) as [c|] eqn:Hk; [|by intros [? ?]]. intros Hrest.
  destruct (Hclear [] n eq_refl) as [_ ->].
  destruct (Hclear [k] c) as [-> _]; [simpl; by rewrite Hk|]. simpl.
  apply IH; [|done]. intros r x Hx. apply (Hclear (k :: r)). simpl. by rewrite Hk.
Qed.

(** The rows rendered for one location. *)
Definition rows_at (loc : NodeRef) (rows : list renderParams) : list renderParams :=
  filter (fun p => loc_of p = loc) rows.

Lemma rows_at_none loc rows : loc ∉ loc_of <$> rows -> rows_at loc rows = [].
Proof.
  unfold rows_at. induction rows as [|p rows IH]; simpl; [done|].
  rewrite not_elem_of_cons. intros [Hp Hrows]. rewrite filter_cons.
  destruct (decide (loc_of p = loc)); [done|]. by apply IH.
Qed.

Lemma rows_at_one loc rows :
  NoDup (loc_of <$> rows) -> loc ∈ loc_of <$> rows ->
  exists p, p ∈ rows /\ loc_of p = loc /\ rows_at loc rows = [p].
Proof.
  unfold rows_at. induction rows as [|p rows IH]; simpl; [by intros _ ?%elem_of_nil|].
  rewrite NoDup_cons. intros [Hp Hnd] Hin. rewrite filter_cons.
  destruct (decide (loc_of p = loc)) as [<-|Hne].
  - exists p. split; [by left|]. split; [done|]. f_equal. by apply rows_at_none.
  - apply elem_of_cons in Hin as [->|Hin]; [done|].
    destruct (IH Hnd Hin) as (q & ? & ? & ?). exists q. split; [by right|done].
Qed.

Lemma root_params_rows tree p :
  p ∈ preorder_rows [root_params tree] ->
  node_at (Root tree) (loc_of p) = Some (val_of p)
  /\ (loc_of p <> [] ->
      p.(showCollapsed) = Collapsed (val_of p) && (0 <? size (Children (val_of p)))%nat).
Proof.
  apply (preorder_rows_invariant (fun p =>
    node_at (Root tree) (loc_of p) = Some (val_of p)
    /\ (loc_of p <> [] ->
        p.(showCollapsed) = Collapsed (val_of p) && (0 <? size (Children (val_of p)))%nat))).
  - intros q r [Hq _] Hr.
    destruct (childParams_of_sound _ _ Hr) as (k & c & Hk & _ & _ & Hnode & Hshow).
    destruct (node_eq _ _ _ Hnode) as [-> ->]. split; [|done].
    rewrite node_at_app, Hq. simpl. by rewrite Hk.
  - intros q ->%list_elem_of_singleton. done.
Qed.

Lemma text_app_assoc (a b c : string) : (a +:+ b) +:+ c = a +:+ (b +:+ c).
Proof.
  induction a as [|x a IH]; [done|].
  change (String x ((a +:+ b) +:+ c) = String x (a +:+ (b +:+ c))). by rewrite IH.
Qed.

Lemma text_app_empty (a : string) : a +:+ "" = a.
Proof.
  induction a as [|x a IH]; [done|].
  change (String x (a +:+ "") = String x a). by rewrite IH.
Qed.

(** The text that the loop [result += ...] builds over the rows is the
    texts of the rows one after the other. *)
Lemma foldl_text (g : renderParams -> string) : forall l acc,
  foldl (fun result p => result +:+ g p) acc l
  = acc +:+ foldr (fun p rest => g p +:+ rest) "" l.
Proof.
  induction l as [|p l IH]; intros acc; simpl.
  - by rewrite text_app_empty.
  - by rewrite IH, text_app_assoc.
Qed.

(** C8: with a [Size] that covers the nodes of the tree, the text [String]
    returns is, for the rows in order, one line per row: the metadata if
    asked for, the indentation, the branch glyph, the collapsed or expanded
    glyph, the name of the node and a line break.  For every location there
    is exactly one row when the walk reaches it and none otherwise; the walk
    reaches a location when no node above it is collapsed and no node on the
    way, the last included, is hidden.  So a collapsed node with children
    that is reached has one row, whose line carries the collapsed glyph, and
    nothing below it has a row; a hidden node has no row, nor has anything
    below it; and where no flag is set below a reached node, every node below
    it has its row. *)
Theorem String_rows MetadataString tree showAttributes :
  (Z.of_nat (node_count (Root tree)) - 1 <= Size tree)%Z ->
  let rows := rows_between tree 0 (Size tree) in
  let line (p : renderParams) : string :=
    foldr (fun (space : bool) acc =>
             (if space then noBranchSpace else branchSpace) +:+ acc) "" p.(spaces)
    +:+ (if p.(isLast) then lastItem else middleItem)
    +:+ (if p.(showCollapsed) then collapsedItem else uncollapsedItem)
    +:+ name_of (loc_of p) +:+ newLine in
  FileTree_String MetadataString tree showAttributes
  = foldr (fun p rest =>
             ((if showAttributes then MetadataString p.(node) +:+ " " else "") +:+ line p)
             +:+ rest) "" rows
  /\ (forall loc n,
        loc <> [] -> shown_from (Root tree) loc = true -> node_at (Root tree) loc = Some n ->
        Collapsed n = true -> (0 < size (Children n))%nat ->
        exists p, rows_at loc rows = [p] /\ loc_of p = loc
                  /\ line p
                     = foldr (fun (space : bool) acc =>
                                (if space then noBranchSpace else branchSpace) +:+ acc) "" p.(spaces)
                       +:+ (if p.(isLast) then lastItem else middleItem)
                       +:+ collapsedItem +:+ name_of loc +:+ newLine
                  /\ forall rest, rest <> [] -> rows_at (loc ++ rest) rows = [])
  /\ (forall loc, loc <> [] -> shown_from (Root tree) loc = true ->
        exists p, rows_at loc rows = [p]
                  /\ node_at (Root tree) loc = Some (val_of p)
                  /\ p.(showCollapsed)
                     = Collapsed (val_of p) && (0 <? size (Children (val_of p)))%nat)
  /\ (forall loc, shown_from (Root tree) loc = false -> rows_at loc rows = [])
  /\ (forall loc n rest,
        node_at (Root tree) loc = Some n -> Collapsed n = true -> rest <> [] ->
        rows_at (loc ++ rest) rows = [])
  /\ (forall loc n rest,
        loc <> [] -> node_at (Root tree) loc = Some n -> Hidden n = true ->
        rows_at (loc ++ rest) rows = [])
  /\ (forall loc n rest,
        shown_from (Root tree) loc = true -> node_at (Root tree) loc = Some n ->
        (forall r x, node_at n r = Some x -> Hidden x = false /\ Collapsed x = false) ->
        is_Some (node_at n rest) -> loc ++ rest <> [] ->
        exists p, rows_at (loc ++ rest) rows = [p]).
Proof.
  intros Hsize rows line.
  assert (Hrows : rows = preorder_rows [root_params tree]) by by apply rows_between_all.
  assert (Hnd : NoDup (loc_of <$> rows)).
  { rewrite Hrows. apply preorder_rows_NoDup. simpl. done. }
  assert (Hmem : forall loc, loc ∈ loc_of <$> rows
                             <-> loc <> [] /\ shown_from (Root tree) loc = true).
  { intros loc. rewrite Hrows, preorder_rows_locs. split.
    - intros (Hloc & q & rest & ->%list_elem_of_singleton & -> & Hshown). done.
    - intros [Hloc Hshown]. split; [done|]. exists (root_params tree), loc.
      split; [by apply list_elem_of_singleton|done]. }
  assert (Hnone : forall loc, shown_from (Root tree) loc = false -> rows_at loc rows = []).
  { intros loc Hloc. apply rows_at_none. rewrite Hmem. intros [_ H]. congruence. }
  assert (Hone : forall loc, loc <> [] -> shown_from (Root tree) loc = true ->
                 exists p, rows_at loc rows = [p] /\ loc_of p = loc
                           /\ node_at (Root tree) loc = Some (val_of p)
                           /\ p.(showCollapsed)
                              = Collapsed (val_of p) && (0 <? size (Children (val_of p)))%nat).
  { intros loc Hloc Hshown.
    destruct (rows_at_one loc rows Hnd) as (p & Hp & <- & Hat); [by apply Hmem|].
    exists p. split; [done|]. split; [done|]. rewrite Hrows in Hp.
    destruct (root_params_rows _ _ Hp) as [Hval Hshow]. auto. }
  split.
  { unfold FileTree_String, renderStringTreeBetween. fold rows.
    rewrite (foldl_text (render_row MetadataString showAttributes)). reflexivity. }
  split.
  { intros loc n Hloc Hshown Hn Hc Hkids.
    destruct (Hone loc Hloc Hshown) as (p & Hat & Hp & Hval & Hshow).
    exists p. split; [done|]. split; [done|]. split.
    - unfold line. rewrite Hp, Hshow. rewrite Hn in Hval. injection Hval as <-.
      apply Nat.ltb_lt in Hkids. rewrite Hc, Hkids. reflexivity.
    - intros rest Hrest. apply Hnone. by apply (shown_from_collapsed _ _ n). }
  split.
  { intros loc Hloc Hshown. destruct (Hone loc Hloc Hshown) as (p & ? & _ & ? & ?). eauto. }
  split; [done|]. split; [|split].
  - intros loc n rest Hn Hc Hrest. apply Hnone. by eapply shown_from_collapsed.
  - intros loc n rest Hloc Hn Hh. apply Hnone. by eapply shown_from_hidden.
  - intros loc n rest Hshown Hn Hclear Hrest Hne.
    destruct (Hone (loc ++ rest)) as (p & Hp & _); [done| |by exists p].
    rewrite (shown_from_app _ _ _ _ Hn), Hshown. simpl. by apply shown_from_clear.
Qed.

Definition with_view (v : ViewInfo.t) (n : FileNode) : FileNode :=
  mkNode (mkData (FileInfo (Data n)) (DiffType (Data n)) v) (Children n).

(** [/a], collapsed, with [/a/b] below it, a hidden [/h] with [/h/i] below
    it, and [/x]. *)
Definition folded_tree : FileTree :=
  tree_of (dir [("a", with_view (ViewInfo.mk true false) (dir [("b", leaf (fi 0))]));
                ("h", with_view (ViewInfo.mk false true) (dir [("i", leaf (fi 0))]));
                ("x", leaf (fi 0))]).

Lemma String_rows_witness :
  let rows := rows_between folded_tree 0 (Size folded_tree) in
  FileTree_String (fun _ => "") folded_tree false
  = middleItem +:+ collapsedItem +:+ "a" +:+ newLine
    +:+ lastItem +:+ uncollapsedItem +:+ "x" +:+ newLine
  /\ (exists p, rows_at ["a"] rows = [p] /\ loc_of p = ["a"]
                /\ foldr (fun (space : bool) acc =>
                            (if space then noBranchSpace else branchSpace) +:+ acc) "" p.(spaces)
                   +:+ (if p.(isLast) then lastItem else middleItem)
                   +:+ (if p.(showCollapsed) then collapsedItem else uncollapsedItem)
                   +:+ name_of (loc_of p) +:+ newLine
                   = foldr (fun (space : bool) acc =>
                              (if space then noBranchSpace else branchSpace) +:+ acc) "" p.(spaces)
                     +:+ (if p.(isLast) then lastItem else middleItem)
                     +:+ collapsedItem +:+ name_of ["a"] +:+ newLine
                /\ forall rest, rest <> [] -> rows_at (["a"] ++ rest) rows = [])
  /\ (exists p, rows_at ["a"] rows = [p]
                /\ node_at (Root folded_tree) ["a"] = Some (val_of p)
                /\ p.(showCollapsed)
                   = Collapsed (val_of p) && (0 <? size (Children (val_of p)))%nat)
  /\ rows_at (["a"] ++ ["b"]) rows = []
  /\ rows_at (["h"] ++ ["i"]) rows = []
  /\ (exists p, rows_at (["x"] ++ []) rows = [p]).
Proof.
  destruct (String_rows (fun _ => "") folded_tree false)
    as (Htext & Hglyph & Hone & _ & Hcollapsed & Hhidden & Hclear); [by vm_compute|].
  split; [rewrite Htext; vm_compute; reflexivity|].
  split.
  { apply (Hglyph ["a"] (with_view (ViewInfo.mk true false) (dir [("b", leaf (fi 0))])));
      [done|vm_compute; reflexivity|vm_compute; reflexivity|vm_compute; reflexivity|vm_compute; lia]. }
  split; [|split; [|split]].
  - apply Hone; [done|vm_compute; reflexivity].
  - eapply Hcollapsed; [vm_compute; reflexivity|vm_compute; reflexivity|done].
  - eapply Hhidden; [done|vm_compute; reflexivity|vm_compute; reflexivity].
  - apply (Hclear ["x"] (leaf (fi 0)) []);
      [vm_compute; reflexivity|vm_compute; reflexivity| |by eexists|done].
    intros [|k r] x; simpl; [by intros [= <-]|]. by rewrite lookup_empty.
Defined.

(** * Further properties of the operations of [tree.go] *)

(** ** More on paths as strings and on locations *)

Module StrsMore.
Import Strs StrsFacts.

Lemma Split_append_slash a b : Split (a +:+ String slash b) = Split a ++ Split b.
Proof.
  induction a as [|c r IH]; [done|].
  change (String c r +:+ String slash b) with (String c (r +:+ String slash b)).
  rewrite !Split_String, IH. destruct (Ascii.eqb c slash); [done|].
  apply cons_head_app, Split_nonnil.
Qed.

Lemma segments_append_slash a b :
  segments (a +:+ String slash b) = segments a ++ segments b.
Proof. by rewrite !segments_Split, Split_append_slash, List.filter_app. Qed.

Lemma append_assoc (a b c : string) : (a +:+ b) +:+ c = a +:+ (b +:+ c).
Proof.
  induction a as [|x a IH]; [done|].
  change (String x ((a +:+ b) +:+ c) = String x (a +:+ (b +:+ c))). by rewrite IH.
Qed.

Lemma append_empty_r (a : string) : a +:+ "" = a.
Proof.
  induction a as [|x a IH]; [done|].
  change (String x (a +:+ "") = String x a). by rewrite IH.
Qed.

End StrsMore.

Lemma alter_at_same f : forall loc root n,
  node_at root loc = Some n -> f n = n -> alter_at f loc root = root.
Proof.
  induction loc as [|k loc IH]; intros root n; simpl.
  - by intros [= ->].
  - destruct (Children root !! k) as [c|] eqn:E; [|done]. intros Hn Hf.
    destruct root as [d ch]. simpl in *. f_equal.
    apply alter_id. intros x Hx. rewrite E in Hx. injection Hx as <-. by eapply IH.
Qed.

Lemma alter_at_compose f g : forall loc root,
  alter_at g loc (alter_at f loc root) = alter_at (fun x => g (f x)) loc root.
Proof.
  induction loc as [|k loc IH]; intros root; simpl; [done|]. f_equal.
  apply map_eq. intros j. destruct (decide (k = j)) as [<-|Hne].
  - rewrite !lookup_alter_eq. destruct (Children root !! k); simpl; [|done]. by rewrite IH.
  - by rewrite !lookup_alter_ne.
Qed.

Lemma alter_at_app f : forall l1 l2 root,
  alter_at f (l1 ++ l2) root = alter_at (alter_at f l2) l1 root.
Proof.
  induction l1 as [|k l1 IH]; intros l2 root; simpl; [done|]. f_equal.
  apply alter_ext. intros x _. apply IH.
Qed.

(** What an alteration at [loc] leaves of the node at [target], when the
    altered node keeps what lies below it. *)
Lemma alter_at_data f loc root target n :
  (forall x rest m, node_at root loc = Some x -> node_at x rest = Some m -> rest <> [] ->
                    node_at (f x) rest = Some m) ->
  node_at root target = Some n ->
  exists n', node_at (alter_at f loc root) target = Some n'
             /\ (target <> loc -> Data n' = Data n)
             /\ (target = loc -> n' = f n).
Proof.
  intros Hf Hn.
  destruct (loc_cases loc target) as [[rest ->]|[[rest ->]|[H1 H2]]].
  - rewrite node_at_alter_at_below. rewrite node_at_app in Hn.
    destruct (node_at root loc) as [x|] eqn:E; simpl in *; [|done].
    destruct rest as [|k rest].
    + simpl in *. injection Hn as ->. exists (f n). rewrite app_nil_r. done.
    + rewrite (Hf x (k :: rest) n) by done. exists n. split; [done|]. split; [done|].
      intros H. rewrite <- (app_nil_r loc) in H at 2. by apply app_inv_head in H.
  - rewrite node_at_alter_at_above, Hn. simpl. eexists. split; [done|].
    destruct rest as [|k rest]; simpl.
    + rewrite app_nil_r. done.
    + split; [done|]. intros H. rewrite <- (app_nil_r target) in H at 1.
      by apply app_inv_head in H.
  - rewrite node_at_alter_at_apart by done. exists n. split; [done|]. split; [done|].
    intros ->. by destruct H1.
Qed.

Section PathMore.

Variable valid_name : string -> bool.
Import Strs StrsFacts.

(** The loop of [AddPath] over names that lead to nodes the tree has, more
    names being left: it walks down and changes nothing. *)
Lemma AddPath_loop_walk a : forall b idx len data node tree,
  forallb nonempty a = true -> b <> [] ->
  len = (idx + Z.of_nat (length (a ++ b)))%Z ->
  has (Root tree) (node ++ a) ->
  AddPath_loop valid_name (a ++ b) idx len data node tree
  = AddPath_loop valid_name b (idx + Z.of_nat (length a)) len data (node ++ a) tree.
Proof.
  induction a as [|n a IH]; intros b idx len data node tree Hne Hb Hlen Hhas.
  - simpl. by rewrite Z.add_0_r, app_nil_r.
  - simpl in Hne. apply andb_prop in Hne as [Hn Hne].
    change ((n :: a) ++ b) with (n :: (a ++ b)).
    rewrite AddPath_loop_cons by done. unfold AddPath_step.
    rewrite child_of_node_at.
    assert (is_Some (node_at (Root tree) (node ++ [n]))) as [c Hc].
    { apply (node_at_prefix _ _ a). by rewrite <- app_assoc. }
    rewrite Hc. rewrite (proj2 (Z.eqb_neq _ _)).
    2: { subst len. simpl length. rewrite length_app. destruct b; [done|]. simpl. lia. }
    rewrite IH; [|done|done|subst len; simpl length; lia|by rewrite <- app_assoc].
    rewrite <- app_assoc. f_equal. simpl length. lia.
Qed.

Lemma AddPath_loop_existing init name data idx node tree :
  forallb nonempty (init ++ [name]) = true ->
  has (Root tree) (node ++ init ++ [name]) ->
  AddPath_loop valid_name (init ++ [name]) idx
    (idx + Z.of_nat (length (init ++ [name])))%Z data node tree
  = (with_root (alter_at (set_FileInfo data) (node ++ init ++ [name])) tree,
     (Some (node ++ init ++ [name]), None)).
Proof.
  intros Hne Hhas. rewrite forallb_app in Hne. apply andb_prop in Hne as [Hi Hn].
  simpl in Hn. rewrite andb_true_r in Hn.
  rewrite AddPath_loop_walk; [|done|done|done|].
  2: { apply (node_at_prefix _ _ [name]). by rewrite <- app_assoc. }
  rewrite AddPath_loop_cons by done. unfold AddPath_step.
  rewrite child_of_node_at, <- app_assoc.
  destruct Hhas as [c Hc]. rewrite Hc.
  rewrite (proj2 (Z.eqb_eq _ _)) by (rewrite length_app; simpl; lia). done.
Qed.

Lemma AddPath_existing tree path data :
  segments path <> [] -> has (Root tree) (segments path) ->
  AddPath valid_name tree path data
  = (with_root (alter_at (set_FileInfo data) (segments path)) tree,
     (Some (segments path), None)).
Proof.
  intros Hne Hhas. rewrite AddPath_segments.
  destruct (exists_last Hne) as (init & name & Heq).
  pose proof (segments_nonempty path) as Hnames. rewrite Heq in *.
  by apply (AddPath_loop_existing init name data 0 [] tree).
Qed.

Lemma AddPath_nameless tree path data :
  segments path = [] -> AddPath valid_name tree path data = (tree, (Some [], None)).
Proof. intros H. by rewrite AddPath_segments, H. Qed.

Lemma attach_data (last : bool) data loc tree target n :
  node_at (Root tree) target = Some n ->
  exists n',
    node_at (Root (if last then with_root (alter_at (set_FileInfo data) loc) tree else tree)) target
    = Some n'
    /\ DiffType (Data n') = DiffType (Data n) /\ ViewInfo (Data n') = ViewInfo (Data n)
    /\ (last = false \/ target <> loc -> Data n' = Data n).
Proof.
  intros Hn. destruct last; [|by exists n]. simpl.
  destruct (alter_at_data (set_FileInfo data) loc (Root tree) target n) as (n' & Hn' & Hother & Hsame);
    [|done|].
  { intros x rest m _ Hm Hrest. destruct rest; [done|]. done. }
  exists n'. split; [done|]. destruct (decide (target = loc)) as [Heq|Hne].
  - rewrite (Hsame Heq). simpl. split; [done|]. split; [done|]. by intros [?|?].
  - rewrite (Hother Hne). done.
Qed.

Lemma AddPath_step_node name last data node tree tree' node' :
  AddPath_step valid_name name last data node tree = (tree', Some node') -> node' = node ++ [name].
Proof.
  unfold AddPath_step, AddChild. destruct (child_of _ _ _); [by intros [= _ <-]|].
  destruct (valid_name name); [by intros [= _ <-]|done].
Qed.

(** One turn of the loop of [AddPath] keeps every node the tree has, with
    its classification and view state, and its payload unless it is the end
    node. *)
Lemma AddPath_step_data name last data node tree tree' r target n :
  AddPath_step valid_name name last data node tree = (tree', r) ->
  node_at (Root tree) target = Some n ->
  exists n', node_at (Root tree') target = Some n'
    /\ DiffType (Data n') = DiffType (Data n) /\ ViewInfo (Data n') = ViewInfo (Data n)
    /\ (last = false \/ target <> node ++ [name] -> Data n' = Data n).
Proof.
  unfold AddPath_step. rewrite child_of_node_at.
  destruct (node_at (Root tree) (node ++ [name])) as [c|] eqn:E.
  - intros [= <- <-] Hn. by apply attach_data.
  - unfold AddChild. destruct (valid_name name); [|intros [= <- <-] Hn; by exists n].
    intros [= <- <-] Hn.
    destruct (alter_at_data (set_children (insert name (NewNode FileInfo.zero))) node
                (Root tree) target n) as (n1 & Hn1 & Hother & Hsame); [|done|].
    { intros x rest m Hx Hm Hrest. destruct rest as [|k rest]; [done|]. simpl in *.
      rewrite node_at_app, Hx in E. simpl in E.
      destruct (decide (name = k)) as [<-|Hne].
      - destruct (Children x !! name); done.
      - by rewrite lookup_insert_ne. }
    assert (Hd : Data n1 = Data n).
    { destruct (decide (target = node)) as [Heq|Hne]; [by rewrite (Hsame Heq)|auto]. }
    match goal with |- context [Root (if last then with_root _ ?t else _)] => set (mid := t) end.
    destruct (attach_data last data (node ++ [name]) mid target n1 Hn1)
      as (n' & Hn' & Hdiff & Hview & Hdata).
    exists n'. rewrite <- Hd. done.
Qed.

(** A node that one turn of the loop creates is the child it was looking
    for, and it is a leaf with the empty payload unless the payload of the
    path is attached to it. *)
Lemma AddPath_step_fresh name last data node tree tree' r target n' :
  AddPath_step valid_name name last data node tree = (tree', r) ->
  node_at (Root tree) target = None -> node_at (Root tree') target = Some n' ->
  target = node ++ [name] /\ (last = false -> n' = NewNode FileInfo.zero).
Proof.
  unfold AddPath_step. rewrite child_of_node_at.
  destruct (node_at (Root tree) (node ++ [name])) as [c|] eqn:E.
  - intros [= <- <-] Hnone Hn'. exfalso.
    assert (H : has (Root tree) target).
    { destruct last; [|unfold has; rewrite Hn'; eauto].
      apply (has_attach data (node ++ [name])). simpl in Hn'. unfold has. rewrite Hn'. eauto. }
    destruct H as [? H]. congruence.
  - unfold AddChild. destruct (valid_name name); [|intros [= <- <-]; congruence].
    intros [= <- <-] Hnone Hn'.
    match type of Hn' with context [Root (if last then with_root _ ?t else _)] => set (mid := t) in * end.
    assert (Hmid : has (Root mid) target).
    { destruct last; [|unfold has; rewrite Hn'; eauto].
      apply (has_attach data (node ++ [name]) mid). exists n'. exact Hn'. }
    subst mid. simpl in Hmid.
    apply (has_alter_at_gain _ (fun rest => rest = [name])) in Hmid.
    2: { intros x rest _ Hx. by apply has_insert_child in Hx. }
    destruct Hmid as [[? H]|(rest & -> & ->)]; [congruence|]. split; [done|].
    intros ->. simpl in Hn'. rewrite node_at_alter_at_below in Hn'.
    destruct (node_at (Root tree) node) as [x|]; simpl in Hn'; [|done].
    rewrite lookup_insert_eq in Hn'. by injection Hn' as <-.
Qed.

Lemma AddPath_loop_data names data : forall idx len node tree tree' res target n,
  forallb nonempty names = true -> len = (idx + Z.of_nat (length names))%Z ->
  AddPath_loop valid_name names idx len data node tree = (tree', res) ->
  node_at (Root tree) target = Some n ->
  exists n', node_at (Root tree') target = Some n'
    /\ DiffType (Data n') = DiffType (Data n) /\ ViewInfo (Data n') = ViewInfo (Data n)
    /\ (names = [] \/ target <> node ++ names -> Data n' = Data n).
Proof.
  induction names as [|n0 rest IH]; intros idx len node tree tree' res target n Hne Hlen Hrun Hn.
  - simpl in Hrun. injection Hrun as <- _. by exists n.
  - simpl in Hne. apply andb_prop in Hne as [Hn0 Hne].
    rewrite AddPath_loop_cons in Hrun by done.
    destruct (AddPath_step valid_name n0 (idx =? len - 1)%Z data node tree) as [mid r] eqn:Hstep.
    destruct (AddPath_step_data _ _ _ _ _ _ _ _ _ Hstep Hn) as (n1 & Hn1 & Hdiff1 & Hview1 & Hdata1).
    assert (Hkeep : target <> node ++ n0 :: rest -> Data n1 = Data n).
    { intros Hne'. apply Hdata1. destruct rest as [|n1' rest]; [by right|left].
      apply Z.eqb_neq. subst len. simpl length. lia. }
    destruct r as [node'|].
    + apply AddPath_step_node in Hstep as ->.
      destruct (IH (idx + 1)%Z len (node ++ [n0]) mid tree' res target n1 Hne) as
        (n' & Hn' & Hdiff & Hview & Hdata); [subst len; simpl length; lia|done|done|].
      exists n'. split; [done|]. split; [congruence|]. split; [congruence|].
      intros [?|Hne']; [done|]. rewrite Hdata, Hkeep; [done|done|].
      destruct rest as [|n1' rest]; [by left|right]. by rewrite <- app_assoc.
    + injection Hrun as <- _. exists n1. split; [done|]. split; [done|]. split; [done|].
      intros [?|Hne']; [done|]. auto.
Qed.

Lemma AddPath_loop_fresh names data : forall idx len node tree tree' res target n',
  forallb nonempty names = true -> len = (idx + Z.of_nat (length names))%Z ->
  AddPath_loop valid_name names idx len data node tree = (tree', res) ->
  node_at (Root tree) target = None -> node_at (Root tree') target = Some n' ->
  target <> node ++ names -> Data n' = Data (NewNode FileInfo.zero).
Proof.
  induction names as [|n0 rest IH]; intros idx len node tree tree' res target n' Hne Hlen Hrun Hnone Hn' Hend.
  - simpl in Hrun. injection Hrun as <- _. congruence.
  - simpl in Hne. apply andb_prop in Hne as [Hn0 Hne].
    rewrite AddPath_loop_cons in Hrun by done.
    destruct (AddPath_step valid_name n0 (idx =? len - 1)%Z data node tree) as [mid r] eqn:Hstep.
    assert (Hlast : rest <> [] -> (idx =? len - 1)%Z = false).
    { intros Hrest. apply Z.eqb_neq. subst len. destruct rest; [done|]. simpl length. lia. }
    destruct r as [node'|].
    + pose proof (AddPath_step_node _ _ _ _ _ _ _ Hstep) as ->.
      destruct (node_at (Root mid) target) as [n1|] eqn:Hmid.
      * destruct (AddPath_step_fresh _ _ _ _ _ _ _ _ _ Hstep Hnone Hmid) as [-> Hnew].
        assert (Hrest : rest <> []) by (intros ->; done).
        rewrite (Hnew (Hlast Hrest)) in Hmid.
        destruct (AddPath_loop_data rest data (idx + 1)%Z len (node ++ [n0]) mid tree' res
                    (node ++ [n0]) (NewNode FileInfo.zero) Hne) as (n2 & Hn2 & _ & _ & Hdata);
          [subst len; simpl length; lia|done|done|].
        rewrite Hn' in Hn2. injection Hn2 as <-. apply Hdata. right.
        rewrite <- (app_nil_r (node ++ [n0])) at 1. intros H. by apply app_inv_head in H.
      * eapply (IH (idx + 1)%Z len (node ++ [n0]) mid); [done|subst len; simpl length; lia|done|done|done|].
        by rewrite <- app_assoc.
    + injection Hrun as <- _.
      destruct (AddPath_step_fresh _ _ _ _ _ _ _ _ _ Hstep Hnone Hn') as [-> Hnew].
      assert (Hrest : rest <> []) by (intros ->; done).
      by rewrite (Hnew (Hlast Hrest)).
Qed.

End PathMore.

Section PathMore2.

Variable valid_name : string -> bool.
Import Strs StrsFacts.

(** The loop of [AddPath] over names [AddChild] accepts followed by one it
    refuses: the nodes made on the way stay. *)
Lemma AddPath_loop_refused pre : forall name post idx len data node tree,
  forallb nonempty (pre ++ name :: post) = true ->
  forallb valid_name pre = true -> valid_name name = false ->
  len = (idx + Z.of_nat (length (pre ++ name :: post)))%Z ->
  has (Root tree) node ->
  node_at (Root tree) (node ++ pre ++ [name]) = None ->
  exists tree',
    AddPath_loop valid_name (pre ++ name :: post) idx len data node tree
    = (tree', (None, Some (NodeCreationFailed name)))
    /\ has (Root tree') (node ++ pre)
    /\ (forall target, has (Root tree') target
                       <-> has (Root tree) target
                           \/ exists p, p `prefix_of` pre /\ target = node ++ p).
Proof.
  induction pre as [|p0 pre IH]; intros name post idx len data node tree Hne Hpre Hname Hlen Hnode Habsent.
  - simpl in Hne, Habsent. apply andb_prop in Hne as [Hn Hne].
    change ([] ++ name :: post) with (name :: post).
    rewrite AddPath_loop_cons by done. unfold AddPath_step.
    rewrite child_of_node_at, Habsent. unfold AddChild. rewrite Hname.
    exists tree. split; [done|]. rewrite app_nil_r. split; [done|].
    intros target. split; [auto|]. intros [H|(p & Hp & ->)]; [done|].
    apply prefix_nil_inv in Hp as ->. by rewrite app_nil_r.
  - simpl in Hne, Hpre. apply andb_prop in Hne as [Hn Hne]. apply andb_prop in Hpre as [Hp0 Hpre].
    change ((p0 :: pre) ++ name :: post) with (p0 :: (pre ++ name :: post)).
    rewrite AddPath_loop_cons by done.
    destruct (AddPath_step valid_name p0 (idx =? len - 1)%Z data node tree) as [mid r] eqn:Hstep.
    destruct (AddPath_step_cases _ _ _ _ _ _ _ _ Hnode Hstep)
      as [(_ & _ & Hv & _)|(-> & mid0 & Hmid & Heq)]; [congruence|].
    rewrite (proj2 (Z.eqb_neq idx (len - 1))) in Heq.
    2: { subst len. simpl length. rewrite length_app. simpl. lia. }
    subst mid0.
    destruct (IH name post (idx + 1)%Z len data (node ++ [p0]) mid) as (tree' & Hrun & Hhas & Hiff);
      [done|done|done|subst len; simpl length; lia|apply Hmid; by right| |].
    { apply eq_None_not_Some. intros Hsome. apply Hmid in Hsome as [[x Hx]|Heq].
      - rewrite <- app_assoc in Hx. simpl in *. congruence.
      - rewrite <- app_assoc in Heq. apply app_inv_head in Heq. simpl in Heq.
        injection Heq as Heq. by destruct pre. }
    exists tree'. split; [done|]. rewrite <- app_assoc in Hhas. split; [done|].
    intros target. rewrite Hiff, Hmid. split.
    + intros [[H| ->]|(p & Hp & ->)]; [by left| |].
      * right. exists [p0]. split; [|done]. by apply prefix_cons, prefix_nil.
      * right. exists (p0 :: p). split; [by apply prefix_cons|]. by rewrite <- app_assoc.
    + intros [H|(p & Hp & ->)]; [by left; left|].
      destruct p as [|p1 p]; [left; left; by rewrite app_nil_r|].
      apply prefix_cons_inv_1 in Hp as Heq. subst p1.
      apply prefix_cons_inv_2 in Hp.
      right. exists p. split; [done|]. by rewrite <- app_assoc.
Qed.

(** [AddPath] below an existing directory, for a name the directory does
    not have. *)
Lemma AddPath_new_leaf tree path data parent name :
  segments path = parent ++ [name] -> has (Root tree) parent ->
  node_at (Root tree) (parent ++ [name]) = None -> valid_name name = true ->
  AddPath valid_name tree path data
  = (with_root (alter_at (set_FileInfo data) (parent ++ [name]))
       (AddChild valid_name tree parent name FileInfo.zero).1,
     (Some (parent ++ [name]), None)).
Proof.
  intros Hseg Hparent Habsent Hname. rewrite AddPath_segments.
  pose proof (segments_nonempty path) as Hne. rewrite Hseg in *.
  rewrite forallb_app in Hne. apply andb_prop in Hne as [Hp Hn]. simpl in Hn.
  rewrite andb_true_r in Hn.
  rewrite AddPath_loop_walk; [|done|done|done|done]. simpl app.
  rewrite AddPath_loop_cons by done. unfold AddPath_step.
  rewrite child_of_node_at, Habsent. unfold AddChild. rewrite Hname.
  rewrite (proj2 (Z.eqb_eq _ _)) by (rewrite length_app; simpl; lia). done.
Qed.

End PathMore2.

(** ** Further properties of [GetNode], [AddPath] and [RemovePath] *)

Lemma found_iff tree q : (GetNode tree q).2 = None <-> has (Root tree) (Strs.segments q).
Proof.
  rewrite GetNode_spec. unfold has. destruct (node_at _ _); simpl; [split; eauto|].
  split; [done|]. intros [? ?]; done.
Qed.

(** X1: when [GetNode] finds the path [p/q], it finds [p] too, and the node
    of [p/q] is the one reached from the node of [p] along the names of
    [q]. *)
Theorem GetNode_finds_the_ancestors tree p q node :
  GetNode tree (p +:+ String Strs.slash q) = (Some node, None) ->
  GetNode tree p = (Some (Strs.segments p), None)
  /\ node = Strs.segments p ++ Strs.segments q.
Proof.
  rewrite !GetNode_spec, StrsMore.segments_append_slash.
  destruct (node_at _ (_ ++ _)) as [n|] eqn:E; [|done]. intros [= <-].
  destruct (node_at_prefix (Root tree) (Strs.segments p) (Strs.segments q)) as [x ->]; [|done].
  rewrite E. eauto.
Qed.

Lemma GetNode_finds_the_ancestors_witness :
  GetNode render_tree "/a" = (Some ["a"], None) /\ ["a"; "b"] = ["a"] ++ ["b"].
Proof.
  apply (GetNode_finds_the_ancestors render_tree "/a" "b" ["a"; "b"]).
  vm_compute. reflexivity.
Defined.

(** X2: on a path that is in the tree, [AddPath] creates nothing: it
    replaces the payload of the end node, returns that node, and leaves the
    other nodes, [Size], [FileSize] and [Name] as they were, whatever names
    [AddChild] refuses. *)
Theorem AddPath_existing_path_sets_payload_only valid_name tree path data :
  Strs.segments path <> [] -> has (Root tree) (Strs.segments path) ->
  AddPath valid_name tree path data
  = (mkTree (alter_at (set_FileInfo data) (Strs.segments path) (Root tree))
            (Size tree) (FileSize tree) (Name tree),
     (Some (Strs.segments path), None)).
Proof. apply AddPath_existing. Qed.

Lemma AddPath_existing_path_sets_payload_only_witness :
  AddPath refuse_opaque render_tree "/a/" (fi 7)
  = (mkTree (alter_at (set_FileInfo (fi 7)) ["a"] (Root render_tree)) 3 0 "",
     (Some ["a"], None)).
Proof.
  apply (AddPath_existing_path_sets_payload_only refuse_opaque render_tree "/a/" (fi 7));
    [vm_compute; discriminate|vm_compute; eauto].
Defined.

(** X3: after an [AddPath] that returned no error, [GetNode] finds exactly
    the paths it found before and the path added with its ancestors. *)
Theorem AddPath_adds_the_ancestors_only valid_name tree path data tree' newNode q :
  AddPath valid_name tree path data = (tree', (newNode, None)) ->
  (GetNode tree' q).2 = None
  <-> (GetNode tree q).2 = None \/ Strs.segments q `prefix_of` Strs.segments path.
Proof.
  intros Hadd. rewrite !found_iff.
  destruct (AddPath_facts _ _ _ _ _ _ _ Hadd) as (Hkeep & Hgain & Hok & _).
  destruct (Hok eq_refl) as (_ & Hend & _). split.
  - intros H. destruct (Hgain _ H) as [?|[_ ?]]; auto.
  - intros [H|[rest Hrest]]; [auto|]. apply (node_at_prefix _ _ rest). by rewrite <- Hrest.
Qed.

Lemma AddPath_adds_the_ancestors_only_witness :
  (GetNode (add NewFileTree "/a/b" (fi 10)) "/a").2 = None
  <-> (GetNode NewFileTree "/a").2 = None \/ Strs.segments "/a" `prefix_of` Strs.segments "/a/b".
Proof.
  apply (AddPath_adds_the_ancestors_only any_name NewFileTree "/a/b" (fi 10)
           (add NewFileTree "/a/b" (fi 10)) (Some ["a"; "b"]) "/a").
  vm_compute. reflexivity.
Defined.

(** What [AddPath] leaves of the nodes the tree has, and what the nodes it
    creates look like. *)
Lemma AddPath_data valid_name tree path data tree' newNode err :
  AddPath valid_name tree path data = (tree', (newNode, err)) ->
  (forall target n, node_at (Root tree) target = Some n ->
     exists n', node_at (Root tree') target = Some n'
       /\ DiffType (Data n') = DiffType (Data n) /\ ViewInfo (Data n') = ViewInfo (Data n)
       /\ (target <> Strs.segments path -> FileInfo (Data n') = FileInfo (Data n)))
  /\ (forall target n', node_at (Root tree) target = None ->
        node_at (Root tree') target = Some n' -> target <> Strs.segments path ->
        FileInfo (Data n') = FileInfo.zero).
Proof.
  rewrite AddPath_segments. intros Hrun. split.
  - intros target n Hn.
    destruct (AddPath_loop_data valid_name _ _ _ _ _ _ _ _ target n
                (segments_nonempty path) eq_refl Hrun Hn) as (n' & Hn' & Hdiff & Hview & Hdata).
    exists n'. split; [done|]. split; [done|]. split; [done|].
    intros Hne. rewrite Hdata; [done|]. by right.
  - intros target n' Hnone Hn' Hne.
    by rewrite (AddPath_loop_fresh valid_name _ _ _ _ _ _ _ _ target n'
                  (segments_nonempty path) eq_refl Hrun Hnone Hn' Hne).
Qed.

(** X4: whether it succeeds or not, [AddPath] keeps every node the tree
    has, with its classification and view state, and changes the payload of
    none but the end node of the path; a node it creates on the way to the
    end node has the empty payload. *)
Theorem AddPath_touches_one_payload valid_name tree path data tree' newNode err :
  AddPath valid_name tree path data = (tree', (newNode, err)) ->
  (forall target n, node_at (Root tree) target = Some n ->
     exists n', node_at (Root tree') target = Some n'
       /\ DiffType (Data n') = DiffType (Data n) /\ ViewInfo (Data n') = ViewInfo (Data n)
       /\ (target <> Strs.segments path -> FileInfo (Data n') = FileInfo (Data n)))
  /\ (forall target n', node_at (Root tree) target = None ->
        node_at (Root tree') target = Some n' -> target <> Strs.segments path ->
        FileInfo (Data n') = FileInfo.zero).
Proof. apply AddPath_data. Qed.

Lemma AddPath_touches_one_payload_witness :
  (exists n', node_at (Root (add NewFileTree "/a/b" (fi 10))) [] = Some n'
     /\ DiffType (Data n') = DiffType (Data (Root NewFileTree))
     /\ ViewInfo (Data n') = ViewInfo (Data (Root NewFileTree))
     /\ ([] <> Strs.segments "/a/b" -> FileInfo (Data n') = FileInfo (Data (Root NewFileTree))))
  /\ FileInfo (Data (dir [("b", leaf (fi 10))])) = FileInfo.zero.
Proof.
  destruct (AddPath_touches_one_payload any_name NewFileTree "/a/b" (fi 10)
              (add NewFileTree "/a/b" (fi 10)) (Some ["a"; "b"]) None) as [Hkeep Hnew];
    [vm_compute; reflexivity|].
  split; [apply Hkeep; vm_compute; reflexivity|].
  apply (Hnew ["a"]); [vm_compute; reflexivity|vm_compute; reflexivity|vm_compute; discriminate].
Defined.

(** X5: [AddPath] is not undone when it fails.  When [AddChild] refuses a
    name of the path, the names before it being accepted, [AddPath] returns
    a nil node with the error naming the refused name, and the nodes it
    created for the names before it are in the tree. *)
Theorem AddPath_failure_keeps_created_nodes valid_name tree path data pre name post :
  Strs.segments path = pre ++ name :: post ->
  forallb valid_name pre = true -> valid_name name = false ->
  node_at (Root tree) (pre ++ [name]) = None ->
  exists tree',
    AddPath valid_name tree path data = (tree', (None, Some (NodeCreationFailed name)))
    /\ has (Root tree') pre
    /\ (forall target, has (Root tree') target
                       <-> has (Root tree) target \/ target `prefix_of` pre).
Proof.
  intros Hseg Hpre Hname Habsent. rewrite AddPath_segments.
  pose proof (segments_nonempty path) as Hne. rewrite Hseg in *.
  destruct (AddPath_loop_refused valid_name pre name post 0
              (Z.of_nat (length (pre ++ name :: post))) data [] tree)
    as (tree' & Hrun & Hhas & Hiff); [done|done|done|done|by eexists|done|].
  exists tree'. split; [done|]. split; [done|]. intros target. rewrite Hiff.
  split; (intros [?|H]; [by left|right]).
  - by destruct H as (p & Hp & ->).
  - by exists target.
Qed.

Lemma AddPath_failure_keeps_created_nodes_witness :
  exists tree',
    AddPath refuse_opaque NewFileTree "/a/b/.wh..wh..x/c" (fi 1)
    = (tree', (None, Some (NodeCreationFailed ".wh..wh..x")))
    /\ has (Root tree') ["a"; "b"]
    /\ (forall target, has (Root tree') target
                       <-> has (Root NewFileTree) target \/ target `prefix_of` ["a"; "b"]).
Proof.
  apply (AddPath_failure_keeps_created_nodes refuse_opaque NewFileTree "/a/b/.wh..wh..x/c" (fi 1)
           ["a"; "b"] ".wh..wh..x" ["c"]); vm_compute; reflexivity.
Defined.

(** X6: repeating an [AddPath] that returned no error changes nothing and
    returns the same node. *)
Theorem AddPath_twice_is_once valid_name tree path data tree' newNode :
  AddPath valid_name tree path data = (tree', (newNode, None)) ->
  AddPath valid_name tree' path data = (tree', (newNode, None)).
Proof.
  intros Hadd. destruct (AddPath_facts _ _ _ _ _ _ _ Hadd) as (_ & _ & Hok & _).
  destruct (Hok eq_refl) as (-> & [n Hn] & Hpay).
  destruct (decide (Strs.segments path = [])) as [Hnil|Hne].
  - rewrite (AddPath_nameless _ _ _ _ Hnil). by rewrite Hnil.
  - rewrite AddPath_existing; [|done|by exists n]. f_equal.
    specialize (Hpay Hne). unfold payload_at in Hpay. rewrite Hn in Hpay. simpl in Hpay.
    injection Hpay as Hpay.
    unfold with_root. rewrite (alter_at_same _ _ _ n Hn); [by destruct tree'|].
    destruct n as [[f d v] ch]. simpl in *. by subst.
Qed.

Lemma AddPath_twice_is_once_witness :
  AddPath any_name (add NewFileTree "/a/b" (fi 10)) "/a/b" (fi 10)
  = (add NewFileTree "/a/b" (fi 10), (Some ["a"; "b"], None)).
Proof.
  apply (AddPath_twice_is_once any_name NewFileTree). vm_compute. reflexivity.
Defined.

(** X7: after a [RemovePath] that returned no error, [GetNode] fails for
    the path removed and for every path below it, and answers for every
    other path as it did. *)
Theorem RemovePath_removes_the_subtree tree path tree' q :
  RemovePath tree path = (tree', None) ->
  (GetNode tree' q).2 = None
  <-> (GetNode tree q).2 = None /\ ¬ Strs.segments path `prefix_of` Strs.segments q.
Proof.
  intros Hrm. rewrite !found_iff. split.
  - intros H. split; [by eapply RemovePath_shrinks|].
    intros [rest Hrest]. rewrite Hrest in H. by eapply RemovePath_gone.
  - intros [H Hout]. rewrite RemovePath_spec in Hrm.
    destruct (node_at (Root tree) (Strs.segments path)); [|done].
    by apply (Remove_elsewhere _ _ _ _ Hrm Hout).
Qed.

Lemma RemovePath_removes_the_subtree_witness :
  (GetNode (RemovePath render_tree "/a").1 "/a/b").2 = None
  <-> (GetNode render_tree "/a/b").2 = None
      /\ ¬ Strs.segments "/a" `prefix_of` Strs.segments "/a/b".
Proof.
  apply (RemovePath_removes_the_subtree render_tree "/a" (RemovePath render_tree "/a").1 "/a/b").
  vm_compute. reflexivity.
Defined.

(** X8: adding a new entry to a directory of the tree and removing it again
    gives back the nodes the tree had. *)
Theorem AddPath_then_RemovePath_restores valid_name tree path data parent name :
  Strs.segments path = parent ++ [name] -> has (Root tree) parent ->
  node_at (Root tree) (parent ++ [name]) = None -> valid_name name = true ->
  exists added restored,
    AddPath valid_name tree path data = (added, (Some (parent ++ [name]), None))
    /\ RemovePath added path = (restored, None)
    /\ Root restored = Root tree.
Proof.
  intros Hseg Hparent Habsent Hname.
  rewrite (AddPath_new_leaf valid_name tree path data parent name) by done.
  eexists _, _. split; [reflexivity|].
  unfold AddChild. rewrite Hname. simpl.
  rewrite RemovePath_spec, Hseg. simpl.
  rewrite node_at_alter_at_eq, node_at_alter_at_below.
  destruct Hparent as [x Hx]. rewrite Hx. simpl. rewrite lookup_insert_eq. simpl.
  unfold Remove. rewrite split_last_snoc. split; [reflexivity|]. simpl.
  rewrite alter_at_app, !alter_at_compose.
  apply (alter_at_same _ _ _ x Hx).
  destruct x as [d ch]. unfold set_children. simpl. f_equal.
  rewrite node_at_app, Hx in Habsent. simpl in Habsent.
  assert (Hnone : ch !! name = None) by by destruct (ch !! name).
  apply map_eq. intros k. destruct (decide (name = k)) as [<-|Hne].
  - by rewrite lookup_delete_eq.
  - by rewrite lookup_delete_ne, lookup_alter_ne, lookup_insert_ne.
Qed.

Lemma AddPath_then_RemovePath_restores_witness :
  exists added restored,
    AddPath any_name render_tree "/a/new" (fi 9) = (added, (Some (["a"] ++ ["new"]), None))
    /\ RemovePath added "/a/new" = (restored, None)
    /\ Root restored = Root render_tree.
Proof.
  apply (AddPath_then_RemovePath_restores any_name render_tree "/a/new" (fi 9) ["a"] "new");
    [vm_compute; reflexivity|vm_compute; eauto|vm_compute; reflexivity|reflexivity].
Defined.

(** ** Further properties of [Stack], [Compare], [Copy] and [StackRange] *)

Lemma flat_map_nil {A B} (f : A -> list B) (l : list A) :
  (forall x, f x = []) -> flat_map f l = [].
Proof. intros H. induction l as [|x l IH]; simpl; [done|]. by rewrite H, IH. Qed.

Lemma run_visits_fixed visitor l tree :
  (forall v, v ∈ l -> visitor v tree = Done None tree) ->
  run_visits visitor l tree = Done None tree.
Proof.
  induction l as [|v l IH]; intros H; simpl; [done|]. unfold bind.
  rewrite H by (by left). apply IH. intros v' Hv'. apply H. by right.
Qed.

Lemma run_visits_ok visitor l :
  (forall v t, v ∈ l -> exists t', visitor v t = Done None t') ->
  forall tree, exists tree', run_visits visitor l tree = Done None tree'.
Proof.
  induction l as [|v l IH]; intros Hv tree; simpl; [by eexists|].
  unfold bind. destruct (Hv v tree) as (t & ->); [by left|].
  apply IH. intros v' t' Hin. apply Hv. by right.
Qed.

(** An invariant of the receiver that every visit keeps, failed or not,
    holds when the run returns. *)
Lemma run_visits_preserved visitor (I : FileTree -> Prop) l : forall tree e result,
  (forall v t e' t', v ∈ l -> visitor v t = Done e' t' -> I t -> I t') ->
  run_visits visitor l tree = Done e result -> I tree -> I result.
Proof.
  induction l as [|v l IH]; intros tree e result Hstep; simpl.
  - by intros [= _ <-].
  - unfold bind. destruct (visitor v tree) as [[e'|] t|] eqn:E; [| |done].
    + intros [= _ <-] Htree. eapply Hstep; [by left|done|done].
    + intros Hrun Htree. eapply IH; [|done|].
      * intros v' t1 e1 t2 Hin. apply Hstep. by right.
      * eapply Hstep; [by left|done|done].
Qed.

(** Names that are not whiteout entries. *)
Definition no_whiteout (name : string) : bool := negb (Strs.HasPrefix name whiteoutPrefix).

Lemma IsWhiteout_plain loc : forallb no_whiteout loc = true -> IsWhiteout loc = false.
Proof.
  unfold IsWhiteout, name_of. destruct (split_last loc) as [[dirs name]|] eqn:E; [|done].
  apply split_last_Some in E as ->. rewrite forallb_app. intros H.
  apply andb_prop in H as [_ H]. simpl in H. rewrite andb_true_r in H.
  by apply negb_true_iff in H.
Qed.

Lemma Stack_graft_plain valid_name loc x tree :
  forallb Strs.valid_segment loc = true -> forallb no_whiteout loc = true ->
  Strs.segments (Path loc) = loc
  /\ Stack_graft valid_name (loc, x) tree
     = match AddPath valid_name tree (Path loc) (FileInfo (Data x)) with
       | (tree', (None, Some e)) => Panic
       | (tree', (Some n, Some e)) => Done (Some (CannotAddNode (Path n) e)) tree'
       | (tree', (_, None)) => Done None tree'
       end.
Proof.
  intros Hseg Hplain. pose proof (IsWhiteout_plain _ Hplain) as Hw.
  split; [by apply segments_Path_plain|].
  unfold Stack_graft. simpl. rewrite Hw.
  destruct (AddPath _ _ _ _) as [t [[n|] [e|]]]; done.
Qed.

(** A visit of [Stack] for a node that the receiver has at the same place,
    with the same payload. *)
Lemma Stack_graft_present valid_name loc x tree :
  forallb Strs.valid_segment loc = true -> forallb no_whiteout loc = true ->
  node_at (Root tree) loc = Some x ->
  Stack_graft valid_name (loc, x) tree = Done None tree.
Proof.
  intros Hseg Hplain Hx.
  destruct (Stack_graft_plain valid_name loc x tree Hseg Hplain) as [Hpath ->].
  destruct (decide (loc = [])) as [->|Hne].
  - by rewrite AddPath_nameless.
  - rewrite AddPath_existing; rewrite Hpath; [|done|by exists x].
    f_equal. unfold with_root. rewrite (alter_at_same _ _ _ x Hx); [by destruct tree|].
    by destruct x as [[f d v] ch].
Qed.

(** X9: stacking a layer that holds nothing but its root changes nothing
    and returns no error. *)
Theorem Stack_childless_upper_changes_nothing valid_name child_order upper tree :
  Children (Root upper) = ∅ -> Stack valid_name child_order upper tree = Done None tree.
Proof.
  intros Hempty. rewrite Stack_run, postorder_unfold, Hempty.
  rewrite flat_map_nil by (intros; by rewrite lookup_empty).
  apply run_visits_fixed. intros v ->%list_elem_of_singleton.
  reflexivity.
Qed.

Lemma Stack_childless_upper_changes_nothing_witness :
  Stack any_name sorted_keys NewFileTree render_tree = Done None render_tree.
Proof. by apply Stack_childless_upper_changes_nothing. Defined.

Lemma Stack_same_nodes valid_name child_order upper tree :
  all_names Strs.valid_segment (Root upper) = true ->
  all_names no_whiteout (Root upper) = true ->
  Root tree = Root upper ->
  Stack valid_name child_order upper tree = Done None tree.
Proof.
  intros Hseg Hplain Hroot. rewrite Stack_run. apply run_visits_fixed.
  intros [loc x] Hv. destruct (postorder_sound _ _ _ _ Hv) as (rest & Hloc & Hx).
  simpl in Hloc, Hx. subst rest.
  apply Stack_graft_present; [by eapply all_names_at|by eapply all_names_at|by rewrite Hroot].
Qed.

(** X10: stacking a layer without whiteout entries onto a tree that has
    the same nodes changes nothing and returns no error; no name is handed
    to [AddChild]. *)
Theorem Stack_onto_itself_changes_nothing valid_name child_order upper tree :
  all_names Strs.valid_segment (Root upper) = true ->
  all_names no_whiteout (Root upper) = true ->
  Root tree = Root upper ->
  Stack valid_name child_order upper tree = Done None tree.
Proof. apply Stack_same_nodes. Qed.

Lemma Stack_onto_itself_changes_nothing_witness :
  Stack refuse_opaque sorted_keys render_tree render_tree = Done None render_tree.
Proof.
  apply Stack_onto_itself_changes_nothing; vm_compute; reflexivity.
Defined.

Lemma Copy_node_same : forall n, Copy_node n = n.
Proof.
  intros n; pattern n; apply FileNode_children_ind; clear n; intros [d ch] IH.
  simpl. f_equal. apply map_eq. intros k. rewrite lookup_fmap.
  destruct (ch !! k) as [c|] eqn:E; simpl; [|done]. f_equal. by eapply IH.
Qed.

(** X11: [StackRange(trees, 0, 0)] stacks the first layer onto its own
    copy; for a first layer without whiteout entries the result is that
    copy, and nothing is logged. *)
Theorem StackRange_first_layer_alone valid_name child_order first rest :
  all_names Strs.valid_segment (Root first) = true ->
  all_names no_whiteout (Root first) = true ->
  StackRange valid_name child_order (first :: rest) 0 0 = Done [] (Copy first).
Proof.
  intros Hseg Hplain. unfold StackRange. simpl. unfold bind.
  rewrite Stack_same_nodes; [done|done|done|].
  simpl. apply Copy_node_same.
Qed.

Lemma StackRange_first_layer_alone_witness :
  StackRange refuse_opaque sorted_keys [render_tree; layer_wh_foo] 0 0 = Done [] (Copy render_tree).
Proof. apply StackRange_first_layer_alone; vm_compute; reflexivity. Defined.

Lemma Stack_graft_adds valid_name loc x t :
  forallb (addable valid_name) loc = true -> forallb no_whiteout loc = true ->
  exists t', Stack_graft valid_name (loc, x) t = Done None t'
    /\ AddPath valid_name t (Path loc) (FileInfo (Data x)) = (t', (Some loc, None))
    /\ Strs.segments (Path loc) = loc.
Proof.
  intros Hadd Hplain. destruct (forallb_addable _ _ Hadd) as [Hseg Hvalid].
  destruct (Stack_graft_plain valid_name loc x t Hseg Hplain) as [Hpath Hgraft].
  destruct (AddPath valid_name t (Path loc) (FileInfo (Data x))) as [t' [r err]] eqn:Hrun.
  destruct (AddPath_facts _ _ _ _ _ _ _ Hrun) as (_ & _ & Hok & _ & Hval).
  rewrite Hpath in *. specialize (Hval Hvalid). subst err. destruct (Hok eq_refl) as (-> & _).
  exists t'. by rewrite Hgraft.
Qed.

Lemma payload_has root loc d : payload_at root loc = Some d -> has root loc.
Proof. unfold payload_at, has. destruct (node_at root loc); [eauto|done]. Qed.

Lemma AddPath_payload_elsewhere valid_name t path data t' r err loc :
  AddPath valid_name t path data = (t', (r, err)) ->
  loc <> Strs.segments path -> has (Root t) loc ->
  payload_at (Root t') loc = payload_at (Root t) loc.
Proof.
  intros Hadd Hne [n Hn]. destruct (AddPath_data _ _ _ _ _ _ _ Hadd) as [Hkeep _].
  destruct (Hkeep loc n Hn) as (n' & Hn' & _ & _ & Hdata).
  unfold payload_at. rewrite Hn, Hn'. simpl. f_equal. auto.
Qed.

(** The merge [Stack] makes of two trees when the upper one has no whiteout
    entries and names [AddPath] can add. *)
Lemma Stack_merge valid_name child_order lower upper :
  (forall m, child_order m ≡ₚ keys m) ->
  all_names (addable valid_name) (Root upper) = true ->
  all_names no_whiteout (Root upper) = true ->
  exists merged,
    Stack valid_name child_order upper lower = Done None merged
    /\ (forall loc x, loc <> [] -> node_at (Root upper) loc = Some x ->
          payload_at (Root merged) loc = Some (FileInfo (Data x)))
    /\ (forall loc, has (Root merged) loc <-> has (Root lower) loc \/ has (Root upper) loc)
    /\ (forall loc, has (Root lower) loc -> ¬ has (Root upper) loc ->
          payload_at (Root merged) loc = payload_at (Root lower) loc).
Proof.
  intros Horder Hadd Hplain.
  remember (postorder child_order (Root upper) []) as l eqn:Hl.
  assert (Hin : forall v, v ∈ l -> node_at (Root upper) v.1 = Some v.2
            /\ forallb (addable valid_name) v.1 = true /\ forallb no_whiteout v.1 = true).
  { intros v Hv. rewrite Hl in Hv.
    destruct (postorder_sound _ _ _ _ Hv) as (rest & Hloc & Hx). simpl in Hloc. subst rest.
    split; [done|]. split; by eapply all_names_at. }
  assert (Hstep : forall v t, v ∈ l -> exists t',
             Stack_graft valid_name v t = Done None t'
             /\ AddPath valid_name t (Path v.1) (FileInfo (Data v.2)) = (t', (Some v.1, None))
             /\ Strs.segments (Path v.1) = v.1).
  { intros [loc x] t Hv. destruct (Hin _ Hv) as (_ & ? & ?). by apply Stack_graft_adds. }
  assert (Hvisit : forall v t t', v ∈ l -> Stack_graft valid_name v t = Done None t' ->
             AddPath valid_name t (Path v.1) (FileInfo (Data v.2)) = (t', (Some v.1, None))
             /\ Strs.segments (Path v.1) = v.1).
  { intros v t t' Hv Hg. destruct (Hstep v t Hv) as (t1 & Hg1 & ? & ?).
    rewrite Hg1 in Hg. by injection Hg as <-. }
  destruct (run_visits_ok (Stack_graft valid_name) l) with (tree := lower) as [merged Hrun].
  { intros v t Hv. destruct (Hstep v t Hv) as (t' & ? & _). eauto. }
  exists merged. rewrite Stack_run, <- Hl. split; [done|].
  assert (Hkeep : forall loc, has (Root lower) loc -> has (Root merged) loc).
  { intros loc Hloc. eapply (run_visits_invariant _ (fun t => has (Root t) loc)); [|exact Hrun|done].
    intros v t t' Hv Hg Ht. destruct (Hvisit v t t' Hv Hg) as [Hadd1 _].
    by apply (AddPath_facts _ _ _ _ _ _ _ Hadd1). }
  assert (Hpay : forall loc x, loc <> [] -> node_at (Root upper) loc = Some x ->
            payload_at (Root merged) loc = Some (FileInfo (Data x))).
  { intros loc x Hloc Hx.
    pose proof (postorder_complete child_order Horder _ _ [] _ Hx) as Hmem. simpl in Hmem.
    rewrite <- Hl in Hmem. apply list_elem_of_split in Hmem as (before & after & Hsplit).
    pose proof Hrun as Hrun'. rewrite Hsplit in Hrun'.
    apply run_visits_split in Hrun' as (reached & _ & Hrest).
    simpl in Hrest. unfold bind in Hrest.
    destruct (Hstep (loc, x) reached) as (t1 & Hg & Hadd1 & Hpath).
    { rewrite Hsplit. apply elem_of_app. right. by left. }
    rewrite Hg in Hrest.
    eapply (run_visits_invariant _ (fun t => payload_at (Root t) loc = Some (FileInfo (Data x))));
      [|exact Hrest|].
    - intros [loc' x'] t t' Hv Hg' Ht.
      assert (Hv' : (loc', x') ∈ l).
      { rewrite Hsplit. apply elem_of_app. right. by right. }
      destruct (Hvisit _ t t' Hv' Hg') as [Hadd2 Hpath2]. simpl in *.
      destruct (decide (loc' = loc)) as [->|Hne].
      + destruct (Hin _ Hv') as (Hx' & _). simpl in Hx'. rewrite Hx in Hx'. injection Hx' as <-.
        destruct (AddPath_facts _ _ _ _ _ _ _ Hadd2) as (_ & _ & Hok & _).
        destruct (Hok eq_refl) as (_ & _ & Hp). rewrite Hpath2 in Hp. by apply Hp.
      + rewrite (AddPath_payload_elsewhere _ _ _ _ _ _ _ loc Hadd2); [done| |by eapply payload_has].
        rewrite Hpath2. congruence.
    - simpl in *. destruct (AddPath_facts _ _ _ _ _ _ _ Hadd1) as (_ & _ & Hok & _).
      destruct (Hok eq_refl) as (_ & _ & Hp). rewrite Hpath in Hp. by apply Hp. }
  split; [done|]. split.
  - intros loc. split.
    + revert loc.
      eapply (run_visits_invariant _
                (fun t => forall loc, has (Root t) loc -> has (Root lower) loc \/ has (Root upper) loc));
        [|exact Hrun|auto].
      intros [loc' x'] t t' Hv Hg Ht loc Hloc.
      destruct (Hin _ Hv) as (Hx' & Hnames & _). simpl in *.
      destruct (forallb_addable _ _ Hnames) as [Hseg _].
      destruct (Stack_graft_gain _ _ _ _ _ _ Hseg Hg Hloc) as [?|[more ->]]; [auto|].
      right. eapply node_at_prefix. rewrite Hx'. eauto.
    + intros [H|[x Hx]]; [auto|]. destruct (decide (loc = [])) as [->|Hne]; [by eexists|].
      eapply payload_has. by apply Hpay.
  - intros loc Hlower Hupper.
    eapply (run_visits_invariant _
              (fun t => has (Root t) loc /\ payload_at (Root t) loc = payload_at (Root lower) loc));
      [|exact Hrun|done].
    intros [loc' x'] t t' Hv Hg [Ht Hp].
    destruct (Hvisit _ t t' Hv Hg) as [Hadd1 Hpath1]. simpl in *.
    split; [by apply (AddPath_facts _ _ _ _ _ _ _ Hadd1)|].
    rewrite <- Hp. apply (AddPath_payload_elsewhere _ _ _ _ _ _ _ loc Hadd1); [|done].
    rewrite Hpath1. intros ->. apply Hupper. destruct (Hin _ Hv) as (Hx' & _). simpl in Hx'.
    unfold has. rewrite Hx'. eauto.
Qed.

(** X12: stacking a layer without whiteout entries, all of whose names
    [AddPath] can add, returns no error; the merged tree has the nodes of
    both trees and no other, every node of the layer but its root with the
    payload the layer gives it, and every other node with the payload it
    had. *)
Theorem Stack_upper_wins valid_name child_order lower upper :
  (forall m, child_order m ≡ₚ keys m) ->
  all_names (addable valid_name) (Root upper) = true ->
  all_names no_whiteout (Root upper) = true ->
  exists merged,
    Stack valid_name child_order upper lower = Done None merged
    /\ (forall loc x, loc <> [] -> node_at (Root upper) loc = Some x ->
          payload_at (Root merged) loc = Some (FileInfo (Data x)))
    /\ (forall loc, has (Root merged) loc <-> has (Root lower) loc \/ has (Root upper) loc)
    /\ (forall loc, has (Root lower) loc -> ¬ has (Root upper) loc ->
          payload_at (Root merged) loc = payload_at (Root lower) loc).
Proof. apply Stack_merge. Qed.

Lemma Stack_upper_wins_witness :
  exists merged,
    Stack any_name sorted_keys render_tree layer_foo = Done None merged
    /\ (forall loc x, loc <> [] -> node_at (Root render_tree) loc = Some x ->
          payload_at (Root merged) loc = Some (FileInfo (Data x)))
    /\ (forall loc, has (Root merged) loc <-> has (Root layer_foo) loc \/ has (Root render_tree) loc)
    /\ (forall loc, has (Root layer_foo) loc -> ¬ has (Root render_tree) loc ->
          payload_at (Root merged) loc = payload_at (Root layer_foo) loc).
Proof.
  apply (Stack_upper_wins any_name sorted_keys layer_foo render_tree);
    [apply sorted_keys_keys|vm_compute; reflexivity|vm_compute; reflexivity].
Defined.

(** What [Compare] may do to a node of the receiver: it stays where it is
    with its payload and view state, and its classification is not
    lowered. *)
Definition annotated (t t' : FileTree) : Prop :=
  forall loc n, node_at (Root t) loc = Some n ->
    exists n', node_at (Root t') loc = Some n'
      /\ FileInfo (Data n') = FileInfo (Data n) /\ ViewInfo (Data n') = ViewInfo (Data n)
      /\ (DiffType.severity (DiffType (Data n)) <= DiffType.severity (DiffType (Data n')))%nat.

Lemma annotated_refl t : annotated t t.
Proof. intros loc n Hn. exists n. done. Qed.

Lemma annotated_trans t1 t2 t3 : annotated t1 t2 -> annotated t2 t3 -> annotated t1 t3.
Proof.
  intros H12 H23 loc n Hn. destruct (H12 loc n Hn) as (n2 & Hn2 & Hf2 & Hv2 & Hs2).
  destruct (H23 loc n2 Hn2) as (n3 & Hn3 & Hf3 & Hv3 & Hs3).
  exists n3. split; [done|]. split; [congruence|]. split; [congruence|]. lia.
Qed.

Lemma severity_combine a b :
  (DiffType.severity a <= DiffType.severity (DiffType.combine a b))%nat.
Proof. destruct a, b; simpl; lia. Qed.

Lemma AssignDiffType_annotated t node d : annotated t (AssignDiffType t node d).1.
Proof.
  intros loc n Hn. unfold AssignDiffType. simpl.
  destruct (alter_at_data (fun n => set_DiffType (DiffType.combine (DiffType (Data n)) d) n)
              node (Root t) loc n) as (n' & Hn' & Hother & Hsame); [|done|].
  { intros x rest m _ Hm Hrest. by destruct rest. }
  exists n'. split; [done|]. destruct (decide (loc = node)) as [Heq|Hne].
  - rewrite (Hsame Heq). simpl. split; [done|]. split; [done|]. apply severity_combine.
  - by rewrite (Hother Hne).
Qed.

Lemma deriveDiffType_annotated t node d : annotated t (deriveDiffType t node d).1.
Proof.
  unfold deriveDiffType. destruct (node_at (Root t) node); [|apply annotated_refl].
  apply AssignDiffType_annotated.
Qed.

Lemma markRemoved_annotated t path : annotated t (markRemoved t path).1.
Proof.
  unfold markRemoved. destruct (GetNode t path) as [[node|] [e|]]; try apply annotated_refl.
  apply AssignDiffType_annotated.
Qed.

Lemma AddPath_annotated valid_name t path data t' r err :
  AddPath valid_name t path data = (t', (r, err)) ->
  node_at (Root t) (Strs.segments path) = None -> annotated t t'.
Proof.
  intros Hadd Hnone loc n Hn. destruct (AddPath_data _ _ _ _ _ _ _ Hadd) as [Hkeep _].
  destruct (Hkeep loc n Hn) as (n' & Hn' & Hd & Hv & Hf).
  exists n'. split; [done|]. split; [|split; [done|by rewrite Hd]].
  apply Hf. intros ->. congruence.
Qed.

Lemma Compare_graft_annotated valid_name v t e t' :
  Compare_graft valid_name v t = Done e t' -> annotated t t'.
Proof.
  unfold Compare_graft. destruct (IsWhiteout v.1).
  - pose proof (markRemoved_annotated t (Path v.1)) as H.
    destruct (markRemoved t (Path v.1)) as [t1 [e1|]]; by intros [= _ <-].
  - rewrite GetNode_spec. destruct (node_at (Root t) (Strs.segments (Path v.1))) as [l|] eqn:E; simpl.
    + rewrite E. pose proof (deriveDiffType_annotated t (Strs.segments (Path v.1)) (compare l v.2)) as H.
      destruct (deriveDiffType _ _ _) as [t1 e1]. by intros [= _ <-].
    + destruct (AddPath valid_name t (Path v.1) (FileInfo (Data v.2))) as [t1 [r [e1|]]] eqn:Hadd.
      * intros [= _ <-]. by eapply AddPath_annotated.
      * destruct r as [n|]; [|done]. intros [= _ <-].
        eapply annotated_trans; [by eapply AddPath_annotated|apply AssignDiffType_annotated].
Qed.

Lemma Compare_annotated valid_name child_order upper lower err result :
  Compare valid_name child_order upper lower = Done err result -> annotated lower result.
Proof.
  rewrite Compare_run. intros Hrun.
  eapply (run_visits_preserved _ (annotated lower)); [|exact Hrun|apply annotated_refl].
  intros v t e' t' _ Hg Ht. eapply annotated_trans; [done|]. by eapply Compare_graft_annotated.
Qed.

(** X13: whether it fails or not, [Compare] only annotates: every node of
    the receiver is still there when it returns, with its payload and view
    state, and with a classification that is not below the one it had;
    whiteout entries of [upper] remove nothing. *)
Theorem Compare_only_annotates valid_name child_order upper lower err result loc n :
  Compare valid_name child_order upper lower = Done err result ->
  node_at (Root lower) loc = Some n ->
  exists n', node_at (Root result) loc = Some n'
    /\ FileInfo (Data n') = FileInfo (Data n) /\ ViewInfo (Data n') = ViewInfo (Data n)
    /\ (DiffType.severity (DiffType (Data n)) <= DiffType.severity (DiffType (Data n')))%nat.
Proof. intros Hrun. by apply (Compare_annotated _ _ _ _ _ _ Hrun). Qed.

Lemma Compare_only_annotates_witness :
  exists n',
    node_at (Root (merged_or layer_foo (Compare any_name sorted_keys layer_wh_foo layer_foo))) ["foo"]
    = Some n'
    /\ FileInfo (Data n') = FileInfo (Data (leaf (fi 1)))
    /\ ViewInfo (Data n') = ViewInfo (Data (leaf (fi 1)))
    /\ (DiffType.severity (DiffType (Data (leaf (fi 1)))) <= DiffType.severity (DiffType (Data n')))%nat.
Proof.
  apply (Compare_only_annotates any_name sorted_keys layer_wh_foo layer_foo None);
    vm_compute; reflexivity.
Defined.

(** X14: when [Compare] returns no error and [upper] has a whiteout entry
    [.wh.foo] in a directory, the receiver has [foo] in that directory when
    [Compare] returns, classified [Removed]. *)
Theorem Compare_whiteout_marks_removed valid_name child_order lower upper dirs foo result :
  (forall m, child_order m ≡ₚ keys m) ->
  all_names Strs.valid_segment (Root upper) = true ->
  Strs.valid_segment foo = true ->
  is_Some (node_at (Root upper) (dirs ++ [whiteoutPrefix +:+ foo])) ->
  Compare valid_name child_order upper lower = Done None result ->
  diff_at result (dirs ++ [foo]) = Some DiffType.Removed.
Proof.
  intros Horder Hnames Hfoo [x Hwh] Hrun.
  assert (Hshadowed : forallb Strs.valid_segment (dirs ++ [foo]) = true).
  { pose proof (all_names_at _ _ _ _ Hnames Hwh) as H.
    rewrite forallb_app in H. apply andb_prop in H as [Hd _].
    rewrite forallb_app, Hd. simpl. by rewrite Hfoo. }
  rewrite Compare_run in Hrun.
  pose proof (postorder_complete child_order Horder _ _ [] _ Hwh) as Hin. simpl in Hin.
  apply list_elem_of_split in Hin as (before & after & Hsplit). rewrite Hsplit in Hrun.
  apply run_visits_split in Hrun as (reached & _ & Hrest).
  simpl in Hrest. unfold bind in Hrest.
  destruct (Compare_graft valid_name (dirs ++ [whiteoutPrefix +:+ foo], x) reached)
    as [[e|] marked|] eqn:Hg; [done| |done].
  assert (Hmarked : diff_at marked (dirs ++ [foo]) = Some DiffType.Removed).
  { unfold Compare_graft in Hg. simpl in Hg. rewrite IsWhiteout_prefixed in Hg.
    unfold markRemoved in Hg. rewrite GetNode_spec, segments_Path_whiteout in Hg by done.
    destruct (node_at (Root reached) (dirs ++ [foo])) as [n|] eqn:E; [|done].
    simpl in Hg. injection Hg as <-. unfold diff_at. simpl.
    rewrite node_at_alter_at_eq, E. simpl. f_equal.
    by destruct (DiffType (Data n)). }
  unfold diff_at in *.
  destruct (node_at (Root marked) (dirs ++ [foo])) as [n|] eqn:En; [|done].
  simpl in Hmarked. injection Hmarked as Hmarked.
  assert (Hann : annotated marked result).
  { eapply (run_visits_preserved _ (annotated marked)); [|exact Hrest|apply annotated_refl].
    intros v t e' t' _ Hg' Ht. eapply annotated_trans; [done|]. by eapply Compare_graft_annotated. }
  destruct (Hann _ _ En) as (n' & -> & _ & _ & Hsev). simpl. f_equal.
  rewrite Hmarked in Hsev. by destruct (DiffType (Data n')); simpl in Hsev; try lia.
Qed.

Lemma Compare_whiteout_marks_removed_witness :
  diff_at (merged_or layer_d_foo (Compare any_name sorted_keys layer_d_wh_foo layer_d_foo)) (["d"] ++ ["foo"])
  = Some DiffType.Removed.
Proof.
  apply (Compare_whiteout_marks_removed any_name sorted_keys layer_d_foo layer_d_wh_foo ["d"] "foo").
  - apply sorted_keys_keys.
  - vm_compute; reflexivity.
  - vm_compute; reflexivity.
  - vm_compute; eauto.
  - vm_compute; reflexivity.
Defined.

(** ** The bounds of [StackRange] *)

Lemma StackRange_loop_out_of_range valid_name child_order trees : forall n idx logged tree i,
  (idx <= i < idx + Z.of_nat n)%Z -> index trees i = None ->
  StackRange_loop valid_name child_order trees n idx logged tree = Panic.
Proof.
  induction n as [|n IH]; intros idx logged tree i Hi Hnone; [lia|]. simpl.
  destruct (index trees idx) as [upper|] eqn:E; [|done]. unfold bind.
  destruct (Stack valid_name child_order upper tree) as [err tree'|]; [|done].
  apply (IH _ _ _ i); [|done]. destruct (decide (i = idx)) as [->|]; [congruence|lia].
Qed.

(** X16: over an empty range, [stop < start], [StackRange] reads no layer
    but the first and returns its copy, with nothing logged, whatever the
    two bounds are. *)
Theorem StackRange_empty_range valid_name child_order first rest start stop :
  (stop < start)%Z ->
  StackRange valid_name child_order (first :: rest) start stop = Done [] (Copy first).
Proof.
  intros H. unfold StackRange. simpl index.
  replace (Z.to_nat (stop - start + 1)) with 0%nat by lia. done.
Qed.

Lemma StackRange_empty_range_witness :
  StackRange any_name sorted_keys [layer_foo; layer_wh_foo] 7 (-3) = Done [] (Copy layer_foo).
Proof. apply StackRange_empty_range. lia. Defined.

(** X17: [StackRange] panics on an empty list of trees, and over a range
    that is not empty as soon as one of its bounds is not an index of the
    list. *)
Theorem StackRange_out_of_range_panics valid_name child_order trees start stop :
  trees = [] \/ ((start <= stop)%Z /\ ((start < 0)%Z \/ (Z.of_nat (length trees) <= stop)%Z)) ->
  StackRange valid_name child_order trees start stop = Panic.
Proof.
  intros [->|[Hrange Hout]]; [done|]. unfold StackRange.
  destruct (index trees 0) as [first|]; [|done].
  destruct Hout as [Hout|Hout].
  - apply (StackRange_loop_out_of_range _ _ _ _ _ _ _ start); [lia|].
    unfold index. by rewrite (proj2 (Z.ltb_lt _ _)).
  - apply (StackRange_loop_out_of_range _ _ _ _ _ _ _ stop); [lia|].
    unfold index. destruct (stop <? 0)%Z; [done|]. apply lookup_ge_None_2. lia.
Qed.

Lemma StackRange_out_of_range_panics_witness :
  StackRange any_name sorted_keys [layer_foo; layer_wh_foo] 0 2 = Panic.
Proof. apply StackRange_out_of_range_panics. right. simpl. lia. Defined.

(** ** Further properties of rendering *)

(** [FileTree.StringBetween]: its two bounds are unsigned and converted to
    [int], here as elsewhere an integer of 64 bits, before they are handed
    to [renderStringTreeBetween]. *)
Definition StringBetween (MetadataString : Visited -> string) (tree : FileTree)
    (start stop : Z) (showAttributes : bool) : string :=
  renderStringTreeBetween MetadataString tree (wrap_int start) (wrap_int stop) showAttributes.

Lemma rows_between_window tree startRow stopRow :
  rows_between tree startRow stopRow
  = window startRow stopRow 0 (preorder_rows [root_params tree]).
Proof. unfold rows_between. by rewrite render_loop_window. Qed.

Lemma window_nil startRow stopRow : forall l row,
  (stopRow < row \/ stopRow < startRow)%Z -> window startRow stopRow row l = [].
Proof.
  induction l as [|p l IH]; intros row H; simpl; [done|].
  destruct (row <=? stopRow)%Z eqn:E; [|done]. apply Z.leb_le in E.
  rewrite (proj2 (Z.leb_gt _ _)) by lia. simpl. apply IH. lia.
Qed.

Lemma window_start startRow startRow' stopRow : forall l row,
  (startRow <= row)%Z -> (startRow' <= row)%Z ->
  window startRow stopRow row l = window startRow' stopRow row l.
Proof.
  induction l as [|p l IH]; intros row H H'; simpl; [done|].
  destruct (row <=? stopRow)%Z; [|done].
  rewrite !(proj2 (Z.leb_le _ _)) by lia. f_equal. apply IH; lia.
Qed.

Lemma window_split startRow midRow stopRow : forall l row,
  (startRow <= midRow + 1)%Z -> (midRow <= stopRow)%Z ->
  window startRow stopRow row l
  = window startRow midRow row l ++ window (midRow + 1) stopRow row l.
Proof.
  induction l as [|p l IH]; intros row Hs Hm; simpl; [done|].
  destruct (row <=? midRow)%Z eqn:Emid.
  - apply Z.leb_le in Emid. rewrite (proj2 (Z.leb_le row stopRow)) by lia.
    rewrite (proj2 (Z.leb_gt (midRow + 1) row)) by lia. simpl.
    rewrite <- app_assoc. f_equal. by apply IH.
  - apply Z.leb_gt in Emid. simpl. destruct (row <=? stopRow)%Z; [|done].
    rewrite !(proj2 (Z.leb_le _ _)) by lia. f_equal. apply window_start; lia.
Qed.

Lemma window_length startRow stopRow : forall l row,
  (length (window startRow stopRow row l) <= Z.to_nat (stopRow - Z.max startRow row + 1))%nat.
Proof.
  induction l as [|p l IH]; intros row; simpl; [lia|].
  destruct (row <=? stopRow)%Z eqn:E; simpl; [|lia]. apply Z.leb_le in E.
  rewrite length_app. specialize (IH (row + 1)%Z).
  destruct (startRow <=? row)%Z eqn:Es; simpl.
  - apply Z.leb_le in Es. lia.
  - apply Z.leb_gt in Es. lia.
Qed.

Lemma window_subset startRow stopRow p : forall l row,
  p ∈ window startRow stopRow row l -> p ∈ l.
Proof.
  induction l as [|q l IH]; intros row; simpl; [done|].
  destruct (row <=? stopRow)%Z; [|by intros ?%elem_of_nil].
  rewrite elem_of_app. intros [H|H]; [|right; by eapply IH].
  destruct (startRow <=? row)%Z; [|by apply elem_of_nil in H].
  apply list_elem_of_singleton in H as ->. by left.
Qed.

Lemma foldl_append (g : renderParams -> string) : forall l acc,
  foldl (fun result p => result +:+ g p) acc l
  = acc +:+ foldl (fun result p => result +:+ g p) "" l.
Proof.
  induction l as [|p l IH]; intros acc; simpl.
  - by rewrite StrsMore.append_empty_r.
  - rewrite IH, (IH ("" +:+ g p)). change ("" +:+ g p) with (g p).
    by rewrite StrsMore.append_assoc.
Qed.

Section RenderMore.

Variable MetadataString : Visited -> string.

(** X18: a window that ends before it starts, or before the first row,
    renders as the empty string. *)
Theorem renderStringTreeBetween_empty_window tree startRow stopRow showAttributes :
  (stopRow < startRow \/ stopRow < 0)%Z ->
  renderStringTreeBetween MetadataString tree startRow stopRow showAttributes = "".
Proof.
  intros H. unfold renderStringTreeBetween.
  rewrite rows_between_window, window_nil; [done|lia].
Qed.

(** X19: adjacent windows concatenate: the rows [startRow .. stopRow] are
    the rows [startRow .. midRow] followed by the rows
    [midRow + 1 .. stopRow]. *)
Theorem renderStringTreeBetween_adjacent_windows tree startRow midRow stopRow showAttributes :
  (startRow <= midRow + 1)%Z -> (midRow <= stopRow)%Z ->
  renderStringTreeBetween MetadataString tree startRow stopRow showAttributes
  = renderStringTreeBetween MetadataString tree startRow midRow showAttributes
    +:+ renderStringTreeBetween MetadataString tree (midRow + 1) stopRow showAttributes.
Proof.
  intros Hs Hm. unfold renderStringTreeBetween.
  rewrite !rows_between_window, (window_split startRow midRow stopRow) by done.
  rewrite foldl_app. apply foldl_append.
Qed.

(** X20: [StringBetween] renders the window of its two bounds when they
    are below [2^63]; a [stop] from [2^63] on becomes a negative [int] and
    nothing is rendered. *)
Theorem StringBetween_bounds tree start stop showAttributes :
  (0 <= start < 2 ^ 64)%Z -> (0 <= stop < 2 ^ 64)%Z ->
  ((start < 2 ^ 63)%Z -> (stop < 2 ^ 63)%Z ->
     StringBetween MetadataString tree start stop showAttributes
     = renderStringTreeBetween MetadataString tree start stop showAttributes)
  /\ ((2 ^ 63 <= stop)%Z -> StringBetween MetadataString tree start stop showAttributes = "").
Proof.
  intros Hstart Hstop. unfold StringBetween, wrap_int. split.
  - intros H1 H2. by rewrite !Z.mod_small by lia; rewrite !Z.add_simpl_r.
  - intros H. unfold renderStringTreeBetween. rewrite rows_between_window, window_nil; [done|]. left.
    replace ((stop + 2 ^ 63) mod 2 ^ 64)%Z with (stop - 2 ^ 63)%Z; [lia|].
    apply Z.mod_unique with 1%Z; lia.
Qed.

End RenderMore.

Lemma renderStringTreeBetween_empty_window_witness :
  renderStringTreeBetween (fun _ => "") render_tree 2 1 false = "".
Proof. apply renderStringTreeBetween_empty_window. lia. Defined.

Lemma renderStringTreeBetween_adjacent_windows_witness :
  renderStringTreeBetween (fun _ => "") render_tree 0 2 true
  = renderStringTreeBetween (fun _ => "") render_tree 0 0 true
    +:+ renderStringTreeBetween (fun _ => "") render_tree (0 + 1) 2 true.
Proof. apply renderStringTreeBetween_adjacent_windows; lia. Defined.

Lemma StringBetween_bounds_witness :
  StringBetween (fun _ => "") render_tree 0 2 false
  = renderStringTreeBetween (fun _ => "") render_tree 0 2 false
  /\ StringBetween (fun _ => "") render_tree 0 (2 ^ 63) false = "".
Proof.
  split.
  - apply (StringBetween_bounds (fun _ => "") render_tree 0 2 false); lia.
  - apply (StringBetween_bounds (fun _ => "") render_tree 0 (2 ^ 63) false); lia.
Defined.

(** X21: a window holds at most [stopRow - startRow + 1] rows, and no more
    rows than the tree has nodes below its root. *)
Theorem rows_between_count tree startRow stopRow :
  (length (rows_between tree startRow stopRow) <= Z.to_nat (stopRow - startRow + 1))%nat
  /\ (length (rows_between tree startRow stopRow) < node_count (Root tree))%nat.
Proof.
  rewrite rows_between_window. split.
  - pose proof (window_length startRow stopRow (preorder_rows [root_params tree]) 0). lia.
  - assert (H : forall l row, (length (window startRow stopRow row l) <= length l)%nat).
    { induction l as [|p l IH]; intros row; simpl; [lia|].
      destruct (row <=? stopRow)%Z; simpl; [|lia]. rewrite length_app. specialize (IH (row + 1)%Z).
      destruct (startRow <=? row)%Z; simpl; lia. }
    specialize (H (preorder_rows [root_params tree]) 0%Z).
    assert (length (preorder_rows [root_params tree]) < node_count (Root tree))%nat; [|lia].
    simp preorder_rows. simpl. rewrite app_nil_r.
    pose proof (preorder_rows_length (childParams_of (root_params tree))).
    pose proof (childParams_of_weight (root_params tree)). simpl in *. lia.
Qed.

Lemma childParams_loop_collapsed p : Collapsed (val_of p) = true ->
  forall names idx, childParams_loop p idx names = [].
Proof.
  intros Hc. induction names as [|k names IH]; intros idx; simpl; [done|].
  fold (val_of p). destruct (Children (val_of p) !! k); [|apply IH].
  rewrite Hc, orb_true_r. apply IH.
Qed.

(** X22: when the root is collapsed, no row is rendered: every window of
    the tree is the empty string. *)
Theorem collapsed_root_renders_nothing MetadataString tree startRow stopRow showAttributes :
  Collapsed (Root tree) = true ->
  renderStringTreeBetween MetadataString tree startRow stopRow showAttributes = "".
Proof.
  intros Hc. unfold renderStringTreeBetween. rewrite rows_between_window.
  replace (preorder_rows [root_params tree]) with (@nil renderParams); [by destruct (0 <=? stopRow)%Z|].
  simp preorder_rows. simpl. unfold childParams_of.
  rewrite (childParams_loop_collapsed (root_params tree)) by done.
  simpl. by simp preorder_rows.
Qed.

Definition folded_root : FileTree :=
  mkTree (with_view (ViewInfo.mk true false) (Root render_tree)) 3 0 "".

Lemma collapsed_root_renders_nothing_witness :
  renderStringTreeBetween (fun _ => "") folded_root 0 3 false = "".
Proof. by apply collapsed_root_renders_nothing. Defined.

(** The place of a row among the sorted keys of its parent decides
    [isLast]. *)
Lemma childParams_loop_isLast p : forall names idx q,
  q ∈ childParams_loop p idx names ->
  exists i k, names !! i = Some k /\ q.(node).1 = loc_of p ++ [k]
              /\ q.(isLast)
                 = (idx + Z.of_nat i =? Z.of_nat (size (Children (val_of p))) - 1)%Z.
Proof.
  induction names as [|k names IH]; intros idx q; simpl; [by intros ?%elem_of_nil|].
  fold (val_of p).
  assert (Hrest : q ∈ childParams_loop p (idx + 1) names ->
            exists i k0, (k :: names) !! i = Some k0 /\ q.(node).1 = loc_of p ++ [k0]
              /\ q.(isLast)
                 = (idx + Z.of_nat i =? Z.of_nat (size (Children (val_of p))) - 1)%Z).
  { intros H. destruct (IH _ _ H) as (i & k0 & Hi & Hloc & Hlast).
    exists (S i), k0. split; [done|]. split; [done|]. rewrite Hlast. f_equal. lia. }
  destruct (Children (val_of p) !! k) as [c|]; [|done].
  destruct (Hidden c || Collapsed (val_of p)); [done|].
  intros [->|H]%elem_of_cons; [|auto].
  exists 0%nat, k. simpl. split; [done|]. split; [done|]. f_equal. lia.
Qed.

Lemma sorted_keys_length (m : gmap string FileNode) : length (sorted_keys m) = size m.
Proof.
  rewrite (Permutation_length (sorted_keys_Permutation m)). unfold keys.
  by rewrite length_fmap, length_map_to_list.
Qed.

Lemma childParams_of_isLast p q :
  q ∈ childParams_of p ->
  exists k, q.(node).1 = loc_of p ++ [k]
            /\ (q.(isLast) = true <-> last (sorted_keys (Children (val_of p))) = Some k).
Proof.
  intros H. destruct (childParams_loop_isLast _ _ _ _ H) as (i & k & Hi & Hloc & Hlast).
  exists k. split; [done|]. rewrite Hlast, Z.add_0_l, <- sorted_keys_length, last_lookup.
  fold (val_of p) in Hi. split.
  - intros Heq. apply Z.eqb_eq in Heq. rewrite <- Hi. f_equal. lia.
  - intros Hl. apply Z.eqb_eq.
    pose proof (NoDup_lookup _ _ _ _ (sorted_keys_NoDup _) Hi Hl).
    apply lookup_lt_Some in Hi. lia.
Qed.

(** X23: a row is drawn as the last of its siblings exactly when its name
    is the last of the sorted keys of its parent, hidden children counted:
    when the child that sorts last is hidden, no child of that node is drawn
    as the last. *)
Theorem isLast_is_last_sorted_key tree startRow stopRow p :
  p ∈ rows_between tree startRow stopRow ->
  exists dirs name parent,
    loc_of p = dirs ++ [name] /\ node_at (Root tree) dirs = Some parent
    /\ (p.(isLast) = true <-> last (sorted_keys (Children parent)) = Some name).
Proof.
  rewrite rows_between_window. intros Hp%window_subset.
  assert (Hroot : loc_of p <> []).
  { assert (Hloc : loc_of p ∈ loc_of <$> preorder_rows [root_params tree])
      by by apply list_elem_of_fmap_2.
    by apply preorder_rows_locs in Hloc as [? _]. }
  assert (Hinv : forall p, p ∈ preorder_rows [root_params tree] ->
    node_at (Root tree) (loc_of p) = Some (val_of p)
    /\ (loc_of p <> [] ->
        exists dirs name parent,
          loc_of p = dirs ++ [name] /\ node_at (Root tree) dirs = Some parent
          /\ (p.(isLast) = true <-> last (sorted_keys (Children parent)) = Some name)));
    [|by apply (Hinv p Hp)].
  clear p Hp Hroot.
  apply (preorder_rows_invariant (fun p =>
    node_at (Root tree) (loc_of p) = Some (val_of p)
    /\ (loc_of p <> [] ->
        exists dirs name parent,
          loc_of p = dirs ++ [name] /\ node_at (Root tree) dirs = Some parent
          /\ (p.(isLast) = true <-> last (sorted_keys (Children parent)) = Some name)))).
  - intros q r [Hq _] Hr.
    destruct (childParams_of_sound _ _ Hr) as (k & c & Hk & _ & _ & Hnode & _).
    destruct (childParams_of_isLast _ _ Hr) as (k' & Hloc & Hlast).
    destruct (node_eq _ _ _ Hnode) as [Hl Hv]. unfold loc_of in Hl at 1. rewrite Hloc in Hl.
    apply app_inv_head in Hl. injection Hl as ->.
    split.
    + unfold loc_of at 1. rewrite Hloc, Hv, node_at_app, Hq. simpl. by rewrite Hk.
    + intros _. exists (loc_of q), k, (val_of q). done.
  - intros q ->%list_elem_of_singleton. split; [done|]. done.
Qed.

(** [/a], and a hidden [/z] that sorts after it. *)
Definition hidden_last_tree : FileTree :=
  tree_of (dir [("a", leaf (fi 0)); ("z", with_view (ViewInfo.mk false true) (leaf (fi 0)))]).

Lemma isLast_is_last_sorted_key_witness :
  exists dirs name parent,
    ["a"] = dirs ++ [name] /\ node_at (Root hidden_last_tree) dirs = Some parent
    /\ (false = true <-> last (sorted_keys (Children parent)) = Some name).
Proof.
  apply (isLast_is_last_sorted_key hidden_last_tree 0 5
           (mkParams (["a"], leaf (fi 0)) [] [] false false)).
  vm_compute. by left.
Defined.

(** ** [Compare] always returns; the indentation of a row *)

Lemma Compare_graft_returns valid_name v t :
  exists err t', Compare_graft valid_name v t = Done err t'.
Proof.
  unfold Compare_graft. destruct (IsWhiteout v.1).
  - destruct (markRemoved t (Path v.1)) as [t1 [e1|]]; by eexists _, _.
  - rewrite GetNode_spec. destruct (node_at (Root t) (Strs.segments (Path v.1))) as [l|] eqn:E; simpl.
    + rewrite E. destruct (deriveDiffType _ _ _) as [t1 e1]. by eexists _, _.
    + destruct (AddPath valid_name t (Path v.1) (FileInfo (Data v.2))) as [t1 [r [e1|]]] eqn:Hadd.
      * by eexists _, _.
      * destruct (AddPath_facts _ _ _ _ _ _ _ Hadd) as (_ & _ & Hok & _).
        destruct (Hok eq_refl) as (-> & _). by eexists _, _.
Qed.

(** X24: [Compare] always returns, with an error or without: where [Stack]
    builds its message from the node [AddPath] returned, [Compare] builds it
    from the node of [upper] it is visiting, which is never nil. *)
Theorem Compare_never_panics valid_name child_order upper lower :
  exists err result, Compare valid_name child_order upper lower = Done err result.
Proof.
  rewrite Compare_run. apply run_visits_total. intros v t _. apply Compare_graft_returns.
Qed.

Lemma childParams_loop_fields p : forall names idx q,
  q ∈ childParams_loop p idx names ->
  exists k c, Children (val_of p) !! k = Some c
              /\ q.(node) = (loc_of p ++ [k], c)
              /\ q.(spaces) = p.(childSpaces)
              /\ q.(childSpaces)
                 = (if (0 <? size (Children c))%nat && negb (Collapsed c)
                    then p.(childSpaces) ++ [q.(isLast)] else p.(childSpaces)).
Proof.
  induction names as [|k names IH]; intros idx q; simpl; [by intros ?%elem_of_nil|].
  fold (val_of p). destruct (Children (val_of p) !! k) as [c|] eqn:E; [|apply IH].
  destruct (Hidden c || Collapsed (val_of p)); [apply IH|].
  intros [->|H]%elem_of_cons; [|by eapply IH].
  exists k, c. done.
Qed.

(** X25: the indentation of a row has one entry for each of its ancestors
    below the root. *)
Theorem indentation_is_the_depth tree startRow stopRow p :
  p ∈ rows_between tree startRow stopRow ->
  S (length p.(spaces)) = length (loc_of p).
Proof.
  rewrite rows_between_window. intros Hp%window_subset.
  assert (Hroot : loc_of p <> []).
  { assert (Hloc : loc_of p ∈ loc_of <$> preorder_rows [root_params tree])
      by by apply list_elem_of_fmap_2.
    by apply preorder_rows_locs in Hloc as [? _]. }
  assert (Hinv : forall p, p ∈ preorder_rows [root_params tree] ->
    (loc_of p <> [] -> S (length p.(spaces)) = length (loc_of p))
    /\ ((0 <? size (Children (val_of p)))%nat && negb (Collapsed (val_of p)) = true
        \/ loc_of p = [] -> length p.(childSpaces) = length (loc_of p)));
    [|by apply (Hinv p Hp)].
  clear p Hp Hroot.
  apply (preorder_rows_invariant (fun p =>
    (loc_of p <> [] -> S (length p.(spaces)) = length (loc_of p))
    /\ ((0 <? size (Children (val_of p)))%nat && negb (Collapsed (val_of p)) = true
        \/ loc_of p = [] -> length p.(childSpaces) = length (loc_of p)))).
  - intros q r [_ Hq] Hr.
    destruct (childParams_of_sound _ _ Hr) as (k0 & c0 & Hk0 & _ & Hc & _).
    destruct (childParams_loop_fields _ _ _ _ Hr) as (k & c & Hk & Hnode & Hsp & Hcs).
    destruct (node_eq _ _ _ Hnode) as [Hl Hv].
    assert (Hparent : length (childSpaces q) = length (loc_of q)).
    { apply Hq. left. rewrite Hc. simpl. rewrite andb_true_r. apply Nat.ltb_lt.
      assert (size (Children (val_of q)) <> 0%nat); [|lia].
      intros Hz%map_size_empty_iff. rewrite Hz in Hk. by rewrite lookup_empty in Hk. }
    rewrite Hl, Hv, Hsp, Hcs, length_app. simpl. split; [lia|].
    intros [H|H]; [|by destruct (loc_of q)]. rewrite H, length_app. simpl. lia.
  - intros q ->%list_elem_of_singleton. split; [done|]. done.
Qed.

Lemma indentation_is_the_depth_witness :
  S (length [false]) = length ["a"; "b"].
Proof.
  apply (indentation_is_the_depth render_tree 0 3
           (mkParams (["a"; "b"], leaf (fi 0)) [false] [false] false true)).
  vm_compute. right. by left.
Defined.

(** ** The order of a traversal, and directories new to [Compare] *)

Lemma flat_map_split {A B} (f : A -> list B) : forall names l1 v l2,
  flat_map f names = l1 ++ v :: l2 ->
  exists n1 n n2 a b, names = n1 ++ n :: n2 /\ f n = a ++ v :: b /\ l1 = flat_map f n1 ++ a.
Proof.
  induction names as [|n names IH]; intros l1 v l2 H; simpl in H.
  - by destruct l1.
  - assert (Hcases : (exists b, f n = l1 ++ v :: b)
                     \/ exists l1', l1 = f n ++ l1' /\ flat_map f names = l1' ++ v :: l2).
    { clear IH. revert l1 H. induction (f n) as [|z fn IHf]; intros l1 H; simpl in *.
      - right. by exists l1.
      - destruct l1 as [|z' l1]; simpl in H.
        + injection H as <- H. left. by exists fn.
        + injection H as <- H. destruct (IHf _ H) as [[b ->]|(l1' & -> & H')].
          * left. by exists b.
          * right. by exists l1'. }
    destruct Hcases as [[b Hb]|(l1' & -> & H')].
    + exists [], n, names, l1, b. done.
    + destruct (IH _ _ _ H') as (n1 & n' & n2 & a & b & -> & Hf & ->).
      exists (n :: n1), n', n2, a, b. split; [done|]. split; [done|]. simpl. by rewrite app_assoc.
Qed.

Lemma snoc_split {A} (l1 l2 F : list A) v z :
  l1 ++ v :: l2 = F ++ [z] -> (l1 = F /\ v = z /\ l2 = []) \/ exists l2', F = l1 ++ v :: l2'.
Proof.
  destruct (decide (l2 = [])) as [->|Hne].
  - intros H. apply app_inj_tail in H as [-> ->]. by left.
  - destruct (exists_last Hne) as (l2' & y & ->). intros H.
    change (l1 ++ v :: l2' ++ [y]) with (l1 ++ (v :: l2') ++ [y]) in H.
    rewrite app_assoc in H. apply app_inj_tail in H as [<- _]. right. by exists l2'.
Qed.

Section Order.

Variable child_order : gmap string FileNode -> list string.
Hypothesis child_order_keys : forall m, child_order m ≡ₚ keys m.

(** In the order of [VisitDepthChildFirst], a node that has a child comes
    after that child. *)
Lemma postorder_child_first : forall rest node loc0 l1 vx l2 x k c,
  postorder child_order node loc0 = l1 ++ (loc0 ++ rest, vx) :: l2 ->
  node_at node rest = Some x -> Children x !! k = Some c ->
  exists w, w ∈ l1 /\ w.1 = loc0 ++ rest ++ [k].
Proof.
  induction rest as [|k0 rest IH]; intros node loc0 l1 vx l2 x k c Hpost Hx Hk.
  - simpl in Hx. injection Hx as <-. rewrite app_nil_r in Hpost.
    pose proof (postorder_complete child_order child_order_keys [k] node loc0 c) as Hc.
    simpl in Hc. rewrite Hk in Hc. specialize (Hc eq_refl).
    rewrite postorder_unfold in Hpost, Hc. symmetry in Hpost.
    apply snoc_split in Hpost as [(-> & _ & _)|[l2' HF]].
    + apply elem_of_app in Hc as [Hc|Hc]; [by exists (loc0 ++ [k], c)|].
      apply list_elem_of_singleton in Hc. injection Hc as Hc _.
      rewrite <- (app_nil_r loc0) in Hc at 2. by apply app_inv_head in Hc.
    + exfalso.
      assert (Hin : forall F, F = l1 ++ (loc0, vx) :: l2' -> (loc0, vx) ∈ F)
        by (intros F ->; apply elem_of_app; right; by left).
      apply Hin in HF. clear Hin. rename HF into Hin.
      apply list_elem_of_In, in_flat_map in Hin as (name & _ & Hin).
      apply list_elem_of_In in Hin.
      destruct (Children node !! name) as [cn|]; [|by apply elem_of_nil in Hin].
      destruct (postorder_sound _ _ _ _ Hin) as (r & Hr & _). simpl in Hr.
      rewrite <- app_assoc in Hr.
      rewrite <- (app_nil_r loc0) in Hr at 1. by apply app_inv_head in Hr.
  - simpl in Hx. destruct (Children node !! k0) as [c0|] eqn:E0; [|done].
    rewrite postorder_unfold in Hpost. symmetry in Hpost.
    apply snoc_split in Hpost as [(_ & Heq & _)|[l2' HF]].
    { exfalso. injection Heq as Heq _.
      rewrite <- (app_nil_r loc0) in Heq at 2. by apply app_inv_head in Heq. }
    apply flat_map_split in HF as (n1 & n & n2 & a & b & _ & Hf & ->).
    destruct (Children node !! n) as [cn|] eqn:En; [|by destruct a].
    assert (Hin : (loc0 ++ k0 :: rest, vx) ∈ postorder child_order cn (loc0 ++ [n])).
    { rewrite Hf. apply elem_of_app. right. by left. }
    destruct (postorder_sound _ _ _ _ Hin) as (r & Hr & _). simpl in Hr.
    rewrite <- app_assoc in Hr. apply app_inv_head in Hr. simpl in Hr. injection Hr as <- _.
    rewrite E0 in En. injection En as <-.
    replace (loc0 ++ k0 :: rest) with ((loc0 ++ [k0]) ++ rest) in Hf by (by rewrite <- app_assoc).
    destruct (IH c0 (loc0 ++ [k0]) a vx b x k c Hf) as (w & Hw & Hloc); [done|done|].
    exists w. split; [apply elem_of_app; by right|]. by rewrite Hloc, <- app_assoc.
Qed.

End Order.

Lemma AssignDiffType_has t node d target :
  has (Root (AssignDiffType t node d).1) target <-> has (Root t) target.
Proof.
  unfold AssignDiffType. simpl. split; intros H.
  - apply (has_alter_at_gain _ (fun _ => False)) in H as [H|(? & _ & [])]; [done|].
    intros x rest _ Hx. left. by apply has_set_DiffType in Hx.
  - apply has_alter_at_keep; [|done]. intros x rest _ Hx. by apply has_set_DiffType.
Qed.

(** The path of a node leads through the directories above it, whiteout or
    not. *)
Lemma Path_segments_prefix dirs name :
  forallb Strs.valid_segment (dirs ++ [name]) = true ->
  dirs `prefix_of` Strs.segments (Path (dirs ++ [name])).
Proof.
  intros Hv. destruct (StrsFacts.forallb_valid_segment _ Hv) as [Hne Hsf].
  rewrite forallb_app in Hne, Hsf.
  apply andb_prop in Hne as [Hne _]. apply andb_prop in Hsf as [Hsf Hname].
  simpl in Hname. rewrite andb_true_r in Hname.
  unfold Path. rewrite split_last_snoc, StrsFacts.segments_Join.
  - rewrite List.filter_app, (StrsFacts.filter_nonempty_id _ Hne). by eexists.
  - rewrite forallb_app, Hsf. simpl. by rewrite StrsFacts.slash_free_TrimPrefix.
Qed.

(** A visit of [Compare] that returns no error leaves the path of the
    visited node in the receiver. *)
Lemma Compare_graft_success_has valid_name v t t' :
  Compare_graft valid_name v t = Done None t' ->
  has (Root t') (Strs.segments (Path v.1)).
Proof.
  unfold Compare_graft. destruct (IsWhiteout v.1).
  - unfold markRemoved. rewrite GetNode_spec.
    destruct (node_at (Root t) (Strs.segments (Path v.1))) as [n|] eqn:E; [|done].
    intros [= <-]. apply AssignDiffType_has. unfold has. rewrite E. eauto.
  - rewrite GetNode_spec. destruct (node_at (Root t) (Strs.segments (Path v.1))) as [l|] eqn:E; simpl.
    + rewrite E. unfold deriveDiffType. rewrite E. intros [= <-].
      apply AssignDiffType_has. unfold has. rewrite E. eauto.
    + destruct (AddPath valid_name t (Path v.1) (FileInfo (Data v.2))) as [t1 [r [e1|]]] eqn:Hadd;
        [done|]. destruct r as [n|]; [|done]. intros [= <-]. apply AssignDiffType_has.
      destruct (AddPath_facts _ _ _ _ _ _ _ Hadd) as (_ & _ & Hok & _).
      by destruct (Hok eq_refl) as (_ & ? & _).
Qed.

Lemma has_prefix root l1 l2 : l1 `prefix_of` l2 -> has root l2 -> has root l1.
Proof. intros [rest ->]. apply node_at_prefix. Qed.

(** The receiver lacks the directory, or has it with the empty payload. *)
Definition empty_if_there (dir : NodeRef) (t : FileTree) : Prop :=
  node_at (Root t) dir = None \/ payload_at (Root t) dir = Some FileInfo.zero.

Lemma AssignDiffType_lacks t node d dir :
  node_at (Root t) dir = None -> node_at (Root (AssignDiffType t node d).1) dir = None.
Proof.
  intros Hnone. apply eq_None_not_Some. intros H.
  apply AssignDiffType_has in H as [? H]. congruence.
Qed.

Lemma Compare_graft_empty_if_there valid_name dir loc y t e t' :
  forallb Strs.valid_segment loc = true ->
  (loc = dir -> has (Root t) dir) ->
  Compare_graft valid_name (loc, y) t = Done e t' ->
  empty_if_there dir t -> empty_if_there dir t'.
Proof.
  intros Hseg Hself Hg [Hnone|Hzero].
  - assert (Hne : loc <> dir).
    { intros Heq. destruct (Hself Heq) as [? ?]. congruence. }
    unfold Compare_graft in Hg. simpl in Hg. destruct (IsWhiteout loc) eqn:Hw.
    + left. unfold markRemoved in Hg.
      destruct (GetNode t (Path loc)) as [[node|] [e1|]]; simpl in Hg;
        injection Hg as _ <-; try done.
      by apply (AssignDiffType_lacks t node DiffType.Removed).
    + rewrite GetNode_spec, (segments_Path_plain loc Hseg Hw) in Hg.
      destruct (node_at (Root t) loc) as [l|] eqn:E; simpl in Hg.
      * left. rewrite E in Hg. unfold deriveDiffType in Hg. rewrite E in Hg.
        injection Hg as _ <-. by apply (AssignDiffType_lacks t loc).
      * destruct (AddPath valid_name t (Path loc) (FileInfo (Data y))) as [t1 [r [e1|]]] eqn:Hadd.
        -- injection Hg as _ <-.
           destruct (node_at (Root t1) dir) as [d|] eqn:Ed; [right|by left].
           destruct (AddPath_data _ _ _ _ _ _ _ Hadd) as [_ Hfresh].
           unfold payload_at. rewrite Ed. simpl. f_equal. apply (Hfresh dir d Hnone Ed).
           rewrite (segments_Path_plain loc Hseg Hw). congruence.
        -- destruct r as [n|]; [|done]. injection Hg as _ <-.
           destruct (node_at (Root t1) dir) as [d|] eqn:Ed.
           ++ right. destruct (AddPath_data _ _ _ _ _ _ _ Hadd) as [_ Hfresh].
              assert (Hzero : FileInfo (Data d) = FileInfo.zero).
              { apply (Hfresh dir d Hnone Ed). rewrite (segments_Path_plain loc Hseg Hw). congruence. }
              destruct (AssignDiffType_annotated t1 n DiffType.Added dir d Ed) as (d' & Hd' & Hf & _).
              change (payload_at (Root (AssignDiffType t1 n DiffType.Added).1) dir
                      = Some FileInfo.zero).
              unfold payload_at. rewrite Hd'. simpl. by rewrite Hf, Hzero.
           ++ left. by apply (AssignDiffType_lacks t1 n DiffType.Added).
  - right. unfold payload_at in *. destruct (node_at (Root t) dir) as [d|] eqn:Ed; [|done].
    destruct (Compare_graft_annotated _ _ _ _ _ Hg _ _ Ed) as (d' & -> & Hf & _).
    simpl in *. by rewrite Hf.
Qed.

Lemma Compare_run_new_directory valid_name dir l :
  (forall v, v ∈ l -> forallb Strs.valid_segment v.1 = true) ->
  (forall l1 y l2, l = l1 ++ (dir, y) :: l2 ->
     exists w rest, w ∈ l1 /\ rest <> [] /\ w.1 = dir ++ rest) ->
  forall l2 l1 t err result,
    l = l1 ++ l2 ->
    empty_if_there dir t ->
    ((exists w rest, w ∈ l1 /\ rest <> [] /\ w.1 = dir ++ rest) -> has (Root t) dir) ->
    run_visits (Compare_graft valid_name) l2 t = Done err result ->
    empty_if_there dir result
    /\ (err = None -> (exists w rest, w ∈ l /\ rest <> [] /\ w.1 = dir ++ rest) ->
        has (Root result) dir).
Proof.
  intros Hseg Horder. induction l2 as [|[loc y] l2 IH]; intros l1 t err result Hl Ht Hbelow; simpl.
  - intros [= <- <-]. split; [done|]. intros _. rewrite Hl, app_nil_r. done.
  - unfold bind.
    destruct (Compare_graft valid_name (loc, y) t) as [e t1|] eqn:Hg; [|done].
    assert (Hv : (loc, y) ∈ l) by (rewrite Hl; apply elem_of_app; right; by left).
    assert (Ht1 : empty_if_there dir t1).
    { eapply (Compare_graft_empty_if_there valid_name dir loc y); [exact (Hseg _ Hv)| |exact Hg|exact Ht].
      intros Heq. simpl in Heq. apply Hbelow. apply (Horder l1 y l2). by rewrite Hl, Heq. }
    destruct e as [e|].
    + intros [= <- <-]. split; [done|]. done.
    + apply (IH (l1 ++ [(loc, y)])); [by rewrite <- app_assoc|done|].
      intros (w & rest & Hw & Hrest & Hloc). apply elem_of_app in Hw as [Hw|Hw].
      * destruct Hbelow as [d Hd]; [by exists w, rest|].
        destruct (Compare_graft_annotated _ _ _ _ _ Hg _ _ Hd) as (d' & Hd' & _).
        unfold has. rewrite Hd'. eauto.
      * apply list_elem_of_singleton in Hw as ->. simpl in Hloc.
        pose proof (Compare_graft_success_has _ _ _ _ Hg) as Hpath. simpl in Hpath.
        destruct (exists_last Hrest) as (init & name & ->).
        pose proof (Hseg _ Hv) as Hnames. simpl in Hnames.
        rewrite Hloc, app_assoc in Hnames, Hpath.
        apply Path_segments_prefix in Hnames.
        eapply has_prefix; [|exact Hpath]. etrans; [|exact Hnames]. by exists init.
Qed.

(** X26: a directory that [upper], whose names are names of a path, brings
    with an entry below it, and that the receiver does not have, never gets
    the payload [upper] has for it.  [Compare] returns, with an error or
    without, and the receiver then lacks the directory or has it with the
    empty payload: it is created while an entry below it is added, and when
    the directory itself is visited it is found in the receiver and compared.
    When [Compare] returns no error the directory is there.  [upper] may
    hold whiteout entries. *)
Theorem Compare_new_directory_has_empty_payload valid_name child_order lower upper
    dir x k c :
  (forall m, child_order m ≡ₚ keys m) ->
  all_names Strs.valid_segment (Root upper) = true ->
  node_at (Root upper) dir = Some x -> Children x !! k = Some c ->
  node_at (Root lower) dir = None ->
  exists err result,
    Compare valid_name child_order upper lower = Done err result
    /\ (node_at (Root result) dir = None \/ payload_at (Root result) dir = Some FileInfo.zero)
    /\ (err = None -> payload_at (Root result) dir = Some FileInfo.zero).
Proof.
  intros Horder Hseg Hx Hk Hnew. rewrite Compare_run.
  destruct (run_visits_total (Compare_graft valid_name) (postorder child_order (Root upper) []))
    with (tree := lower) as (err & result & Hrun).
  { intros v t _. apply Compare_graft_returns. }
  exists err, result. split; [done|].
  remember (postorder child_order (Root upper) []) as l eqn:Hl.
  assert (Hnames : forall v, v ∈ l -> forallb Strs.valid_segment v.1 = true).
  { intros v Hv. rewrite Hl in Hv.
    destruct (postorder_sound _ _ _ _ Hv) as (rest & Hloc & Hv2). simpl in Hloc. subst rest.
    by eapply all_names_at. }
  assert (Hfirst : forall l1 y l2, l = l1 ++ (dir, y) :: l2 ->
            exists w rest, w ∈ l1 /\ rest <> [] /\ w.1 = dir ++ rest).
  { intros l1 y l2 Hsplit. rewrite Hl in Hsplit.
    destruct (postorder_child_first child_order Horder dir (Root upper) [] l1 y l2 x k c Hsplit Hx Hk)
      as (w & Hw & Hloc).
    exists w, [k]. done. }
  destruct (Compare_run_new_directory valid_name dir l Hnames Hfirst l [] lower err result)
    as [Hempty Hthere]; [done|by left| |done|].
  { by intros (w & rest & Hw%elem_of_nil & _). }
  split; [done|]. intros ->. destruct Hempty as [Hnone|Hzero]; [|done].
  destruct Hthere as [d Hd]; [done| |congruence].
  exists (dir ++ [k], c), [k]. split; [|done]. rewrite Hl.
  apply (postorder_complete child_order Horder (dir ++ [k]) (Root upper) [] c).
  rewrite node_at_app, Hx. simpl. by rewrite Hk.
Qed.

(** An upper layer that brings the directory [/a], with a payload of its
    own, and [/a/d] below it, next to a whiteout for [/foo]. *)
Definition layer_new_dir : FileTree :=
  add (add (add NewFileTree "/a/d" (fi 1)) "/a" (fi 5)) "/.wh.foo" (fi 0).

Lemma Compare_new_directory_has_empty_payload_witness :
  payload_at (Root layer_new_dir) ["a"] = Some (fi 5)
  /\ exists err result,
       Compare any_name sorted_keys layer_new_dir layer_foo = Done err result
       /\ (node_at (Root result) ["a"] = None
           \/ payload_at (Root result) ["a"] = Some FileInfo.zero)
       /\ (err = None -> payload_at (Root result) ["a"] = Some FileInfo.zero).
Proof.
  split; [vm_compute; reflexivity|].
  apply (Compare_new_directory_has_empty_payload any_name sorted_keys layer_foo
           layer_new_dir ["a"]
           (mkNode (mkData (fi 5) DiffType.Unset ViewInfo.zero) {[ "d" := leaf (fi 1) ]})
           "d" (leaf (fi 1)) sorted_keys_keys);
    vm_compute; reflexivity.
Defined.

(** ** A window is a slice of the whole rendering *)

Lemma window_slice startRow stopRow : forall l row,
  window startRow stopRow row l
  = take (Z.to_nat (stopRow - Z.max startRow row + 1)) (drop (Z.to_nat (startRow - row)) l).
Proof.
  induction l as [|p l IH]; intros row.
  - by rewrite drop_nil, take_nil.
  - simpl. destruct (row <=? stopRow)%Z eqn:E.
    + apply Z.leb_le in E. rewrite IH. destruct (startRow <=? row)%Z eqn:Es.
      * apply Z.leb_le in Es.
        replace (Z.to_nat (startRow - row)) with 0%nat by lia.
        replace (Z.to_nat (startRow - (row + 1))) with 0%nat by lia.
        replace (Z.to_nat (stopRow - Z.max startRow row + 1))
          with (S (Z.to_nat (stopRow - Z.max startRow (row + 1) + 1))) by lia.
        done.
      * apply Z.leb_gt in Es.
        replace (Z.to_nat (startRow - row)) with (S (Z.to_nat (startRow - (row + 1)))) by lia.
        replace (Z.max startRow (row + 1)) with (Z.max startRow row) by lia.
        done.
    + apply Z.leb_gt in E.
      replace (Z.to_nat (stopRow - Z.max startRow row + 1)) with 0%nat by lia. done.
Qed.

(** X27: with a [Size] that covers the nodes of the tree, the rows of a
    window that starts at row [startRow >= 0] are the rows of [String] from
    the one numbered [startRow] to the one numbered [stopRow]. *)
Theorem window_is_a_slice_of_String tree startRow stopRow :
  (Z.of_nat (node_count (Root tree)) - 1 <= Size tree)%Z -> (0 <= startRow)%Z ->
  rows_between tree startRow stopRow
  = take (Z.to_nat (stopRow - startRow + 1))
         (drop (Z.to_nat startRow) (rows_between tree 0 (Size tree))).
Proof.
  intros Hsize Hstart. rewrite (rows_between_all tree Hsize), rows_between_window, window_slice.
  by rewrite Z.max_l, Z.sub_0_r by lia.
Qed.

Lemma window_is_a_slice_of_String_witness :
  rows_between render_tree 1 1
  = take (Z.to_nat (1 - 1 + 1)) (drop (Z.to_nat 1) (rows_between render_tree 0 (Size render_tree))).
Proof. apply window_is_a_slice_of_String; [by vm_compute|lia]. Defined.

(** ** [StackRange] as a union *)

Definition plain_layer (valid_name : string -> bool) (upper : FileTree) : Prop :=
  all_names (addable valid_name) (Root upper) = true
  /\ all_names no_whiteout (Root upper) = true.

Lemma StackRange_loop_union valid_name child_order trees :
  (forall m, child_order m ≡ₚ keys m) ->
  Forall (plain_layer valid_name) trees ->
  forall n idx logged tree,
    (0 <= idx)%Z -> (n <> 0%nat -> (idx + Z.of_nat n <= Z.of_nat (length trees))%Z) ->
    exists tree',
      StackRange_loop valid_name child_order trees n idx logged tree = Done logged tree'
      /\ (forall loc, has (Root tree') loc
                      <-> has (Root tree) loc
                          \/ exists i upper, (idx <= i < idx + Z.of_nat n)%Z
                                             /\ index trees i = Some upper
                                             /\ has (Root upper) loc).
Proof.
  intros Horder Hplain. induction n as [|n IH]; intros idx logged tree Hidx Hend.
  - exists tree. split; [done|]. intros loc. split; [auto|]. intros [?|(i & ? & ? & _)]; [done|lia].
  - simpl. destruct (index_in_range trees idx) as (upper & Hupper & Hin); [lia|].
    rewrite Hupper. unfold bind.
    rewrite Forall_forall in Hplain. destruct (Hplain _ Hin) as [Hadd Hnw].
    destruct (Stack_merge valid_name child_order tree upper Horder Hadd Hnw)
      as (merged & -> & _ & Hunion & _).
    destruct (IH (idx + 1)%Z logged merged) as (tree' & -> & Hiff); [lia|lia|].
    exists tree'. split; [done|]. intros loc. rewrite Hiff, Hunion. split.
    + intros [[?|?]|(i & u & Hi & Hu & Hl)]; [by left| |].
      * right. exists idx, upper. split; [lia|done].
      * right. exists i, u. split; [lia|done].
    + intros [?|(i & u & Hi & Hu & Hl)]; [by left; left|].
      destruct (decide (i = idx)) as [->|Hne].
      * rewrite Hupper in Hu. injection Hu as <-. by left; right.
      * right. exists i, u. split; [lia|done].
Qed.

(** X28: over layers without whiteout entries, all of whose names
    [AddPath] can add, [StackRange(trees, start, stop)] logs nothing and
    returns a tree that has the nodes of the layers [start .. stop] and those
    of [trees[0]], also when [start] is not 0, and no other node. *)
Theorem StackRange_is_a_union valid_name child_order first rest start stop :
  (forall m, child_order m ≡ₚ keys m) ->
  Forall (plain_layer valid_name) (first :: rest) ->
  (0 <= start)%Z -> (stop < Z.of_nat (length (first :: rest)))%Z ->
  exists tree,
    StackRange valid_name child_order (first :: rest) start stop = Done [] tree
    /\ (forall loc, has (Root tree) loc
                    <-> has (Root first) loc
                        \/ exists i upper, (start <= i <= stop)%Z
                                           /\ index (first :: rest) i = Some upper
                                           /\ has (Root upper) loc).
Proof.
  intros Horder Hplain Hstart Hstop. unfold StackRange. simpl index.
  destruct (StackRange_loop_union valid_name child_order (first :: rest) Horder Hplain
              (Z.to_nat (stop - start + 1)) start [] (Copy first)) as (tree & Hrun & Hiff);
    [done|lia|].
  exists tree. split; [done|]. intros loc. rewrite Hiff. unfold Copy. simpl Root.
  rewrite Copy_node_same. split.
  - intros [?|(i & u & Hi & Hu & Hl)]; [by left|]. right. exists i, u. split; [lia|done].
  - intros [?|(i & u & Hi & Hu & Hl)]; [by left|]. right. exists i, u. split; [lia|done].
Qed.

Lemma StackRange_is_a_union_witness :
  exists tree,
    StackRange any_name sorted_keys [layer_foo; layer_a1; render_tree] 2 2 = Done [] tree
    /\ (forall loc, has (Root tree) loc
                    <-> has (Root layer_foo) loc
                        \/ exists i upper, (2 <= i <= 2)%Z
                                           /\ index [layer_foo; layer_a1; render_tree] i = Some upper
                                           /\ has (Root upper) loc).
Proof.
  apply StackRange_is_a_union; [apply sorted_keys_keys| |lia|simpl; lia].
  repeat constructor; vm_compute; reflexivity.
Defined.

(** * Stacking adjacent ranges of layers *)

(** Two nodes that hold the same data at every location are the same
    node. *)
Lemma node_ext : forall a b,
  (forall loc, Data <$> node_at a loc = Data <$> node_at b loc) -> a = b.
Proof.
  intros a; pattern a; apply FileNode_children_ind; clear a.
  intros [da cha] IH [db chb] H.
  pose proof (H []) as H0. simpl in H0. injection H0 as ->. f_equal.
  apply map_eq. intros k. pose proof (H [k]) as Hk. simpl in Hk.
  destruct (cha !! k) as [c|] eqn:Ea, (chb !! k) as [c'|] eqn:Eb; simpl in Hk; try done.
  f_equal. apply (IH k c Ea). intros loc. specialize (H (k :: loc)). simpl in H.
  by rewrite Ea, Eb in H.
Qed.

Lemma all_names_intro P : forall n,
  (forall loc x, node_at n loc = Some x -> forallb P loc = true) -> all_names P n = true.
Proof.
  intros n; pattern n; apply FileNode_children_ind; clear n.
  intros [d ch] IH H. simpl.
  assert (Hall : forall k c, ch !! k = Some c -> P k = true /\ all_names P c = true).
  { intros k c Hc. split.
    - specialize (H [k] c). simpl in H. rewrite Hc in H. specialize (H eq_refl).
      by apply andb_prop in H as [? _].
    - apply (IH k c Hc). intros loc x Hx. specialize (H (k :: loc) x). simpl in H.
      rewrite Hc in H. specialize (H Hx). by apply andb_prop in H as [_ ?]. }
  clear IH H. revert Hall.
  apply (map_fold_weak_ind (fun r m => (forall k c, m !! k = Some c -> P k = true /\ all_names P c = true) -> r = true)).
  - done.
  - intros i x m r Hi IHm Hall.
    destruct (Hall i x) as [-> ->]; [by rewrite lookup_insert_eq|]. simpl.
    apply IHm. intros k c Hk. apply Hall. rewrite lookup_insert_ne; [done|]. intros ->. congruence.
Qed.

Lemma children_count_insert m k c :
  m !! k = None -> children_count (<[k:=c]> m) = (node_count c + children_count m)%nat.
Proof.
  intros H. rewrite (children_count_delete (<[k:=c]> m) k c) by apply lookup_insert_eq.
  by rewrite delete_insert_id.
Qed.

Lemma node_count_alter_at f : forall loc root x,
  node_at root loc = Some x ->
  (node_count (alter_at f loc root) + node_count x = node_count root + node_count (f x))%nat.
Proof.
  induction loc as [|k loc IH]; intros root x; simpl.
  - intros [= ->]. lia.
  - destruct (Children root !! k) as [c|] eqn:E; [|done]. intros Hx.
    specialize (IH c x Hx). rewrite (node_count_eq root).
    rewrite (children_count_delete (Children root) k c E).
    rewrite (children_count_delete (alter (alter_at f loc) k (Children root)) k (alter_at f loc c)).
    2: { by rewrite lookup_alter_eq, E. }
    rewrite delete_alter_eq. lia.
Qed.

Lemma wrap_int_range z : (- 2 ^ 63 <= wrap_int z < 2 ^ 63)%Z.
Proof. unfold wrap_int. pose proof (Z.mod_pos_bound (z + 2 ^ 63) (2 ^ 64)). lia. Qed.

Lemma wrap_int_mod z c : ((wrap_int z - c) mod 2 ^ 64 = (z - c) mod 2 ^ 64)%Z.
Proof.
  unfold wrap_int.
  replace ((z + 2 ^ 63) mod 2 ^ 64 - 2 ^ 63 - c)%Z
    with ((z + 2 ^ 63) mod 2 ^ 64 - (2 ^ 63 + c))%Z by lia.
  rewrite Zminus_mod_idemp_l. f_equal. lia.
Qed.

(** ** The bookkeeping of a tree under [AddPath] *)

Definition tree_count (t : FileTree) : Z := Z.of_nat (node_count (Root t)).

(** The fields hold values of their Go types. *)
Definition settled (t : FileTree) : Prop :=
  (- 2 ^ 63 <= Size t < 2 ^ 63)%Z /\ (0 <= FileSize t < 2 ^ 64)%Z.

(** [Size] has moved with the number of nodes; [FileSize] and [Name] have
    not moved. *)
Definition same_books (t0 t : FileTree) : Prop :=
  Name t = Name t0 /\ FileSize t = FileSize t0
  /\ ((Size t - tree_count t) mod 2 ^ 64 = (Size t0 - tree_count t0) mod 2 ^ 64)%Z.

Lemma same_books_refl t : same_books t t.
Proof. done. Qed.

Lemma same_books_trans a b c : same_books a b -> same_books b c -> same_books a c.
Proof. intros (? & ? & ?) (? & ? & ?). repeat split; congruence. Qed.

Lemma same_books_eq t0 a b :
  settled a -> settled b -> same_books t0 a -> same_books t0 b -> Root a = Root b -> a = b.
Proof.
  intros [Ha _] [Hb _] (Hn & Hf & Hs) (Hn' & Hf' & Hs') Hroot.
  destruct a as [ra sa fa na], b as [rb sb fb nb]. unfold tree_count in *. simpl in *. subst.
  f_equal. rewrite <- Hs' in Hs.
  set (c := Z.of_nat (node_count rb)) in *.
  assert (H : (((sa - c) - (sb - c)) mod 2 ^ 64 = 0)%Z).
  { rewrite Zminus_mod, Hs, Z.sub_diag. done. }
  apply Z.mod_divide in H; [|lia]. destruct H as [q Hq]. lia.
Qed.

Lemma node_count_set_FileInfo data loc root :
  has root loc -> node_count (alter_at (set_FileInfo data) loc root) = node_count root.
Proof.
  intros [x Hx]. pose proof (node_count_alter_at (set_FileInfo data) loc root x Hx) as H.
  rewrite (node_count_eq (set_FileInfo data x)), (node_count_eq x) in H. simpl in H. lia.
Qed.

Section Books.

Variable valid_name : string -> bool.
Import Strs StrsFacts.

Lemma attach_books (last : bool) data loc t :
  has (Root t) loc -> settled t ->
  let t' := if last then with_root (alter_at (set_FileInfo data) loc) t else t in
  settled t' /\ same_books t t'.
Proof.
  intros Hloc Hs. destruct last; simpl; [|done]. split; [done|].
  unfold same_books, tree_count. simpl. by rewrite node_count_set_FileInfo.
Qed.

Lemma AddPath_step_books name last data node tree tree' r :
  has (Root tree) node ->
  AddPath_step valid_name name last data node tree = (tree', r) ->
  settled tree -> settled tree' /\ same_books tree tree'.
Proof.
  intros [x Hx]. unfold AddPath_step. rewrite child_of_node_at.
  destruct (node_at (Root tree) (node ++ [name])) as [c|] eqn:E.
  - intros [= <- <-] Hs. apply attach_books; [by exists c|done].
  - unfold AddChild. destruct (valid_name name); [|by intros [= <- <-]].
    intros [= <- <-] Hs.
    match goal with |- context [if last then with_root _ ?t else _] => set (mid := t) end.
    assert (Hmid : settled mid /\ same_books tree mid).
    { destruct Hs as [Hsize Hfile]. subst mid. unfold settled, same_books, tree_count. simpl.
      split; [split; [apply wrap_int_range|]|split; [done|split]].
      - unfold wrap_uint64. apply Z.mod_pos_bound. lia.
      - unfold wrap_uint64. rewrite Z.add_0_r. apply Z.mod_small. done.
      - rewrite wrap_int_mod. f_equal.
        pose proof (node_count_alter_at (set_children (insert name (NewNode FileInfo.zero)))
                      node (Root tree) x Hx) as H.
        rewrite (node_count_eq (set_children _ x)), (node_count_eq x) in H. simpl in H.
        rewrite children_count_insert in H.
        2: { rewrite node_at_app, Hx in E. simpl in E. by destruct (Children x !! name). }
        change (node_count (NewNode FileInfo.zero)) with 1%nat in H. lia. }
    destruct Hmid as [Hs1 Hb1].
    destruct (attach_books last data (node ++ [name]) mid) as [Hs2 Hb2]; [|done|].
    { subst mid. unfold has. simpl. rewrite node_at_alter_at_below, Hx. simpl.
      rewrite lookup_insert_eq. eauto. }
    split; [done|]. by eapply same_books_trans.
Qed.

Lemma AddPath_loop_invariant (I : FileTree -> Prop) data :
  (forall name last node tree tree' r,
     has (Root tree) node ->
     AddPath_step valid_name name last data node tree = (tree', r) -> I tree -> I tree') ->
  forall names idx len node tree tree' res,
    forallb nonempty names = true -> has (Root tree) node ->
    AddPath_loop valid_name names idx len data node tree = (tree', res) -> I tree -> I tree'.
Proof.
  intros Hstep. induction names as [|n names IH]; intros idx len node tree tree' res Hne Hnode Hrun Ht.
  - simpl in Hrun. by injection Hrun as <- _.
  - simpl in Hne. apply andb_prop in Hne as [Hn Hne].
    rewrite AddPath_loop_cons in Hrun by done.
    destruct (AddPath_step valid_name n (idx =? len - 1)%Z data node tree) as [mid [node'|]] eqn:E.
    + destruct (AddPath_step_cursor _ _ _ _ _ _ _ _ Hnode E node' eq_refl) as (_ & Hcur & _).
      eapply IH; [done|exact Hcur|exact Hrun|]. exact (Hstep _ _ _ _ _ _ Hnode E Ht).
    + injection Hrun as <- _. exact (Hstep _ _ _ _ _ _ Hnode E Ht).
Qed.

Lemma AddPath_invariant (I : FileTree -> Prop) tree path data tree' res :
  (forall name last node tree tree' r,
     has (Root tree) node ->
     AddPath_step valid_name name last data node tree = (tree', r) -> I tree -> I tree') ->
  AddPath valid_name tree path data = (tree', res) -> I tree -> I tree'.
Proof.
  intros Hstep. rewrite AddPath_segments.
  apply AddPath_loop_invariant; [done|apply segments_nonempty|by eexists].
Qed.

Lemma AddPath_books tree path data tree' res :
  AddPath valid_name tree path data = (tree', res) ->
  settled tree -> settled tree' /\ same_books tree tree'.
Proof.
  intros Hrun Hs.
  apply (AddPath_invariant (fun t => settled t /\ same_books tree t) _ _ _ _ _) with (3 := conj Hs (same_books_refl tree)) in Hrun; [done|].
  intros name last node t t' r Hnode Hstep [Hst Hb].
  destruct (AddPath_step_books _ _ _ _ _ _ _ Hnode Hstep Hst) as [? ?].
  split; [done|]. by eapply same_books_trans.
Qed.

(** A node that one turn of the loop creates has no classification and the
    default view state. *)
Lemma AddPath_step_fresh_view name last data node tree tree' r target n' :
  AddPath_step valid_name name last data node tree = (tree', r) ->
  node_at (Root tree) target = None -> node_at (Root tree') target = Some n' ->
  DiffType (Data n') = DiffType.Unset /\ ViewInfo (Data n') = ViewInfo.zero.
Proof.
  intros Hstep Hnone Hn'.
  destruct (AddPath_step_fresh _ _ _ _ _ _ _ _ _ _ Hstep Hnone Hn') as [-> Hnew].
  revert Hstep Hn'. unfold AddPath_step. rewrite child_of_node_at, Hnone.
  unfold AddChild. destruct (valid_name name); [|intros [= <- <-]; congruence].
  intros [= <- <-] Hn'.
  match type of Hn' with context [Root (if last then with_root _ ?t else _)] => set (mid := t) in * end.
  assert (Hmid : node_at (Root mid) (node ++ [name]) = Some (NewNode FileInfo.zero)).
  { assert (H : has (Root mid) (node ++ [name])).
    { destruct last; [|unfold has; rewrite Hn'; eauto].
      apply (has_attach data (node ++ [name]) mid). exists n'. exact Hn'. }
    destruct H as [y Hy]. rewrite Hy. subst mid. simpl in Hy.
    rewrite node_at_alter_at_below in Hy.
    destruct (node_at (Root tree) node) as [x|]; simpl in Hy; [|done].
    by rewrite lookup_insert_eq in Hy. }
  destruct (attach_data last data (node ++ [name]) mid (node ++ [name]) _ Hmid)
    as (n'' & Hn'' & Hdiff & Hview & _).
  rewrite Hn' in Hn''. injection Hn'' as <-. done.
Qed.

Lemma AddPath_fresh_view tree path data tree' res target :
  AddPath valid_name tree path data = (tree', res) ->
  node_at (Root tree) target = None ->
  forall n', node_at (Root tree') target = Some n' ->
    DiffType (Data n') = DiffType.Unset /\ ViewInfo (Data n') = ViewInfo.zero.
Proof.
  intros Hrun Hnone.
  apply (AddPath_invariant
           (fun t => forall n', node_at (Root t) target = Some n' ->
              DiffType (Data n') = DiffType.Unset /\ ViewInfo (Data n') = ViewInfo.zero)
           _ _ _ _ _) with (2 := Hrun); [|intros; congruence].
  intros name last node t t' r Hnode Hstep Ht n' Hn'.
  destruct (node_at (Root t) target) as [n|] eqn:E.
  - destruct (AddPath_step_data _ _ _ _ _ _ _ _ _ _ Hstep E) as (n1 & Hn1 & Hd & Hv & _).
    rewrite Hn' in Hn1. injection Hn1 as <-. destruct (Ht n eq_refl) as [? ?]. split; congruence.
  - by eapply AddPath_step_fresh_view.
Qed.

End Books.

(** ** The merge of two layers without whiteout entries *)

(** The data of a merged node: the payload of the upper node, unless it is
    the root, with the classification and the view state the lower node
    had, or those of a new node. *)
Definition merged_data (dl du : option NodeData) (loc : NodeRef) : option NodeData :=
  match loc, du with
  | _ :: _, Some u =>
      Some (mkData (FileInfo u)
                   (from_option DiffType DiffType.Unset dl)
                   (from_option ViewInfo ViewInfo.zero dl))
  | _, _ => dl
  end.

Lemma merged_data_assoc m u t loc :
  merged_data (merged_data m u loc) t loc = merged_data m (merged_data u t loc) loc.
Proof. destruct loc as [|k l], m as [m|], u as [u|], t as [t|]; reflexivity. Qed.

Section Merge.

Variable valid_name : string -> bool.
Import Strs StrsFacts.
Variable child_order : gmap string FileNode -> list string.
Hypothesis child_order_keys : forall m, child_order m ≡ₚ keys m.

Lemma Stack_plain_invariant (I : FileTree -> Prop) upper lower merged :
  plain_layer valid_name upper ->
  (forall loc x t t', node_at (Root upper) loc = Some x ->
     AddPath valid_name t (Path loc) (FileInfo (Data x)) = (t', (Some loc, None)) ->
     segments (Path loc) = loc -> I t -> I t') ->
  Stack valid_name child_order upper lower = Done None merged -> I lower -> I merged.
Proof.
  intros [Hadd Hplain] Hstep. rewrite Stack_run. apply run_visits_invariant.
  intros [loc x] t t' Hv Hg.
  destruct (postorder_sound _ _ _ _ Hv) as (rest & Hloc & Hx). simpl in Hloc, Hx. subst rest.
  destruct (Stack_graft_adds valid_name loc x t) as (t1 & Hg1 & Hadd1 & Hpath);
    [by eapply all_names_at|by eapply all_names_at|].
  pose proof (eq_trans (eq_sym Hg1) Hg) as Heq. injection Heq as <-. by apply (Hstep loc x).
Qed.

Lemma Stack_books upper lower merged :
  plain_layer valid_name upper ->
  Stack valid_name child_order upper lower = Done None merged ->
  settled lower -> settled merged /\ same_books lower merged.
Proof.
  intros Hplain Hrun Hs.
  apply (Stack_plain_invariant (fun t => settled t /\ same_books lower t) upper lower merged);
    [done| |done|by split].
  intros loc x t t' _ Hadd _ [Hst Hb].
  destruct (AddPath_books _ _ _ _ _ _ Hadd Hst) as [? ?].
  split; [done|]. by eapply same_books_trans.
Qed.

Lemma Stack_data upper lower merged :
  plain_layer valid_name upper ->
  Stack valid_name child_order upper lower = Done None merged ->
  forall loc,
    Data <$> node_at (Root merged) loc
    = merged_data (Data <$> node_at (Root lower) loc) (Data <$> node_at (Root upper) loc) loc.
Proof.
  intros Hplain Hrun.
  destruct (Stack_merge valid_name child_order lower upper child_order_keys (proj1 Hplain) (proj2 Hplain))
    as (merged' & Hrun' & Hpay & Hiff & Hkeep).
  rewrite Hrun in Hrun'. injection Hrun' as <-.
  assert (Hview : forall loc n, node_at (Root lower) loc = Some n ->
            exists n', node_at (Root merged) loc = Some n'
              /\ DiffType (Data n') = DiffType (Data n) /\ ViewInfo (Data n') = ViewInfo (Data n)).
  { intros loc n Hn.
    apply (Stack_plain_invariant
             (fun t => exists n', node_at (Root t) loc = Some n'
                /\ DiffType (Data n') = DiffType (Data n) /\ ViewInfo (Data n') = ViewInfo (Data n))
             upper lower merged); [done| |done|by exists n].
    intros loc' x t t' _ Hadd _ (n1 & Hn1 & Hd1 & Hv1).
    destruct (AddPath_data _ _ _ _ _ _ _ Hadd) as [Hkeep1 _].
    destruct (Hkeep1 loc n1 Hn1) as (n2 & Hn2 & Hd2 & Hv2 & _).
    exists n2. split; [done|]. split; congruence. }
  assert (Hfresh : forall loc, node_at (Root lower) loc = None ->
            forall n', node_at (Root merged) loc = Some n' ->
              DiffType (Data n') = DiffType.Unset /\ ViewInfo (Data n') = ViewInfo.zero).
  { intros loc Hnone.
    apply (Stack_plain_invariant
             (fun t => forall n', node_at (Root t) loc = Some n' ->
                DiffType (Data n') = DiffType.Unset /\ ViewInfo (Data n') = ViewInfo.zero)
             upper lower merged); [done| |done|intros; congruence].
    intros loc' x t t' _ Hadd _ Ht n' Hn'.
    destruct (node_at (Root t) loc) as [n|] eqn:E.
    - destruct (AddPath_data _ _ _ _ _ _ _ Hadd) as [Hkeep1 _].
      destruct (Hkeep1 loc n E) as (n2 & Hn2 & Hd2 & Hv2 & _).
      rewrite Hn' in Hn2. injection Hn2 as <-. destruct (Ht n eq_refl). split; congruence.
    - by eapply AddPath_fresh_view. }
  assert (Hroot : payload_at (Root merged) [] = payload_at (Root lower) []).
  { apply (Stack_plain_invariant
             (fun t => payload_at (Root t) [] = payload_at (Root lower) [])
             upper lower merged); [done| |done|done].
    intros loc' x t t' _ Hadd Hpath Ht. rewrite <- Ht.
    destruct loc' as [|k l].
    - rewrite AddPath_nameless in Hadd by done. by injection Hadd as <-.
    - apply (AddPath_payload_elsewhere _ _ _ _ _ _ _ [] Hadd); [by rewrite Hpath|by eexists]. }
  intros loc. destruct (decide (loc = [])) as [->|Hne].
  - simpl. destruct (Hview [] (Root lower) eq_refl) as (n' & Hn' & Hd & Hv).
    simpl in Hn'. injection Hn' as <-. unfold payload_at in Hroot. simpl in Hroot.
    injection Hroot as Hf. f_equal.
    destruct (Data (Root merged)), (Data (Root lower)). simpl in *. congruence.
  - destruct (node_at (Root upper) loc) as [x|] eqn:Ex.
    + pose proof (Hpay loc x Hne Ex) as Hp. unfold payload_at in Hp.
      destruct (node_at (Root merged) loc) as [n'|] eqn:En'; [|done]. simpl in Hp.
      injection Hp as Hf.
      destruct (node_at (Root lower) loc) as [n|] eqn:En.
      * destruct (Hview loc n En) as (n2 & Hn2 & Hd & Hv). rewrite En' in Hn2. injection Hn2 as <-.
        destruct loc as [|k l]; [done|]. simpl. f_equal.
        destruct (Data n'). simpl in *. congruence.
      * destruct (Hfresh loc En n' En') as [Hd Hv].
        destruct loc as [|k l]; [done|]. simpl. f_equal.
        destruct (Data n'). simpl in *. congruence.
    + destruct (node_at (Root lower) loc) as [n|] eqn:En.
      * destruct (Hview loc n En) as (n2 & Hn2 & Hd & Hv). rewrite Hn2.
        assert (Hp : payload_at (Root merged) loc = payload_at (Root lower) loc).
        { apply Hkeep; [by exists n|]. intros [? ?]. congruence. }
        unfold payload_at in Hp. rewrite Hn2, En in Hp. simpl in Hp. injection Hp as Hf.
        destruct loc as [|k l]; [done|]. simpl. f_equal.
        destruct (Data n2), (Data n). simpl in *. congruence.
      * destruct (node_at (Root merged) loc) as [n'|] eqn:En'; [|by destruct loc]. exfalso.
        destruct (proj1 (Hiff loc)) as [[? ?]|[? ?]]; [by exists n'|congruence|congruence].
Qed.

Lemma Stack_names P upper lower merged :
  plain_layer valid_name upper ->
  Stack valid_name child_order upper lower = Done None merged ->
  all_names P (Root upper) = true -> all_names P (Root lower) = true ->
  all_names P (Root merged) = true.
Proof.
  intros Hplain Hrun Hu Hl.
  destruct (Stack_merge valid_name child_order lower upper child_order_keys (proj1 Hplain) (proj2 Hplain))
    as (merged' & Hrun' & _ & Hiff & _).
  rewrite Hrun in Hrun'. injection Hrun' as <-.
  apply all_names_intro. intros loc x Hx.
  destruct (proj1 (Hiff loc)) as [[y Hy]|[y Hy]]; [by exists x| |].
  - exact (all_names_at P loc _ y Hl Hy).
  - exact (all_names_at P loc _ y Hu Hy).
Qed.

(** Stacking is associative over layers without whiteout entries. *)
Lemma Stack_assoc lower middle upper :
  plain_layer valid_name middle -> plain_layer valid_name upper -> settled lower ->
  exists lm mu whole,
    Stack valid_name child_order middle lower = Done None lm
    /\ Stack valid_name child_order upper middle = Done None mu
    /\ plain_layer valid_name mu
    /\ Stack valid_name child_order upper lm = Done None whole
    /\ Stack valid_name child_order mu lower = Done None whole.
Proof.
  intros Hm Hu Hs.
  destruct (Stack_merge valid_name child_order lower middle child_order_keys (proj1 Hm) (proj2 Hm))
    as (lm & Hlm & _).
  destruct (Stack_merge valid_name child_order middle upper child_order_keys (proj1 Hu) (proj2 Hu))
    as (mu & Hmu & _).
  assert (Hplain : plain_layer valid_name mu).
  { split; eapply Stack_names; try done; [apply Hu|apply Hm|apply Hu|apply Hm]. }
  destruct (Stack_merge valid_name child_order lm upper child_order_keys (proj1 Hu) (proj2 Hu))
    as (w1 & Hw1 & _).
  destruct (Stack_merge valid_name child_order lower mu child_order_keys (proj1 Hplain) (proj2 Hplain))
    as (w2 & Hw2 & _).
  exists lm, mu, w1. split; [done|]. split; [done|]. split; [done|]. split; [done|].
  rewrite Hw2. f_equal.
  destruct (Stack_books _ _ _ Hm Hlm Hs) as [Hs1 Hb1].
  destruct (Stack_books _ _ _ Hu Hw1 Hs1) as [Hs2 Hb2].
  destruct (Stack_books _ _ _ Hplain Hw2 Hs) as [Hs3 Hb3].
  apply (same_books_eq lower); [done|done|done|exact (same_books_trans _ _ _ Hb1 Hb2)|].
  apply node_ext. intros loc.
  rewrite (Stack_data _ _ _ Hplain Hw2), (Stack_data _ _ _ Hu Hw1).
  rewrite (Stack_data _ _ _ Hm Hlm), (Stack_data _ _ _ Hu Hmu).
  symmetry. apply merged_data_assoc.
Qed.

End Merge.

(** ** [StackRange] over adjacent ranges of layers without whiteout entries *)

Section Ranges.

Variable valid_name : string -> bool.
Variable child_order : gmap string FileNode -> list string.
Hypothesis child_order_keys : forall m, child_order m ≡ₚ keys m.

(** Stacking a layer onto a tree that holds every entry of the layer, with
    the payload the layer gives it, changes nothing. *)
Lemma Stack_held upper tree :
  plain_layer valid_name upper ->
  (forall loc x, loc <> [] -> node_at (Root upper) loc = Some x ->
     payload_at (Root tree) loc = Some (FileInfo (Data x))) ->
  Stack valid_name child_order upper tree = Done None tree.
Proof.
  intros [Hadd Hplain] Hheld. rewrite Stack_run. apply run_visits_fixed.
  intros [loc x] Hv. destruct (postorder_sound _ _ _ _ Hv) as (rest & Hloc & Hx).
  simpl in Hloc, Hx. subst rest.
  pose proof (all_names_at _ _ _ _ Hadd Hx) as Hnames.
  destruct (forallb_addable _ _ Hnames) as [Hseg _].
  destruct (Stack_graft_plain valid_name loc x tree Hseg (all_names_at _ _ _ _ Hplain Hx))
    as [Hpath Hgraft].
  etrans; [exact Hgraft|].
  destruct (decide (loc = [])) as [->|Hne].
  - by rewrite AddPath_nameless.
  - specialize (Hheld loc x Hne Hx). unfold payload_at in Hheld.
    destruct (node_at (Root tree) loc) as [m|] eqn:Em; [|done]. simpl in Hheld.
    injection Hheld as Hf.
    rewrite AddPath_existing; rewrite Hpath; [|done|by exists m].
    f_equal. unfold with_root. rewrite (alter_at_same _ _ _ m Em); [by destruct tree|].
    destruct m as [[f d v] ch]. simpl in *. by subst.
Qed.

(** The loop over layers that give the entries of [first] the payload
    [first] gives them leaves these entries as they are. *)
Lemma StackRange_loop_keeps trees first :
  forall n idx logged tree,
    (forall i upper, (idx <= i < idx + Z.of_nat n)%Z -> index trees i = Some upper ->
       plain_layer valid_name upper) ->
    (0 <= idx)%Z -> (n <> 0%nat -> (idx + Z.of_nat n <= Z.of_nat (length trees))%Z) ->
    settled tree ->
    (forall i upper loc x y,
       (idx <= i < idx + Z.of_nat n)%Z -> index trees i = Some upper -> loc <> [] ->
       node_at (Root first) loc = Some x -> node_at (Root upper) loc = Some y ->
       FileInfo (Data y) = FileInfo (Data x)) ->
    (forall loc x, loc <> [] -> node_at (Root first) loc = Some x ->
       payload_at (Root tree) loc = Some (FileInfo (Data x))) ->
    exists tree',
      StackRange_loop valid_name child_order trees n idx logged tree = Done logged tree'
      /\ settled tree'
      /\ (forall loc x, loc <> [] -> node_at (Root first) loc = Some x ->
            payload_at (Root tree') loc = Some (FileInfo (Data x))).
Proof.
  induction n as [|n IH]; intros idx logged tree Hplain Hidx Hend Hs Hagree Hheld.
  - by exists tree.
  - simpl. destruct (index_in_range trees idx) as (upper & Hupper & _); [lia|].
    rewrite Hupper. unfold bind.
    assert (Hu : plain_layer valid_name upper) by (apply (Hplain idx); [lia|done]).
    destruct (Stack_merge valid_name child_order tree upper child_order_keys (proj1 Hu) (proj2 Hu))
      as (merged & Hrun & Hpay & _ & Hkeep).
    rewrite Hrun.
    destruct (Stack_books valid_name child_order _ _ _ Hu Hrun Hs) as [Hs' _].
    apply IH; [|lia|lia|done| |].
    + intros i u Hi. apply Hplain. lia.
    + intros i u loc x y Hi. apply Hagree. lia.
    + intros loc x Hne Hx. destruct (node_at (Root upper) loc) as [y|] eqn:Ey.
      * rewrite (Hpay loc y Hne Ey). f_equal. apply (Hagree idx upper loc x y); [lia|done..].
      * rewrite Hkeep; [by apply Hheld|eapply payload_has; by apply Hheld|].
        intros [? ?]. congruence.
Qed.

(** The same layers stacked onto [lower] and onto a layer [base] that
    [lower] already holds: the second result stacked onto [lower] gives the
    first. *)
Lemma StackRange_loop_assoc trees lower base :
  settled lower -> plain_layer valid_name base ->
  Stack valid_name child_order base lower = Done None lower ->
  forall n idx,
    (forall i upper, (idx <= i < idx + Z.of_nat n)%Z -> index trees i = Some upper ->
       plain_layer valid_name upper) ->
    (0 <= idx)%Z -> (n <> 0%nat -> (idx + Z.of_nat n <= Z.of_nat (length trees))%Z) ->
    exists whole right,
      StackRange_loop valid_name child_order trees n idx [] lower = Done [] whole
      /\ StackRange_loop valid_name child_order trees n idx [] base = Done [] right
      /\ plain_layer valid_name right
      /\ Stack valid_name child_order right lower = Done None whole.
Proof.
  intros Hs Hbase Hheld. induction n as [|n IH]; intros idx Hplain Hidx Hend.
  - by exists lower, base.
  - destruct (IH idx) as (whole & right & Hwhole & Hright & Hpr & Hstack); [|done|lia|].
    { intros i u Hi. apply Hplain. lia. }
    replace (S n) with (n + 1)%nat by lia.
    rewrite !StackRange_loop_turns, Hwhole, Hright.
    destruct (index_in_range trees (idx + Z.of_nat n)) as (upper & Hupper & _); [lia|].
    assert (Hu : plain_layer valid_name upper) by (apply (Hplain (idx + Z.of_nat n)%Z); [lia|done]).
    destruct (Stack_assoc valid_name child_order child_order_keys lower right upper Hpr Hu Hs)
      as (lm & mu & w & Hlm & Hmu & Hpmu & Hw1 & Hw2).
    rewrite Hstack in Hlm. injection Hlm as <-.
    exists w, mu. simpl. rewrite Hupper. unfold bind. rewrite Hw1, Hmu. done.
Qed.

(** The nodes of the tree the loop leaves are those it started with and
    those of the layers it stacked. *)
Lemma StackRange_loop_nodes trees : forall n idx logged tree,
  (forall i upper, (idx <= i < idx + Z.of_nat n)%Z -> index trees i = Some upper ->
     plain_layer valid_name upper) ->
  (0 <= idx)%Z -> (n <> 0%nat -> (idx + Z.of_nat n <= Z.of_nat (length trees))%Z) ->
  exists tree',
    StackRange_loop valid_name child_order trees n idx logged tree = Done logged tree'
    /\ (forall loc, has (Root tree') loc
                    <-> has (Root tree) loc
                        \/ exists i upper, (idx <= i < idx + Z.of_nat n)%Z
                                           /\ index trees i = Some upper
                                           /\ has (Root upper) loc).
Proof.
  induction n as [|n IH]; intros idx logged tree Hplain Hidx Hend.
  - exists tree. split; [done|]. intros loc. split; [auto|]. intros [?|(i & ? & ? & _)]; [done|lia].
  - simpl. destruct (index_in_range trees idx) as (upper & Hupper & _); [lia|].
    rewrite Hupper. unfold bind.
    assert (Hu : plain_layer valid_name upper) by (apply (Hplain idx); [lia|done]).
    destruct (Stack_merge valid_name child_order tree upper child_order_keys (proj1 Hu) (proj2 Hu))
      as (merged & -> & _ & Hunion & _).
    destruct (IH (idx + 1)%Z logged merged) as (tree' & -> & Hiff); [|lia|lia|].
    { intros i u Hi. apply Hplain. lia. }
    exists tree'. split; [done|]. intros loc. rewrite Hiff, Hunion. split.
    + intros [[?|?]|(i & u & Hi & Hu' & Hl)]; [by left| |].
      * right. exists idx, upper. split; [lia|done].
      * right. exists i, u. split; [lia|done].
    + intros [?|(i & u & Hi & Hu' & Hl)]; [by left; left|].
      destruct (decide (i = idx)) as [->|Hne].
      * rewrite Hupper in Hu'. injection Hu' as <-. by left; right.
      * right. exists i, u. split; [lia|done].
Qed.

End Ranges.

(** C5, as amended: when the layers [0 .. n] have no whiteout entries and
    only names [AddPath] can add, and the layers [1 .. k] give the entries
    they share with [trees[0]] the payload [trees[0]] gives them,
    [StackRange(trees, 0, n)] is [StackRange(trees, k+1, n)] stacked onto
    [StackRange(trees, 0, k)]; nothing is logged and no stacking fails.
    Each of the three trees has the nodes of [trees[0]] and of the layers of
    its range, and no other.  [Size] and [FileSize] of [trees[0]] hold
    values of their Go types. *)
Theorem StackRange_associative_over_plain_layers valid_name child_order first rest k n :
  (forall m, child_order m ≡ₚ keys m) ->
  (0 <= k < n)%Z -> (n < Z.of_nat (length (first :: rest)))%Z ->
  (forall i upper, (0 <= i <= n)%Z -> index (first :: rest) i = Some upper ->
     plain_layer valid_name upper) ->
  (- 2 ^ 63 <= Size first < 2 ^ 63)%Z -> (0 <= FileSize first < 2 ^ 64)%Z ->
  (forall i upper loc x y,
     (1 <= i <= k)%Z -> index (first :: rest) i = Some upper -> loc <> [] ->
     node_at (Root first) loc = Some x -> node_at (Root upper) loc = Some y ->
     FileInfo (Data y) = FileInfo (Data x)) ->
  let nodes_of (start stop : Z) (tree : FileTree) :=
    forall loc, has (Root tree) loc
                <-> has (Root first) loc
                    \/ exists i upper, (start <= i <= stop)%Z
                                       /\ index (first :: rest) i = Some upper
                                       /\ has (Root upper) loc in
  exists whole left right,
    StackRange valid_name child_order (first :: rest) 0 n = Done [] whole
    /\ StackRange valid_name child_order (first :: rest) 0 k = Done [] left
    /\ StackRange valid_name child_order (first :: rest) (k + 1) n = Done [] right
    /\ Stack valid_name child_order right left = Done None whole
    /\ nodes_of 0%Z n whole /\ nodes_of 0%Z k left /\ nodes_of (k + 1)%Z n right.
Proof.
  intros Horder Hk Hn Hplain Hsize Hfile Hagree nodes_of.
  assert (Hfirst : plain_layer valid_name first) by (apply (Hplain 0%Z); [lia|done]).
  assert (Hcopy : Root (Copy first) = Root first) by apply Copy_node_same.
  assert (Hbase : plain_layer valid_name (Copy first)).
  { unfold plain_layer. by rewrite Hcopy. }
  assert (Hunfold : forall start stop,
            StackRange valid_name child_order (first :: rest) start stop
            = StackRange_loop valid_name child_order (first :: rest)
                (Z.to_nat (stop - start + 1)) start [] (Copy first)) by done.
  assert (Hnodes : forall start stop tree,
            (0 <= start)%Z -> (start <= stop <= n)%Z ->
            StackRange valid_name child_order (first :: rest) start stop = Done [] tree ->
            nodes_of start stop tree).
  { intros start stop tree Hstart Hstop Hrun. rewrite Hunfold in Hrun.
    destruct (StackRange_loop_nodes valid_name child_order Horder (first :: rest)
                (Z.to_nat (stop - start + 1)) start [] (Copy first)) as (tree' & Hrun' & Hiff);
      [|done|lia|].
    { intros i upper Hi. apply Hplain. lia. }
    rewrite Hrun in Hrun'. injection Hrun' as <-.
    intros loc. rewrite Hiff, Hcopy. split.
    - intros [?|(i & u & Hi & Hu & Hl)]; [by left|]. right. exists i, u. split; [lia|done].
    - intros [?|(i & u & Hi & Hu & Hl)]; [by left|]. right. exists i, u. split; [lia|done]. }
  destruct (StackRange_loop_keeps valid_name child_order Horder (first :: rest) first
              (Z.to_nat (k - 0 + 1)) 0 [] (Copy first)) as (left & Hleft & Hs & Hheld);
    [|done|lia|done| | |].
  { intros i upper Hi. apply Hplain. lia. }
  { intros i upper loc x y Hi Hu Hne Hx Hy. destruct (decide (i = 0%Z)) as [->|Hi0].
    - simpl in Hu. injection Hu as <-. congruence.
    - apply (Hagree i upper loc x y); [lia|done..]. }
  { intros loc x Hne Hx. unfold payload_at. rewrite Hcopy, Hx. done. }
  assert (Hstack : Stack valid_name child_order (Copy first) left = Done None left).
  { apply Stack_held; [done|]. intros loc x Hne Hx. rewrite Hcopy in Hx. by apply Hheld. }
  destruct (StackRange_loop_assoc valid_name child_order Horder (first :: rest) left (Copy first)
              Hs Hbase Hstack (Z.to_nat (n - k)) (k + 1))
    as (whole & right & Hwhole & Hright & _ & Hfinal); [|lia|lia|].
  { intros i upper Hi. apply Hplain. lia. }
  assert (H0n : StackRange valid_name child_order (first :: rest) 0 n = Done [] whole).
  { rewrite Hunfold.
    replace (Z.to_nat (n - 0 + 1)) with (Z.to_nat (k - 0 + 1) + Z.to_nat (n - k))%nat by lia.
    rewrite StackRange_loop_turns, Hleft. rewrite <- Hwhole. f_equal. lia. }
  assert (H0k : StackRange valid_name child_order (first :: rest) 0 k = Done [] left).
  { by rewrite Hunfold. }
  assert (Hkn : StackRange valid_name child_order (first :: rest) (k + 1) n = Done [] right).
  { rewrite Hunfold, <- Hright. f_equal. lia. }
  exists whole, left, right.
  split; [done|]. split; [done|]. split; [done|]. split; [done|].
  split; [|split]; eapply Hnodes; try eassumption; lia.
Qed.

(** A layer that has [/a] with the payload [layer_a1] gives it, and [/c]. *)
Definition layer_a1_c : FileTree := tree_of (dir [("a", leaf (fi 1)); ("c", leaf (fi 3))]).

Lemma StackRange_associative_over_plain_layers_witness :
  let nodes_of (start stop : Z) (tree : FileTree) :=
    forall loc, has (Root tree) loc
                <-> has (Root layer_a1) loc
                    \/ exists i upper, (start <= i <= stop)%Z
                                       /\ index [layer_a1; layer_a1_c; layer_foo] i = Some upper
                                       /\ has (Root upper) loc in
  exists whole left right,
    StackRange any_name sorted_keys [layer_a1; layer_a1_c; layer_foo] 0 2 = Done [] whole
    /\ StackRange any_name sorted_keys [layer_a1; layer_a1_c; layer_foo] 0 1 = Done [] left
    /\ StackRange any_name sorted_keys [layer_a1; layer_a1_c; layer_foo] (1 + 1) 2 = Done [] right
    /\ Stack any_name sorted_keys right left = Done None whole
    /\ nodes_of 0%Z 2%Z whole /\ nodes_of 0%Z 1%Z left /\ nodes_of (1 + 1)%Z 2%Z right.
Proof.
  apply (StackRange_associative_over_plain_layers any_name sorted_keys
           layer_a1 [layer_a1_c; layer_foo] 1 2).
  - apply sorted_keys_keys.
  - lia.
  - simpl. lia.
  - intros i upper Hi Hu.
    assert (Hcases : i = 0%Z \/ i = 1%Z \/ i = 2%Z) by lia.
    destruct Hcases as [->|[->| ->]]; simpl in Hu; injection Hu as <-;
      split; vm_compute; reflexivity.
  - vm_compute. split; [discriminate|reflexivity].
  - vm_compute. split; [discriminate|reflexivity].
  - intros i upper loc x y Hi Hu Hne Hx Hy.
    assert (i = 1%Z) as -> by lia. simpl in Hu. injection Hu as <-.
    destruct loc as [|k1 l]; [done|].
    change (Children (Root layer_a1)) with (<["a" := leaf (fi 1)]> (∅ : gmap string FileNode)) in Hx.
    simpl in Hx. destruct (decide (k1 = "a")) as [->|Hk1].
    + rewrite lookup_insert_eq in Hx. destruct l as [|k2 l].
      * injection Hx as <-. vm_compute in Hy. injection Hy as <-. reflexivity.
      * simpl in Hx. rewrite lookup_empty in Hx. discriminate.
    + rewrite lookup_insert_ne, lookup_empty in Hx by done. discriminate.
Defined.
